(** * Option merging and asset resolution (src/core/util/options.js)

    A shallow embedding of the option-merging core: the merge strategies,
    the three normalizers, [mergeOptions] and [resolveAsset].

    Modelling conventions.
    - JavaScript values are finite trees ([value]).  An object is its
      prototype together with its own enumerable properties, kept as an
      association list in enumeration order and read by first match.
    - The built-in members of [Object.prototype], [Array.prototype],
      [Function.prototype] and [String.prototype] are not part of the
      model (apart from [length], indices and the [concat] method of
      arrays): [{}] and [Object.create(null)] are the same value, and
      field names are taken not to collide with built-in member names.
    - Code that mutates an argument in place returns the argument's new
      state; an object nested in another is updated where it is stored
      ([mutateAt]).  Objects do not share sub-objects.
    - Effects are a result-or-exception paired with the log of calls made
      to the external collaborators [warn] and [set].
    - The development build is modelled: every
      [process.env.NODE_ENV !== 'production'] test holds. *)

From Stdlib Require Import List String Ascii ZArith Bool Arith Lia DecimalString DecimalNat FinFun.
Import ListNotations.
Local Open Scope string_scope.
Local Open Scope list_scope.
Set Warnings "-register-all".

(** ** Values *)

Inductive value : Type :=
| VUndef
| VNull
| VBool (b : bool)
| VNum (n : Z)
| VStr (s : string)
| VArr (xs : list value)
| VObj (proto : value) (own : list (string * value))
| VFun (id : nat) (own : list (string * value))
| VMergedDataFn (childVal parentVal : value)
| VMergedInstanceDataFn (childVal parentVal vm : value).

(** [VFun id own] is a function supplied by the caller: [id] is its identity
    and [own] its own properties (a constructor carries [options]).  The last
    two constructors are the closures [mergedDataFn] and
    [mergedInstanceDataFn] that [mergeDataOrFn] returns, with the variables
    they capture. *)

Definition fields := list (string * value).

Definition emptyObject : value := VObj VNull [].

(** JavaScript truthiness ([!x] is [negb (truthy x)]). *)
Definition truthy (v : value) : bool :=
  match v with
  | VUndef | VNull => false
  | VBool b => b
  | VNum n => negb (Z.eqb n 0)
  | VStr s => negb (s =? "")
  | _ => true
  end.

(** [typeof v === 'function'] *)
Definition isFunction (v : value) : bool :=
  match v with
  | VFun _ _ | VMergedDataFn _ _ | VMergedInstanceDataFn _ _ _ => true
  | _ => false
  end.

(** [typeof v === 'string'] *)
Definition isString (v : value) : bool :=
  match v with VStr _ => true | _ => false end.

(** [Array.isArray(v)] *)
Definition isArray (v : value) : bool :=
  match v with VArr _ => true | _ => false end.

(** [v === undefined] *)
Definition isUndefined (v : value) : bool :=
  match v with VUndef => true | _ => false end.

(** [v] is [undefined] or [null]: reading a property of it raises. *)
Definition isNullish (v : value) : bool :=
  match v with VUndef | VNull => true | _ => false end.

(** A value [Object.create] accepts as a prototype besides [null]. *)
Definition isObjectLike (v : value) : bool :=
  match v with
  | VArr _ | VObj _ _ | VFun _ _ | VMergedDataFn _ _
  | VMergedInstanceDataFn _ _ _ => true
  | _ => false
  end.

(** ** Association lists *)

Fixpoint assoc (k : string) (l : fields) : option value :=
  match l with
  | [] => None
  | (k', v) :: l' => if k' =? k then Some v else assoc k l'
  end.

Definition keys (l : fields) : list string := map fst l.

Definition mem (k : string) (l : list string) : bool :=
  existsb (String.eqb k) l.

(** [o[k] = v] on the own properties: overwrite where the key stands, else
    append. *)
Fixpoint put (l : fields) (k : string) (v : value) : fields :=
  match l with
  | [] => [(k, v)]
  | (k', v') :: l' => if k' =? k then (k', v) :: l' else (k', v') :: put l' k v
  end.

(** The names of [l] without repetition, each at its first place. *)
Fixpoint dedup (l : list string) : list string :=
  match l with
  | [] => []
  | x :: l' => x :: filter (fun y => negb (y =? x)) (dedup l')
  end.

(** ** Array indices as property names *)

Definition idx_key (i : nat) : string :=
  NilEmpty.string_of_uint (Nat.to_uint i).

Definition idx_keys (n : nat) : list string := map idx_key (seq 0 n).

(** The index a property name denotes in a sequence of length [n]. *)
Definition key_idx (n : nat) (k : string) : option nat :=
  find (fun i => idx_key i =? k) (seq 0 n).

Fixpoint chars (s : string) : list value :=
  match s with
  | EmptyString => []
  | String c s' => VStr (String c EmptyString) :: chars s'
  end.

Definition elemAt (xs : list value) (k : string) : value :=
  if k =? "length" then VNum (Z.of_nat (List.length xs))
  else match key_idx (List.length xs) k with
       | Some i => nth i xs VUndef
       | None => VUndef
       end.

Fixpoint replaceNth (xs : list value) (i : nat) (v : value) : list value :=
  match xs, i with
  | [], _ => []
  | _ :: xs', O => v :: xs'
  | x :: xs', S i' => x :: replaceNth xs' i' v
  end.

(** ** Property access *)

(** [v[k]] for a [v] that is not [undefined] or [null]: own property first,
    then the prototype chain. *)
Fixpoint get (v : value) (k : string) : value :=
  match v with
  | VObj proto own =>
      match assoc k own with
      | Some x => x
      | None => get proto k
      end
  | VFun _ own =>
      match assoc k own with
      | Some x => x
      | None => VUndef
      end
  | VArr xs => elemAt xs k
  | VStr s => elemAt (chars s) k
  | _ => VUndef
  end.

(** [Object.keys(v)]: the own enumerable property names. *)
Definition ownKeys (v : value) : list string :=
  match v with
  | VObj _ own => dedup (keys own)
  | VFun _ own => dedup (keys own)
  | VArr xs => idx_keys (List.length xs)
  | VStr s => idx_keys (String.length s)
  | _ => []
  end.

(** [for (key in v)]: own enumerable names, then the inherited ones that are
    not shadowed. *)
Fixpoint forin (v : value) : list string :=
  match v with
  | VObj proto own => dedup (keys own ++ forin proto)
  | VFun _ own => dedup (keys own)
  | VArr xs => idx_keys (List.length xs)
  | VStr s => idx_keys (String.length s)
  | _ => []
  end.

(** [o[k] = v]: creates or overwrites an own property. *)
Definition assign (o : value) (k : string) (v : value) : value :=
  match o with
  | VObj proto own => VObj proto (put own k v)
  | VFun id own => VFun id (put own k v)
  | VArr xs =>
      match key_idx (List.length xs) k with
      | Some i => VArr (replaceNth xs i v)
      | None => o
      end
  | _ => o
  end.

(** The targets and names for which [assign] is the whole effect of the
    assignment. *)
Definition assignable (o : value) (k : string) : bool :=
  match o with
  | VObj _ _ | VFun _ _ => true
  | VArr xs => match key_idx (List.length xs) k with Some _ => true | None => false end
  | _ => false
  end.

(** The object stored at [v[k]] has been mutated in place into [x]: the
    property keeps its place, own or on the prototype chain. *)
Fixpoint mutateAt (v : value) (k : string) (x : value) : value :=
  match v with
  | VObj proto own =>
      match assoc k own with
      | Some _ => VObj proto (put own k x)
      | None => VObj (mutateAt proto k x) own
      end
  | VFun id own =>
      match assoc k own with
      | Some _ => VFun id (put own k x)
      | None => v
      end
  | VArr xs =>
      match key_idx (List.length xs) k with
      | Some i => VArr (replaceNth xs i x)
      | None => v
      end
  | _ => v
  end.

(** ** Helpers of shared/util *)

(** Modelled from the spec: [hasOwn] of shared/util, the has-own-property
    predicate, a pure function of the object and the name. *)
Definition hasOwn (v : value) (k : string) : bool :=
  match v with
  | VObj _ own => mem k (keys own)
  | VFun _ own => mem k (keys own)
  | VArr xs => (k =? "length") || mem k (idx_keys (List.length xs))
  | VStr s => (k =? "length") || mem k (idx_keys (String.length s))
  | _ => false
  end.

(** Modelled from the spec: [isPlainObject] of shared/util, the
    is-plain-object predicate: an object that is neither an array nor a
    function. *)
Definition isPlainObject (v : value) : bool :=
  match v with VObj _ _ => true | _ => false end.

(** Modelled from the spec: [toRawType] of shared/util, the runtime type
    name of a value. *)
Definition toRawType (v : value) : string :=
  match v with
  | VUndef => "Undefined"
  | VNull => "Null"
  | VBool _ => "Boolean"
  | VNum _ => "Number"
  | VStr _ => "String"
  | VArr _ => "Array"
  | VObj _ _ => "Object"
  | _ => "Function"
  end.

(** Modelled from the spec: [extend] of shared/util, which copies the own
    entries of [from] onto [to] and returns [to].  Every [to] in this file
    is an object created by the caller. *)
Definition extend (to from : value) : value :=
  fold_left (fun o k => assign o k (get from k)) (ownKeys from) to.

Definition isUpper (c : ascii) : bool :=
  let n := nat_of_ascii c in ((65 <=? n) && (n <=? 90))%nat.

Definition isLower (c : ascii) : bool :=
  let n := nat_of_ascii c in ((97 <=? n) && (n <=? 122))%nat.

Definition isLetter (c : ascii) : bool := isUpper c || isLower c.

Definition isDigit (c : ascii) : bool :=
  let n := nat_of_ascii c in ((48 <=? n) && (n <=? 57))%nat.

(** The regular-expression class [\w]. *)
Definition isWordChar (c : ascii) : bool :=
  isLetter c || isDigit c || (nat_of_ascii c =? 95)%nat.

Definition toUpper (c : ascii) : ascii :=
  if isLower c then ascii_of_nat (nat_of_ascii c - 32) else c.

(** Modelled from the spec: [camelize] of shared/util, dash-case to
    camel-case: a dash followed by a word character is dropped and the
    character is upper-cased. *)
Fixpoint camelize (s : string) : string :=
  match s with
  | EmptyString => EmptyString
  | String c rest =>
      if Ascii.eqb c "-" then
        match rest with
        | String d rest' =>
            if isWordChar d then String (toUpper d) (camelize rest')
            else String c (camelize rest)
        | EmptyString => String c EmptyString
        end
      else String c (camelize rest)
  end.

(** Modelled from the spec: [capitalize] of shared/util: the first character
    upper-cased. *)
Definition capitalize (s : string) : string :=
  match s with
  | EmptyString => EmptyString
  | String c rest => String (toUpper c) rest
  end.

(** [s.slice(0, -1)] *)
Fixpoint dropLast (s : string) : string :=
  match s with
  | EmptyString => EmptyString
  | String c EmptyString => EmptyString
  | String c rest => String c (dropLast rest)
  end.

(** ** Effects *)

(** The messages handed to [warn], by kind and with the parts that vary. *)
Inductive warning : Type :=
| WInstanceOnly (key : string)
| WDataNotFunction
| WInvalidComponentName (name : string)
| WReservedComponentName (name : string)
| WPropsMustBeStrings
| WInvalidProps (rawType : string)
| WInvalidInject (rawType : string)
| WNotAnObject (name rawType : string)
| WFailedToResolve (kind id : string).

(** A call to an external collaborator. *)
Inductive event : Type :=
| Warn (w : warning)
| SetCall (key : string) (val : value).

Inductive exn : Type :=
| TypeError
| Thrown (payload : value)
| OutsideModel
| OutOfFuel.

(** [TypeError] is raised by the core's own code, [Thrown] by a function of
    the caller.  [OutsideModel] marks a run that leaves the modelled part of
    the language, [OutOfFuel] a recursion cut short. *)

Inductive outcome (A : Type) : Type :=
| Ok (a : A)
| Throw (e : exn).

Arguments Ok {A} a.
Arguments Throw {A} e.

Definition M (A : Type) : Type := (outcome A * list event)%type.

Definition ret {A} (a : A) : M A := (Ok a, []).

Definition throw {A} (e : exn) : M A := (Throw e, []).

Definition bind {A B} (m : M A) (f : A -> M B) : M B :=
  match m with
  | (Ok a, l) => let (r, l') := f a in (r, l ++ l')
  | (Throw e, l) => (Throw e, l)
  end.

Definition warn (w : warning) : M unit := (Ok tt, [Warn w]).

Definition lift {A} (o : outcome A) : M A := (o, []).

(** The result of a computation and the calls it made. *)
Definition run {A} (m : M A) : outcome A := fst m.

Definition logOf {A} (m : M A) : list event := snd m.

Declare Scope js_scope.
Delimit Scope js_scope with js.
Notation "x <- m ;; k" := (bind m (fun x => k))
  (at level 61, m at next level, right associativity) : js_scope.
Notation "' p <- m ;; k" := (bind m (fun x => match x with p => k end))
  (at level 61, p pattern, m at next level, right associativity) : js_scope.
Notation "m ;; k" := (bind m (fun _ => k))
  (at level 61, right associativity) : js_scope.
Local Open Scope js_scope.

Fixpoint foldM {A S} (f : S -> A -> M S) (xs : list A) (s : S) : M S :=
  match xs with
  | [] => ret s
  | x :: xs' => s' <- f s x ;; foldM f xs' s'
  end.

(** [v[k]] as the program evaluates it: a [TypeError] on [undefined] and
    [null]. *)
Definition getp (v : value) (k : string) : M value :=
  if isNullish v then throw TypeError else ret (get v k).

(** [o[k] = v] on an object of the caller. *)
Definition assignM (o : value) (k : string) (v : value) : M value :=
  if assignable o k then ret (assign o k v)
  else if isNullish o then throw TypeError
  else throw OutsideModel.

(** [a || b] *)
Definition orElse (a b : value) : value := if truthy a then a else b.

(** [Object.create(p)] *)
Definition objectCreate (p : value) : M value :=
  match p with
  | VNull => ret (VObj VNull [])
  | _ => if isObjectLike p then ret (VObj p []) else throw TypeError
  end.

(** The name a value denotes when it is used as a property key. *)
Definition toKey (v : value) : M string :=
  match v with
  | VStr s => ret s
  | VUndef => ret "undefined"
  | VNull => ret "null"
  | VBool true => ret "true"
  | VBool false => ret "false"
  | VNum n => ret (NilEmpty.string_of_int (Z.to_int n))
  | _ => throw OutsideModel
  end.

(** [xs.concat(v)]: an array argument is spread, anything else appended. *)
Definition concatArr (xs : list value) (v : value) : value :=
  match v with
  | VArr ys => VArr (xs ++ ys)
  | _ => VArr (xs ++ [v])
  end.

(** [p.concat(v)] as a method call on an arbitrary truthy [p]. *)
Definition concatM (p v : value) : M value :=
  match p with
  | VArr xs => ret (concatArr xs v)
  | VStr _ => throw OutsideModel
  | VObj _ _ | VFun _ _ =>
      if isUndefined (get p "concat") then throw TypeError else throw OutsideModel
  | _ => throw TypeError
  end.

(** ** The environment of the module *)

(** What options.js imports and does not define: the constant name lists of
    shared/constants, the tag predicates, the platform's native [watch]
    member (the identity of a function, if the platform has one) and the
    behaviour of the functions the caller supplies, each called with its
    [this], which is also its argument. *)
Record Env : Type := mkEnv {
  LIFECYCLE_HOOKS : list string;
  ASSET_TYPES : list string;
  isBuiltInTag : string -> bool;
  isReservedTag : string -> bool;
  nativeWatch : option nat;
  callUser : nat -> value -> outcome value
}.

(** Modelled from the spec: [set] of core/observer, the reactive setter
    [set(target: object, key, value)], which introduces [key] in [target] as
    a new tracked field. *)
Definition set (target : value) (key : string) (val : value) : M value :=
  match target with
  | VObj _ _ | VFun _ _ => (Ok (assign target key val), [SetCall key val])
  | _ => (Throw OutsideModel, [SetCall key val])
  end.

(** ** Sizes, the measure of the recursions *)

Fixpoint size (v : value) : nat :=
  match v with
  | VUndef => 0
  | VArr xs => S (list_sum (map size xs))
  | VObj proto own => S (size proto + list_sum (map (fun kv => size (snd kv)) own))
  | VFun _ own => S (list_sum (map (fun kv => size (snd kv)) own))
  | VMergedDataFn c p => S (size c + size p)
  | VMergedInstanceDataFn c p vm => S (size c + size p + size vm)
  | _ => 1
  end.

(** ** mergeData *)

(** One turn of the loop of [mergeData], with the recursive call [rec]. *)
Definition mergeDataStep (rec : value -> value -> M value) (from : value)
    (to : value) (key : string) : M value :=
  toVal <- getp to key ;;
  let fromVal := get from key in
  if negb (hasOwn to key) then set to key fromVal
  else if isPlainObject toVal && isPlainObject fromVal then
    toVal' <- rec toVal fromVal ;;
    ret (mutateAt to key toVal')
  else ret to.

Fixpoint mergeData_fuel (fuel : nat) (to from : value) : M value :=
  match fuel with
  | O => throw OutOfFuel
  | S fuel' =>
      if negb (truthy from) then ret to
      else foldM (mergeDataStep (mergeData_fuel fuel') from) (ownKeys from) to
  end.

(** The recursion descends into [from], so its size bounds the depth. *)
Definition mergeData (to from : value) : M value :=
  mergeData_fuel (S (size from)) to from.

Section Options.

Variable env : Env.

(** ** Calling a function value *)

Fixpoint call (f this : value) : M value :=
  match f with
  | VFun id _ => lift (callUser env id this)
  | VMergedDataFn childVal parentVal =>
      c <- (if isFunction childVal then call childVal this else ret childVal) ;;
      p <- (if isFunction parentVal then call parentVal this else ret parentVal) ;;
      mergeData c p
  | VMergedInstanceDataFn childVal parentVal vm =>
      instanceData <- (if isFunction childVal then call childVal vm else ret childVal) ;;
      defaultData <- (if isFunction parentVal then call parentVal vm else ret parentVal) ;;
      if truthy instanceData then mergeData instanceData defaultData
      else ret defaultData
  | _ => throw TypeError
  end.

(** ** Strategies *)

Definition strategy : Type := value -> value -> value -> string -> M value.

Definition defaultStrat (parentVal childVal : value) : value :=
  if isUndefined childVal then parentVal else childVal.

(** [strats.el = strats.propsData] *)
Definition restrictedStrat : strategy := fun parent child vm key =>
  (if negb (truthy vm) then warn (WInstanceOnly key) else ret tt) ;;
  ret (defaultStrat parent child).

Definition mergeDataOrFn (parentVal childVal vm : value) : value :=
  if negb (truthy vm) then
    if negb (truthy childVal) then parentVal
    else if negb (truthy parentVal) then childVal
    else VMergedDataFn childVal parentVal
  else VMergedInstanceDataFn childVal parentVal vm.

(** [strats.data] *)
Definition dataStrat : strategy := fun parentVal childVal vm _ =>
  if negb (truthy vm) then
    if truthy childVal && negb (isFunction childVal) then
      warn WDataNotFunction ;; ret parentVal
    else ret (mergeDataOrFn parentVal childVal VUndef)
  else ret (mergeDataOrFn parentVal childVal vm).

(** [strats.provide = mergeDataOrFn] *)
Definition provideStrat : strategy := fun parentVal childVal vm _ =>
  ret (mergeDataOrFn parentVal childVal vm).

Definition mergeHook : strategy := fun parentVal childVal _ _ =>
  if truthy childVal then
    if truthy parentVal then concatM parentVal childVal
    else if isArray childVal then ret childVal
    else ret (VArr [childVal])
  else ret parentVal.

Definition assertObjectType (name : string) (v vm : value) : M unit :=
  if negb (isPlainObject v) then warn (WNotAnObject name (toRawType v))
  else ret tt.

Definition mergeAssets : strategy := fun parentVal childVal vm key =>
  res <- objectCreate (orElse parentVal VNull) ;;
  if truthy childVal then
    assertObjectType key childVal vm ;;
    ret (extend res childVal)
  else ret res.

(** [v === nativeWatch] replaced by [undefined]. *)
Definition dropNativeWatch (v : value) : value :=
  match nativeWatch env, v with
  | Some i, VFun j _ => if Nat.eqb i j then VUndef else v
  | _, _ => v
  end.

(** One turn of the loop of [strats.watch] over the child's watchers. *)
Definition watchStep (childVal : value) (r : value) (key : string) : M value :=
  let parent := get r key in
  let child := get childVal key in
  let parent :=
    if truthy parent && negb (isArray parent) then VArr [parent] else parent in
  v <- (if truthy parent then concatM parent child
        else if isArray child then ret child else ret (VArr [child])) ;;
  ret (assign r key v).

(** [strats.watch] *)
Definition watchStrat : strategy := fun parentVal childVal vm key =>
  let parentVal := dropNativeWatch parentVal in
  let childVal := dropNativeWatch childVal in
  if negb (truthy childVal) then objectCreate (orElse parentVal VNull)
  else
    assertObjectType key childVal vm ;;
    if negb (truthy parentVal) then ret childVal
    else foldM (watchStep childVal) (forin childVal) (extend emptyObject parentVal).

(** [strats.props = strats.methods = strats.inject = strats.computed] *)
Definition objectStrat : strategy := fun parentVal childVal vm key =>
  (if truthy childVal then assertObjectType key childVal vm else ret tt) ;;
  if negb (truthy parentVal) then ret childVal
  else
    let r := extend emptyObject parentVal in
    ret (if truthy childVal then extend r childVal else r).

Definition assetFields : list string :=
  map (fun type => String.append type "s") (ASSET_TYPES env).

(** The registry [strats] once the module is loaded.  A later assignment to
    the same name replaces an earlier one, so the registrations are looked
    up from the last to the first. *)
Definition strats (key : string) : option strategy :=
  if key =? "provide" then Some provideStrat
  else if mem key ["props"; "methods"; "inject"; "computed"] then Some objectStrat
  else if key =? "watch" then Some watchStrat
  else if mem key assetFields then Some mergeAssets
  else if mem key (LIFECYCLE_HOOKS env) then Some mergeHook
  else if key =? "data" then Some dataStrat
  else if mem key ["el"; "propsData"] then Some restrictedStrat
  else None.

(** [strats[key] || defaultStrat] *)
Definition stratFor (key : string) : strategy :=
  match strats key with
  | Some strat => strat
  | None => fun parentVal childVal _ _ => ret (defaultStrat parentVal childVal)
  end.

(** ** Component names *)

Fixpoint allWordOrDash (s : string) : bool :=
  match s with
  | EmptyString => true
  | String c rest => (isWordChar c || Ascii.eqb c "-") && allWordOrDash rest
  end.

(** [/^[a-zA-Z][\w-]*$/.test(name)] *)
Definition validName (name : string) : bool :=
  match name with
  | EmptyString => false
  | String c rest => isLetter c && allWordOrDash rest
  end.

Definition validateComponentName (name : string) : M unit :=
  (if negb (validName name) then warn (WInvalidComponentName name) else ret tt) ;;
  if isBuiltInTag env name || isReservedTag env name
  then warn (WReservedComponentName name)
  else ret tt.

Definition checkComponents (options : value) : M unit :=
  components <- getp options "components" ;;
  foldM (fun _ key => validateComponentName key) (forin components) tt.

(** ** Normalizers *)

(** The elements of an array. *)
Definition elements (v : value) : list value :=
  match v with VArr xs => xs | _ => [] end.

Definition typeOnly (v : value) : value := VObj VNull [("type", v)].

(** The body of the [while (i--)] loop of [normalizeProps]. *)
Definition propsArrayStep (res val : value) : M value :=
  match val with
  | VStr s => ret (assign res (camelize s) (typeOnly VNull))
  | _ => warn WPropsMustBeStrings ;; ret res
  end.

(** The body of the [for (const key in props)] loop of [normalizeProps]. *)
Definition propsObjectStep (props res : value) (key : string) : M value :=
  let val := get props key in
  ret (assign res (camelize key) (if isPlainObject val then val else typeOnly val)).

(** [normalizeProps(options, vm)]; the result is [options] after the call. *)
Definition normalizeProps (options vm : value) : M value :=
  props <- getp options "props" ;;
  if negb (truthy props) then ret options
  else
    res <- (if isArray props then
              foldM propsArrayStep (rev (elements props)) emptyObject
            else if isPlainObject props then
              foldM (propsObjectStep props) (forin props) emptyObject
            else
              warn (WInvalidProps (toRawType props)) ;; ret emptyObject) ;;
    assignM options "props" res.

Definition fromOnly (v : value) : value := VObj VNull [("from", v)].

Definition injectArrayStep (normalized x : value) : M value :=
  k <- toKey x ;;
  ret (assign normalized k (fromOnly x)).

Definition injectObjectStep (inject normalized : value) (key : string) : M value :=
  let val := get inject key in
  ret (assign normalized key
         (if isPlainObject val then extend (fromOnly (VStr key)) val
          else fromOnly val)).

(** [normalizeInject(options, vm)]; the result is [options] after the call. *)
Definition normalizeInject (options vm : value) : M value :=
  inject <- getp options "inject" ;;
  if negb (truthy inject) then ret options
  else
    options <- assignM options "inject" emptyObject ;;
    normalized <- (if isArray inject then
                     foldM injectArrayStep (elements inject) emptyObject
                   else if isPlainObject inject then
                     foldM (injectObjectStep inject) (forin inject) emptyObject
                   else
                     warn (WInvalidInject (toRawType inject)) ;; ret emptyObject) ;;
    ret (mutateAt options "inject" normalized).

Definition directiveStep (dirs : value) (key : string) : M value :=
  let def := get dirs key in
  if isFunction def then
    assignM dirs key (VObj VNull [("bind", def); ("update", def)])
  else ret dirs.

(** [normalizeDirectives(options)]; the result is [options] after the call. *)
Definition normalizeDirectives (options : value) : M value :=
  dirs <- getp options "directives" ;;
  if truthy dirs then
    dirs' <- foldM directiveStep (forin dirs) dirs ;;
    ret (mutateAt options "directives" dirs')
  else ret options.

(** ** mergeOptions *)

(** What the closure [mergeField] sees: the variables [parent], [child] and
    [options] of the enclosing call. *)
Record scope : Type := mkScope {
  sc_parent : value;
  sc_child : value;
  sc_options : value
}.

Definition mergeField (vm : value) (st : scope) (key : string) : M scope :=
  parentVal <- getp (sc_parent st) key ;;
  childVal <- getp (sc_child st) key ;;
  merged <- stratFor key parentVal childVal vm key ;;
  ret (mkScope (sc_parent st) (sc_child st) (assign (sc_options st) key merged)).

(** The two [for ... in] loops that end [mergeOptions], started on
    [options = {}]. *)
Definition mergePass (parent child vm : value) : M scope :=
  st <- foldM (mergeField vm) (forin parent) (mkScope parent child emptyObject) ;;
  foldM (fun st key =>
           if negb (hasOwn (sc_parent st) key) then mergeField vm st key
           else ret st)
        (forin child) st.

Definition mergeFields (parent child vm : value) : M value :=
  st <- mergePass parent child vm ;;
  ret (sc_options st).

(** One turn of the loop over [child.mixins]; [done] collects the mixins
    already merged, in their state after the merge. *)
Definition mixinStep (rec : value -> value -> M (value * value))
    (acc : value * list value) (mixin : value) : M (value * list value) :=
  let (parent, done) := acc in
  '(merged, mixin') <- rec parent mixin ;;
  ret (merged, done ++ [mixin']).

(** [mergeOptions(parent, child, vm)].  The first component of the result is
    the value returned, the second is [child] after the call: the
    normalizers rewrite it, and so do the nested calls on what it extends
    and mixes in. *)
Fixpoint mergeOptions_fuel (fuel : nat) (parent child vm : value)
    : M (value * value) :=
  match fuel with
  | O => throw OutOfFuel
  | S fuel' =>
      checkComponents child ;;
      opts <- (if isFunction child then getp child "options" else ret child) ;;
      opts <- normalizeProps opts vm ;;
      opts <- normalizeInject opts vm ;;
      opts <- normalizeDirectives opts ;;
      extendsFrom <- getp opts "extends" ;;
      '(parent, opts) <-
        (if truthy extendsFrom then
           '(merged, e) <- mergeOptions_fuel fuel' parent extendsFrom vm ;;
           ret (merged, mutateAt opts "extends" e)
         else ret (parent, opts)) ;;
      mixins <- getp opts "mixins" ;;
      '(parent, opts) <-
        (if truthy mixins then
           if isArray mixins then
             '(merged, ms) <-
               foldM (mixinStep (fun p m => mergeOptions_fuel fuel' p m vm))
                     (elements mixins) (parent, []) ;;
             ret (merged, mutateAt opts "mixins" (VArr ms))
           else throw OutsideModel
         else ret (parent, opts)) ;;
      options <- mergeFields parent opts vm ;;
      ret (options, if isFunction child then mutateAt child "options" opts else opts)
  end.

(** The recursion descends into [child], so its size bounds the depth. *)
Definition mergeOptions (parent child vm : value) : M (value * value) :=
  mergeOptions_fuel (S (size child)) parent child vm.

(** ** resolveAsset *)

Definition resolveAsset (options : value) (type : string) (id : value)
    (warnMissing : bool) : M value :=
  match id with
  | VStr id =>
      assets <- getp options type ;;
      if hasOwn assets id then getp assets id
      else
        let camelizedId := camelize id in
        if hasOwn assets camelizedId then getp assets camelizedId
        else
          let PascalCaseId := capitalize camelizedId in
          if hasOwn assets PascalCaseId then getp assets PascalCaseId
          else
            byId <- getp assets id ;;
            res <- (if truthy byId then ret byId
                    else
                      byCamel <- getp assets camelizedId ;;
                      if truthy byCamel then ret byCamel
                      else getp assets PascalCaseId) ;;
            (if warnMissing && negb (truthy res)
             then warn (WFailedToResolve (dropLast type) id)
             else ret tt) ;;
            ret res
  | _ => ret VUndef
  end.

End Options.

(** ** A concrete environment *)

(** The names the header comment of options.js lists for the registry, the
    built-in tags [slot] and [component], no reserved tag, no native
    [watch]; the caller's functions are: function 0 returns nothing,
    function 1 throws [1], any other returns the object [{a: 1}]. *)
Definition vueEnv : Env := {|
  LIFECYCLE_HOOKS :=
    ["beforeCreate"; "created"; "beforeMount"; "mounted"; "beforeUpdate";
     "updated"; "destroyed"; "activated"; "deactivated"; "errorCaptured"];
  ASSET_TYPES := ["component"; "directive"; "filter"];
  isBuiltInTag := fun name => mem name ["slot"; "component"];
  isReservedTag := fun _ => false;
  nativeWatch := None;
  callUser := fun id _ =>
    match id with
    | 0 => Ok VUndef
    | 1 => Throw (Thrown (VNum 1))
    | _ => Ok (VObj VNull [("a", VNum 1)])
    end
|}.

(** ** Lifecycle-hook fields *)

(** The names registered after the hooks, which replace a hook strategy of
    the same name. *)
Definition shadowsHook (env : Env) : list string :=
  ["provide"; "props"; "methods"; "inject"; "computed"; "watch"] ++ assetFields env.

(** The names [mergeOptions] itself reads in [child]. *)
Definition structuralFields : list string :=
  ["components"; "props"; "inject"; "directives"; "extends"; "mixins"].

(** [h] is a lifecycle-hook field: registered from [LIFECYCLE_HOOKS], not
    replaced by a later registration, and not a name [mergeOptions] gives a
    meaning of its own. *)
Definition hookField (env : Env) (h : string) : bool :=
  mem h (LIFECYCLE_HOOKS env) && negb (mem h (shadowsHook env))
  && negb (mem h structuralFields).

(** ** The elements of a [props] sequence *)

(** The string elements, in order. *)
Definition stringsOf (xs : list value) : list string :=
  flat_map (fun v => match v with VStr s => [s] | _ => [] end) xs.

(** The elements that are not strings. *)
Definition nonStrings (xs : list value) : list value :=
  filter (fun v => negb (isString v)) xs.

(** ** What mergeData does to one key *)

(** The own property [mergeData] leaves under [key], a key of [from], in a
    destination whose own properties were [own]. *)
Definition mergedEntry (from : value) (own : fields) (key : string) : option value :=
  match assoc key own with
  | None => Some (get from key)
  | Some toVal =>
      if isPlainObject toVal && isPlainObject (get from key) then
        match run (mergeData toVal (get from key)) with
        | Ok merged => Some merged
        | Throw _ => Some toVal
        end
      else Some toVal
  end.

(** The calls to the collaborators made for [key]. *)
Definition mergeEvents (from : value) (own : fields) (key : string) : list event :=
  match assoc key own with
  | None => [SetCall key (get from key)]
  | Some toVal =>
      if isPlainObject toVal && isPlainObject (get from key)
      then logOf (mergeData toVal (get from key))
      else []
  end.

(** The own properties of an object. *)
Definition ownFields (v : value) : fields :=
  match v with
  | VObj _ own => own
  | VFun _ own => own
  | _ => []
  end.

(** ** Producers and paths into data objects *)

(** One side of a data merge evaluated: called if it is a function, taken
    as it is otherwise. *)
Definition produce (env : Env) (side this : value) : M value :=
  if isFunction side then call env side this else ret side.


(** ** The field-merging pass *)

(** The names on which the two loops that end [mergeOptions] call
    [mergeField], in the order of the calls. *)
Definition mergeFieldCalls (parent child : value) : list string :=
  forin parent ++ filter (fun key => negb (hasOwn parent key)) (forin child).

(** ** Configuration objects *)

(** A plain object whose prototype chain holds plain objects only, so that
    every field it shows is an enumerable one. *)
Fixpoint isRecord (v : value) : bool :=
  match v with
  | VObj proto _ =>
      match proto with
      | VNull => true
      | _ => isRecord proto
      end
  | _ => false
  end.

(** The first value that is not [undefined]. *)
Fixpoint firstDefined (vs : list value) : value :=
  match vs with
  | [] => VUndef
  | v :: rest => if isUndefined v then firstDefined rest else v
  end.

(** An ancestor with no ancestors of its own. *)
Definition leafConfig (v : value) : bool :=
  isRecord v && negb (truthy (get v "extends")) && negb (truthy (get v "mixins")).

(** The fields of a configuration that a merge may rewrite in place. *)
Definition normalizedFields : list string := ["props"; "inject"; "directives"].

(** ** A worked example of inheritance *)

Definition exP : value := VObj VNull [("f", VNum 1); ("g", VNum 1); ("p", VNum 0)].
Definition exE : value := VObj VNull [("f", VNum 2); ("h", VNum 2)].
Definition exM1 : value := VObj VNull [("f", VNum 3)].
Definition exM2 : value := VObj VNull [("g", VNum 4)].
Definition exC : value :=
  VObj VNull [("extends", exE); ("mixins", VArr [exM1; exM2]); ("k", VNum 5)].

(** [mergeOptions(exP, exC)] *)
Definition exMerged : value :=
  VObj VNull
    [("f", VNum 3); ("g", VNum 4); ("p", VNum 0); ("h", VNum 2);
     ("extends", exE); ("mixins", VArr [exM1; exM2]); ("k", VNum 5)].

(** ** Shapes on which a merge completes *)

(** The kind of strategy registered under a name. *)
Inductive stratKind : Type :=
| KProvide | KObject | KWatch | KAsset | KHook | KData | KRestricted | KDefault.

Definition kindOf (env : Env) (key : string) : stratKind :=
  if key =? "provide" then KProvide
  else if mem key ["props"; "methods"; "inject"; "computed"] then KObject
  else if key =? "watch" then KWatch
  else if mem key (assetFields env) then KAsset
  else if mem key (LIFECYCLE_HOOKS env) then KHook
  else if key =? "data" then KData
  else if mem key ["el"; "propsData"] then KRestricted
  else KDefault.

(** What a parent may hold under a name of a given kind: a sequence of
    hooks, or nothing, under a hook name; an object, or nothing, under an
    asset category and under [watch]. *)
Definition fieldOK (kind : stratKind) (v : value) : bool :=
  match kind with
  | KHook => negb (truthy v) || isArray v
  | KAsset | KWatch => negb (truthy v) || isObjectLike v
  | _ => true
  end.

Definition goodParent (env : Env) (parent : value) : bool :=
  isRecord parent
  && forallb (fun key => fieldOK (kindOf env key) (get parent key)) (forin parent).

(** A value usable as a property name. *)
Definition keyable (v : value) : bool := negb (isObjectLike v).

Definition injectOK (inject : value) : bool :=
  forallb keyable (elements inject).

Definition directivesOK (dirs : value) : bool :=
  negb (truthy dirs) || isPlainObject dirs.

Definition watchOK (watch : value) : bool :=
  negb (truthy watch) || isObjectLike watch.

(** A child on which [mergeOptions] completes: a value other than
    [undefined] and [null], or a constructor carrying such [options], whose
    [inject] names are primitive, whose [directives] is a plain object or
    absent, whose [watch] is an object or absent, whose [mixins] is an
    array or absent, and whose [extends] and [mixins] entries are such
    children themselves.  The fuel bounds the depth of the inspection. *)
Fixpoint goodChild_fuel (fuel : nat) (child : value) : bool :=
  match fuel with
  | O => false
  | S fuel' =>
      let opts := if isFunction child then get child "options" else child in
      negb (isNullish opts)
      && injectOK (get opts "inject")
      && directivesOK (get opts "directives")
      && watchOK (get opts "watch")
      && (if truthy (get opts "extends")
          then goodChild_fuel fuel' (get opts "extends") else true)
      && (if truthy (get opts "mixins")
          then isArray (get opts "mixins")
               && forallb (goodChild_fuel fuel') (elements (get opts "mixins"))
          else true)
  end.

Definition goodChild (child : value) : bool :=
  goodChild_fuel (S (size child)) child.

(** Every call in a log is a warning. *)
Definition isWarning (e : event) : bool :=
  match e with Warn _ => true | SetCall _ _ => false end.

Definition warningsOnly (log : list event) : bool := forallb isWarning log.

(** [m] returns a value satisfying [Q], and all it did besides was warn. *)
Definition completes {A} (m : M A) (Q : A -> Prop) : Prop :=
  exists a l, m = (Ok a, l) /\ warningsOnly l = true /\ Q a.

(** [m] does not stop for want of fuel. *)
Definition fuelSafe {A} (m : M A) : Prop :=
  forall l, m <> (Throw OutOfFuel, l).

(** ** Shapes and values used by the further properties *)

(** A plain object without prototype, as an object literal is: all its
    enumerable properties are its own. *)
Definition bare (v : value) : bool :=
  match v with VObj VNull _ => true | _ => false end.

(** What the strategy for [key] reports when [mergeField] calls it. *)
Definition stratLog (env : Env) (parent child vm : value) (key : string)
    : list event :=
  logOf (stratFor env key (get parent key) (get child key) vm key).

(** A hook or watcher entry as a sequence: itself when it is one, the
    one-element sequence holding it otherwise. *)
Definition asList (v : value) : list value :=
  match v with VArr xs => xs | _ => [v] end.

(** The entry [strats.watch] stores under a name the child watches. *)
Definition mergedWatchers (parent child : value) : value :=
  VArr ((if truthy parent then asList parent else []) ++ asList child).

(** The value [mergeHook] returns for a parent value that is a sequence or
    absent. *)
Definition mergeHookValue (a b : value) : value :=
  if truthy b then VArr ((if truthy a then asList a else []) ++ asList b) else a.

(** The hooks a value contributes: none when it is falsy. *)
Definition hooksOf (v : value) : list value :=
  if truthy v then asList v else [].

(** A [data] value that is a function or absent. *)
Definition producerOrAbsent (v : value) : bool := negb (truthy v) || isFunction v.

(** The warnings [validateComponentName] issues for a name. *)
Definition nameWarnings (env : Env) (name : string) : list event :=
  (if validName name then [] else [Warn (WInvalidComponentName name)])
  ++ (if isBuiltInTag env name || isReservedTag env name
      then [Warn (WReservedComponentName name)] else []).

(** The object form of a directive definition. *)
Definition expandDirective (def : value) : value :=
  if isFunction def then VObj VNull [("bind", def); ("update", def)] else def.

(** [to] already holds what merging [from] into it would bring: it owns
    every own key of [from], and so do, one level down, the plain objects
    the two hold under the same key.  The fuel bounds the depth of the
    inspection. *)
Fixpoint absorbs_fuel (fuel : nat) (to from : value) : bool :=
  match fuel with
  | O => false
  | S fuel' =>
      negb (truthy from)
      || (isPlainObject to
          && forallb (fun key =>
                        hasOwn to key
                        && (if isPlainObject (get to key) && isPlainObject (get from key)
                            then absorbs_fuel fuel' (get to key) (get from key)
                            else true))
                     (ownKeys from))
  end.

(** What an entry of the child's registry for the category [type] reads as
    once [mergeOptions] has normalized the child: a function directive in
    its object form, any other entry as the child gave it. *)
Definition registryEntry (type : string) (v : value) : value :=
  if type =? "directives" then expandDirective v else v.
(** * Properties *)

(** ** The effect monad *)

Lemma bind_ret {A B} (a : A) (f : A -> M B) : bind (ret a) f = f a.
Proof. unfold bind, ret. destruct (f a); reflexivity. Qed.

Lemma bind_ok {A B} (m : M A) (f : A -> M B) a l r l' :
  m = (Ok a, l) -> f a = (r, l') -> bind m f = (r, l ++ l').
Proof. intros -> H. unfold bind. rewrite H. reflexivity. Qed.

Lemma bind_throw {A B} (m : M A) (f : A -> M B) e l :
  m = (Throw e, l) -> bind m f = (Throw e, l).
Proof. intros ->. reflexivity. Qed.

Lemma bind_inv {A B} (m : M A) (f : A -> M B) b l :
  bind m f = (Ok b, l) ->
  exists a l1 l2, m = (Ok a, l1) /\ f a = (Ok b, l2) /\ l = l1 ++ l2.
Proof.
  unfold bind. destruct m as [[a | e] l1]; [| discriminate].
  destruct (f a) as [r l2] eqn:E. intros H. inversion H; subst.
  exists a, l1, l2. auto.
Qed.

Lemma run_bind {A B} (m : M A) (f : A -> M B) :
  run (bind m f) =
  match run m with
  | Ok a => run (f a)
  | Throw e => Throw e
  end.
Proof.
  unfold run, bind. destruct m as [[a | e] l]; simpl; [| reflexivity].
  destruct (f a); reflexivity.
Qed.

Lemma foldM_app {A S} (f : S -> A -> M S) xs ys s :
  foldM f (xs ++ ys) s = bind (foldM f xs s) (foldM f ys).
Proof.
  revert s. induction xs as [| x xs IH]; intros s; cbn [foldM app].
  - rewrite bind_ret. reflexivity.
  - unfold bind at 1 3. destruct (f s x) as [[s' | e] l]; [| reflexivity].
    rewrite IH. unfold bind.
    destruct (foldM f xs s') as [[s'' | e] l']; [| reflexivity].
    destruct (foldM f ys s''). rewrite app_assoc. reflexivity.
Qed.

(** A loop whose body cannot fail is a left fold. *)
Lemma foldM_pure {A S} (f : S -> A -> M S) (g : S -> A -> S) xs s :
  (forall s x, f s x = ret (g s x)) -> foldM f xs s = ret (fold_left g xs s).
Proof.
  intros H. revert s. induction xs as [| x xs IH]; intros s; cbn [foldM fold_left].
  - reflexivity.
  - rewrite H, bind_ret. apply IH.
Qed.

(** ** Names and association lists *)

Lemma mem_In k l : mem k l = true <-> In k l.
Proof.
  unfold mem. rewrite existsb_exists. split.
  - intros [x [Hx E]]. apply String.eqb_eq in E. subst. exact Hx.
  - intros H. exists k. split; [exact H | apply String.eqb_refl].
Qed.

Lemma mem_not_In k l : mem k l = false <-> ~ In k l.
Proof.
  rewrite <- mem_In. destruct (mem k l); split; intros H; congruence.
Qed.

Lemma assoc_None k l : assoc k l = None <-> ~ In k (keys l).
Proof.
  induction l as [| [k' v] l IH]; simpl.
  - tauto.
  - destruct (String.eqb_spec k' k) as [-> | N].
    + split; [discriminate | intros H; exfalso; apply H; auto].
    + rewrite IH. tauto.
Qed.

Lemma assoc_mem k l : mem k (keys l) = false -> assoc k l = None.
Proof. intros H. apply assoc_None, mem_not_In, H. Qed.

Lemma assoc_Some_mem k l v : assoc k l = Some v -> mem k (keys l) = true.
Proof.
  intros H. destruct (mem k (keys l)) eqn:E; [reflexivity |].
  apply assoc_mem in E. congruence.
Qed.

Lemma assoc_put_same k v l : assoc k (put l k v) = Some v.
Proof.
  induction l as [| [k' v'] l IH]; simpl.
  - rewrite String.eqb_refl. reflexivity.
  - destruct (String.eqb_spec k' k) as [-> | N]; simpl.
    + rewrite String.eqb_refl. reflexivity.
    + destruct (String.eqb_spec k' k); [contradiction | exact IH].
Qed.

Lemma assoc_put_other k k' v l : k <> k' -> assoc k' (put l k v) = assoc k' l.
Proof.
  intros N. induction l as [| [k0 v0] l IH]; simpl.
  - destruct (String.eqb_spec k k'); [contradiction | reflexivity].
  - destruct (String.eqb_spec k0 k) as [-> | N0]; simpl.
    + destruct (String.eqb_spec k k'); [contradiction | reflexivity].
    + rewrite IH. reflexivity.
Qed.

Lemma keys_put_in k v l : In k (keys l) -> keys (put l k v) = keys l.
Proof.
  induction l as [| [k0 v0] l IH]; simpl; intros H.
  - contradiction.
  - destruct (String.eqb_spec k0 k) as [-> | N]; simpl.
    + reflexivity.
    + f_equal. apply IH. destruct H; [contradiction | assumption].
Qed.

Lemma keys_put_new k v l : ~ In k (keys l) -> keys (put l k v) = keys l ++ [k].
Proof.
  induction l as [| [k0 v0] l IH]; simpl; intros H.
  - reflexivity.
  - destruct (String.eqb_spec k0 k) as [-> | N]; simpl.
    + exfalso. apply H. auto.
    + f_equal. apply IH. intros H'. apply H. auto.
Qed.

Lemma In_keys_put k k' v l : In k' (keys (put l k v)) <-> k' = k \/ In k' (keys l).
Proof.
  destruct (in_dec string_dec k (keys l)) as [I | N].
  - rewrite keys_put_in by assumption. split; [auto |].
    intros [-> | H]; assumption.
  - rewrite keys_put_new by assumption. rewrite in_app_iff. simpl.
    split; intros H; intuition (subst; auto).
Qed.

(** ** Reading what was written *)

Lemma get_assign_obj_same proto own k v : get (assign (VObj proto own) k v) k = v.
Proof. simpl. rewrite assoc_put_same. reflexivity. Qed.

Lemma get_assign_obj_other proto own k k' v :
  k <> k' -> get (assign (VObj proto own) k v) k' = get (VObj proto own) k'.
Proof. intros N. simpl. rewrite assoc_put_other by assumption. reflexivity. Qed.

Lemma assign_obj_shape proto own k v :
  exists own', assign (VObj proto own) k v = VObj proto own'.
Proof. eexists. reflexivity. Qed.

(** ** The provide strategy against the data strategy *)

Lemma strats_provide env : strats env "provide" = Some provideStrat.
Proof. reflexivity. Qed.

Lemma strats_data env :
  mem "data" (LIFECYCLE_HOOKS env) = false ->
  mem "data" (assetFields env) = false ->
  strats env "data" = Some dataStrat.
Proof. intros H1 H2. unfold strats. cbn. rewrite H1, H2. reflexivity. Qed.

Lemma mergeDataOrFn_no_vm parentVal childVal vm :
  truthy vm = false ->
  mergeDataOrFn parentVal childVal vm = mergeDataOrFn parentVal childVal VUndef.
Proof. intros H. unfold mergeDataOrFn. rewrite H. reflexivity. Qed.

(** C5.  The strategy registered for [provide] is
    [mergeDataOrFn].  It returns what the [data] strategy returns whenever
    an instance context is present, or the child value is falsy, or the
    child value is a function.  Without an instance context and with a
    truthy child value that is not a function the two differ: [data] warns
    and returns the parent value, [provide] does not warn and returns
    [mergeDataOrFn(parentVal, childVal)]. *)
Theorem provide_strategy_vs_data env parentVal childVal vm :
  mem "data" (LIFECYCLE_HOOKS env) = false ->
  mem "data" (assetFields env) = false ->
  (truthy vm = true \/ truthy childVal = false \/ isFunction childVal = true ->
   stratFor env "provide" parentVal childVal vm "provide"
   = stratFor env "data" parentVal childVal vm "data")
  /\
  (truthy vm = false -> truthy childVal = true -> isFunction childVal = false ->
   stratFor env "data" parentVal childVal vm "data"
   = (Ok parentVal, [Warn WDataNotFunction])
   /\ stratFor env "provide" parentVal childVal vm "provide"
      = (Ok (mergeDataOrFn parentVal childVal vm), [])).
Proof.
  intros H1 H2. unfold stratFor. rewrite strats_provide, (strats_data env H1 H2).
  unfold provideStrat, dataStrat. split.
  - intros [Hvm | [Hc | Hf]].
    + rewrite Hvm. reflexivity.
    + rewrite Hc. cbn [andb negb]. destruct (truthy vm) eqn:Hvm; cbn [negb].
      * reflexivity.
      * rewrite (mergeDataOrFn_no_vm _ _ _ Hvm). reflexivity.
    + rewrite Hf. rewrite andb_false_r. destruct (truthy vm) eqn:Hvm; cbn [negb].
      * reflexivity.
      * rewrite (mergeDataOrFn_no_vm _ _ _ Hvm). reflexivity.
  - intros Hvm Hc Hf. rewrite Hvm, Hc, Hf. split; reflexivity.
Qed.

Lemma provide_strategy_vs_data_witness :
  stratFor vueEnv "provide" VNull (VFun 2 []) VUndef "provide"
  = stratFor vueEnv "data" VNull (VFun 2 []) VUndef "data".
Proof.
  apply (proj1 (provide_strategy_vs_data vueEnv VNull (VFun 2 []) VUndef
                  eq_refl eq_refl)).
  right. right. reflexivity.
Defined.

(** Without an instance, an object as child value: [data] discards it with a
    warning, [provide] returns it. *)
Lemma provide_differs_from_data :
  stratFor vueEnv "data" VUndef (VObj VNull [("a", VNum 1)]) VUndef "data"
  = (Ok VUndef, [Warn WDataNotFunction])
  /\ stratFor vueEnv "provide" VUndef (VObj VNull [("a", VNum 1)]) VUndef "provide"
     = (Ok (VObj VNull [("a", VNum 1)]), [])
  /\ ~ (forall parentVal childVal vm,
          stratFor vueEnv "provide" parentVal childVal vm "provide"
          = stratFor vueEnv "data" parentVal childVal vm "data").
Proof.
  split; [reflexivity |]. split; [reflexivity |].
  intros H. specialize (H VUndef (VObj VNull [("a", VNum 1)]) VUndef).
  discriminate H.
Qed.

Lemma mem_app k l1 l2 : mem k (l1 ++ l2) = mem k l1 || mem k l2.
Proof. apply existsb_app. Qed.

Ltac split_orb_false :=
  repeat match goal with
         | H : (_ || _) = false |- _ => apply orb_false_elim in H as [? ?]
         | H : negb _ = true |- _ => apply negb_true_iff in H
         | H : (_ && _) = true |- _ => apply andb_prop in H as [? ?]
         end.

Ltac rewrite_eqbs :=
  repeat match goal with
         | H : (?a =? ?b) = false |- _ => rewrite H in *; clear H
         | H : mem ?a ?l = _ |- _ => rewrite H in *; clear H
         end.

(** ** Unfolding [mergeOptions] *)

Lemma getp_ok v k : isNullish v = false -> getp v k = ret (get v k).
Proof. unfold getp. intros ->. reflexivity. Qed.

Lemma checkComponents_none env options :
  isNullish options = false -> forin (get options "components") = [] ->
  checkComponents env options = ret tt.
Proof.
  intros H E. unfold checkComponents. rewrite getp_ok, bind_ret, E by assumption.
  reflexivity.
Qed.

Lemma normalizeProps_absent options vm :
  isNullish options = false -> truthy (get options "props") = false ->
  normalizeProps options vm = ret options.
Proof.
  intros H E. unfold normalizeProps. rewrite getp_ok, bind_ret, E by assumption.
  reflexivity.
Qed.

Lemma normalizeInject_absent options vm :
  isNullish options = false -> truthy (get options "inject") = false ->
  normalizeInject options vm = ret options.
Proof.
  intros H E. unfold normalizeInject. rewrite getp_ok, bind_ret, E by assumption.
  reflexivity.
Qed.

Lemma normalizeDirectives_absent options :
  isNullish options = false -> truthy (get options "directives") = false ->
  normalizeDirectives options = ret options.
Proof.
  intros H E. unfold normalizeDirectives. rewrite getp_ok, bind_ret, E by assumption.
  reflexivity.
Qed.

Lemma mergeOptions_fuel_S env fuel parent child vm :
  mergeOptions_fuel env (S fuel) parent child vm =
  (checkComponents env child ;;
   opts <- (if isFunction child then getp child "options" else ret child) ;;
   opts <- normalizeProps opts vm ;;
   opts <- normalizeInject opts vm ;;
   opts <- normalizeDirectives opts ;;
   extendsFrom <- getp opts "extends" ;;
   '(parent, opts) <-
     (if truthy extendsFrom then
        '(merged, e) <- mergeOptions_fuel env fuel parent extendsFrom vm ;;
        ret (merged, mutateAt opts "extends" e)
      else ret (parent, opts)) ;;
   mixins <- getp opts "mixins" ;;
   '(parent, opts) <-
     (if truthy mixins then
        if isArray mixins then
          '(merged, ms) <-
            foldM (mixinStep (fun p m => mergeOptions_fuel env fuel p m vm))
                  (elements mixins) (parent, []) ;;
          ret (merged, mutateAt opts "mixins" (VArr ms))
        else throw OutsideModel
      else ret (parent, opts)) ;;
   options <- mergeFields env parent opts vm ;;
   ret (options, if isFunction child then mutateAt child "options" opts else opts)).
Proof. reflexivity. Qed.

(** A child that is not a function and holds nothing under the names
    [mergeOptions] reads: the call is the field-merging pass. *)
Definition plainChild (child : value) : Prop :=
  isNullish child = false /\ isFunction child = false
  /\ forall k, In k structuralFields -> get child k = VUndef.

Lemma mergeOptions_fuel_plain env fuel parent child vm :
  plainChild child ->
  mergeOptions_fuel env (S fuel) parent child vm =
  (options <- mergeFields env parent child vm ;; ret (options, child)).
Proof.
  intros (Hn & Hf & Hk). rewrite mergeOptions_fuel_S, Hf.
  assert (G : forall k, In k structuralFields -> truthy (get child k) = false).
  { intros k I. rewrite Hk by assumption. reflexivity. }
  rewrite checkComponents_none, bind_ret by
    (try assumption; rewrite Hk by (cbn; tauto); reflexivity).
  rewrite bind_ret.
  rewrite normalizeProps_absent, bind_ret by (try assumption; apply G; cbn; tauto).
  rewrite normalizeInject_absent, bind_ret by (try assumption; apply G; cbn; tauto).
  rewrite normalizeDirectives_absent, bind_ret by (try assumption; apply G; cbn; tauto).
  rewrite getp_ok, bind_ret, G by (try assumption; cbn; tauto).
  rewrite bind_ret.
  rewrite getp_ok, bind_ret, G by (try assumption; cbn; tauto).
  rewrite bind_ret. reflexivity.
Qed.

Lemma get_single h v k : h <> k -> get (VObj VNull [(h, v)]) k = VUndef.
Proof.
  intros N. simpl. destruct (String.eqb_spec h k); [contradiction | reflexivity].
Qed.

Lemma hookField_strat env h : hookField env h = true -> strats env h = Some mergeHook.
Proof.
  unfold hookField, shadowsHook. intros H. rewrite mem_app in H.
  cbn [mem existsb] in H. split_orb_false.
  unfold strats. cbn [mem existsb]. rewrite_eqbs. reflexivity.
Qed.

Lemma hookField_structural env h k :
  hookField env h = true -> In k structuralFields -> h <> k.
Proof.
  unfold hookField. intros H I E. subst k. split_orb_false.
  apply mem_In in I. congruence.
Qed.

Lemma mergeOptions_hook_lists env h a b vm :
  hookField env h = true ->
  mergeOptions env (VObj VNull [(h, VArr [a])]) (VObj VNull [(h, VArr [b])]) vm
  = (Ok (VObj VNull [(h, VArr [a; b])], VObj VNull [(h, VArr [b])]), []).
Proof.
  intros H. unfold mergeOptions. rewrite mergeOptions_fuel_plain.
  2:{ repeat split. intros k I. apply get_single. eapply hookField_structural; eauto. }
  unfold mergeFields, mergePass.
  cbn [forin keys map fst app dedup filter foldM].
  unfold mergeField. cbn [sc_parent sc_child sc_options getp isNullish get assoc].
  rewrite String.eqb_refl. rewrite !bind_ret.
  unfold stratFor. rewrite (hookField_strat _ _ H).
  cbn [mergeHook truthy concatM concatArr app]. rewrite !bind_ret.
  cbn [sc_parent hasOwn keys map fst mem existsb]. rewrite String.eqb_refl.
  cbn [orb negb]. rewrite !bind_ret. cbn [sc_options assign emptyObject put].
  reflexivity.
Qed.

(** C6.  For every lifecycle-hook field name [h]: the strategy registered
    for [h] is [mergeHook]; merging [{h: [a]}] with [{h: [b]}] yields
    [{h: [a, b]}], parent's hook first; [mergeHook] concatenates the
    parent's sequence then the child's; a lone child function is appended as
    if it were the one-element sequence holding it, and becomes that
    sequence when the parent has none; an absent child returns the parent's
    value unchanged. *)
Theorem lifecycle_hooks_parent_first env h :
  hookField env h = true ->
  stratFor env h = mergeHook
  /\ (forall a b vm,
        mergeOptions env (VObj VNull [(h, VArr [a])]) (VObj VNull [(h, VArr [b])]) vm
        = (Ok (VObj VNull [(h, VArr [a; b])], VObj VNull [(h, VArr [b])]), []))
  /\ (forall ps cs vm key,
        mergeHook (VArr ps) (VArr cs) vm key = ret (VArr (ps ++ cs)))
  /\ (forall ps f vm key, isFunction f = true ->
        mergeHook (VArr ps) f vm key = ret (VArr (ps ++ [f]))
        /\ mergeHook (VArr ps) f vm key = mergeHook (VArr ps) (VArr [f]) vm key)
  /\ (forall p f vm key, isFunction f = true -> truthy p = false ->
        mergeHook p f vm key = ret (VArr [f]))
  /\ (forall p c vm key, truthy c = false -> mergeHook p c vm key = ret p).
Proof.
  intros H. split; [| split; [| split; [| split; [| split]]]].
  - unfold stratFor. rewrite (hookField_strat _ _ H). reflexivity.
  - intros. apply mergeOptions_hook_lists, H.
  - reflexivity.
  - intros ps f vm key Hf. destruct f; try discriminate; split; reflexivity.
  - intros p f vm key Hf Hp. unfold mergeHook. rewrite Hp.
    destruct f; try discriminate; reflexivity.
  - intros p c vm key Hc. unfold mergeHook. rewrite Hc. reflexivity.
Qed.

Lemma lifecycle_hooks_parent_first_witness :
  mergeOptions vueEnv (VObj VNull [("created", VArr [VFun 3 []])])
    (VObj VNull [("created", VArr [VFun 4 []])]) VUndef
  = (Ok (VObj VNull [("created", VArr [VFun 3 []; VFun 4 []])],
         VObj VNull [("created", VArr [VFun 4 []])]), []).
Proof.
  apply (proj1 (proj2 (lifecycle_hooks_parent_first vueEnv "created" eq_refl))).
Defined.

(** ** resolveAsset *)

Lemma hasOwn_not_nullish v k : hasOwn v k = true -> isNullish v = false.
Proof. destruct v; simpl; congruence. Qed.

(** No own property under any of the three spellings: the prototype chain
    decides, and a falsy outcome is warned about on request. *)
Lemma resolveAsset_fallback options type id warnMissing :
  let assets := get options type in
  let camelizedId := camelize id in
  let PascalCaseId := capitalize camelizedId in
  isNullish options = false -> isNullish assets = false ->
  hasOwn assets id = false -> hasOwn assets camelizedId = false ->
  hasOwn assets PascalCaseId = false ->
  let res := orElse (get assets id)
               (orElse (get assets camelizedId) (get assets PascalCaseId)) in
  resolveAsset options type (VStr id) warnMissing
  = (Ok res,
     if warnMissing && negb (truthy res)
     then [Warn (WFailedToResolve (dropLast type) id)] else []).
Proof.
  intros assets camelizedId PascalCaseId Hopt Hn H1 H2 H3. cbv zeta.
  unfold resolveAsset. rewrite getp_ok, bind_ret by assumption.
  fold assets camelizedId PascalCaseId. rewrite H1, H2, H3.
  rewrite !getp_ok by assumption. rewrite bind_ret.
  unfold orElse.
  destruct (truthy (get assets id)) eqn:T1.
  - rewrite bind_ret, T1, andb_false_r. reflexivity.
  - rewrite bind_ret.
    destruct (truthy (get assets camelizedId)) eqn:T2.
    + rewrite bind_ret, T2, andb_false_r. reflexivity.
    + rewrite bind_ret.
      destruct (truthy (get assets PascalCaseId)) eqn:T3;
        destruct warnMissing; reflexivity.
Qed.

(** C1.  [resolveAsset] first looks for an own property of the
    registry under the exact name, then the camel-cased name, then the
    capitalized camel-cased name, and returns the first one it has; when
    the registry owns none of the three, it returns the first truthy value
    among the own-or-inherited properties under the same three spellings in
    the same order (the last one when none is truthy), which are then the
    properties of the registry's prototype, and warns on request when that
    value is falsy. *)
Theorem resolveAsset_order options type id warnMissing :
  let assets := get options type in
  let camelizedId := camelize id in
  let PascalCaseId := capitalize camelizedId in
  isNullish options = false ->
  (hasOwn assets id = true ->
   resolveAsset options type (VStr id) warnMissing = ret (get assets id))
  /\ (hasOwn assets id = false -> hasOwn assets camelizedId = true ->
      resolveAsset options type (VStr id) warnMissing = ret (get assets camelizedId))
  /\ (hasOwn assets id = false -> hasOwn assets camelizedId = false ->
      hasOwn assets PascalCaseId = true ->
      resolveAsset options type (VStr id) warnMissing = ret (get assets PascalCaseId))
  /\ (hasOwn assets id = false -> hasOwn assets camelizedId = false ->
      hasOwn assets PascalCaseId = false -> isNullish assets = false ->
      let res := orElse (get assets id)
                   (orElse (get assets camelizedId) (get assets PascalCaseId)) in
      resolveAsset options type (VStr id) warnMissing
      = (Ok res,
         if warnMissing && negb (truthy res)
         then [Warn (WFailedToResolve (dropLast type) id)] else [])
      /\ forall proto own, assets = VObj proto own ->
           res = orElse (get proto id)
                   (orElse (get proto camelizedId) (get proto PascalCaseId))).
Proof.
  intros assets camelizedId PascalCaseId Hopt.
  unfold resolveAsset. rewrite getp_ok, bind_ret by assumption.
  fold assets camelizedId PascalCaseId.
  split; [| split; [| split]].
  - intros H1. rewrite H1. apply getp_ok. eapply hasOwn_not_nullish; eauto.
  - intros H1 H2. rewrite H1, H2. apply getp_ok. eapply hasOwn_not_nullish; eauto.
  - intros H1 H2 H3. rewrite H1, H2, H3. apply getp_ok.
    eapply hasOwn_not_nullish; eauto.
  - intros H1 H2 H3 Hn. cbv zeta. split.
    + pose proof (resolveAsset_fallback options type id warnMissing
                    Hopt Hn H1 H2 H3) as F.
      unfold resolveAsset in F. rewrite getp_ok, bind_ret in F by assumption.
      exact F.
    + intros proto own E. rewrite E in *. cbn [hasOwn] in H1, H2, H3.
      cbn [get]. rewrite !assoc_mem by assumption. reflexivity.
Qed.

Lemma resolveAsset_order_witness :
  resolveAsset (VObj VNull [("components", VObj VNull [("myComp", VNum 2)])])
    "components" (VStr "my-comp") false
  = ret (VNum 2).
Proof.
  apply (proj1 (proj2 (resolveAsset_order
           (VObj VNull [("components", VObj VNull [("myComp", VNum 2)])])
           "components" "my-comp" false eq_refl)));
    reflexivity.
Defined.

(** The registry inherits an asset under the exact name ["my-comp"] and owns
    one under the camel-cased name: the own one is returned. *)
Lemma resolveAsset_own_camel_before_inherited_exact :
  let registry := VObj (VObj VNull [("my-comp", VNum 1)]) [("myComp", VNum 2)] in
  get registry "my-comp" = VNum 1
  /\ resolveAsset (VObj VNull [("components", registry)]) "components"
       (VStr "my-comp") true
     = (Ok (VNum 2), []).
Proof. split; reflexivity. Qed.

(** ** Objects built by successive assignments *)

Lemma get_assign v k x k' :
  isPlainObject v = true ->
  get (assign v k x) k' = if k =? k' then x else get v k'.
Proof.
  destruct v; try discriminate. intros _.
  destruct (String.eqb_spec k k') as [-> | N].
  - apply get_assign_obj_same.
  - apply get_assign_obj_other, N.
Qed.

Lemma assign_plain v k x : isPlainObject v = true -> isPlainObject (assign v k x) = true.
Proof. destruct v; try discriminate. reflexivity. Qed.

Lemma fold_assign_plain {A} (g : A -> string) (w : A -> value) ks r :
  isPlainObject r = true ->
  isPlainObject (fold_left (fun r k => assign r (g k) (w k)) ks r) = true.
Proof.
  revert r. induction ks as [| k ks IH]; intros r H; simpl.
  - exact H.
  - apply IH, assign_plain, H.
Qed.

(** The last assignment to a name is the one read back. *)
Lemma get_fold_assign {A} (g : A -> string) (w : A -> value) ks r name :
  isPlainObject r = true ->
  get (fold_left (fun r k => assign r (g k) (w k)) ks r) name =
  match find (fun k => g k =? name) (rev ks) with
  | Some k => w k
  | None => get r name
  end.
Proof.
  intros H. induction ks as [| k ks IH] using rev_ind.
  - reflexivity.
  - rewrite fold_left_app, rev_app_distr. simpl.
    rewrite get_assign by (apply fold_assign_plain, H).
    destruct (g k =? name); [reflexivity | exact IH].
Qed.

Lemma find_none_iff {A} (p : A -> bool) l :
  find p l = None <-> forall x, In x l -> p x = false.
Proof.
  split.
  - apply find_none.
  - induction l as [| a l IH]; simpl; intros H; [reflexivity |].
    rewrite (H a) by auto. apply IH. intros x I. apply H. auto.
Qed.

(** ** normalizeProps *)

Lemma stringsOf_app xs ys : stringsOf (xs ++ ys) = stringsOf xs ++ stringsOf ys.
Proof. unfold stringsOf. apply flat_map_app. Qed.

Lemma propsArrayStep_eq r y :
  propsArrayStep r y =
  (Ok (fold_left (fun r s => assign r (camelize s) (typeOnly VNull)) (stringsOf [y]) r),
   repeat (Warn WPropsMustBeStrings) (List.length (nonStrings [y]))).
Proof. destruct y; reflexivity. Qed.

Lemma propsArray_loop ys r :
  foldM propsArrayStep ys r =
  (Ok (fold_left (fun r s => assign r (camelize s) (typeOnly VNull)) (stringsOf ys) r),
   repeat (Warn WPropsMustBeStrings) (List.length (nonStrings ys))).
Proof.
  revert r. induction ys as [| y ys IH]; intros r.
  - reflexivity.
  - cbn [foldM]. erewrite bind_ok by (apply propsArrayStep_eq || apply IH).
    change (y :: ys) with ([y] ++ ys).
    rewrite stringsOf_app, fold_left_app. unfold nonStrings.
    rewrite filter_app, length_app, repeat_app. reflexivity.
Qed.

Lemma In_stringsOf_rev s xs : In s (stringsOf (rev xs)) <-> In s (stringsOf xs).
Proof.
  unfold stringsOf. rewrite !in_flat_map. split; intros [x [I J]]; exists x;
    (split; [| exact J]); [apply in_rev | apply in_rev in I]; assumption.
Qed.

Lemma nonStrings_rev_length xs :
  List.length (nonStrings (rev xs)) = List.length (nonStrings xs).
Proof.
  induction xs as [| x xs IH]; [reflexivity |].
  simpl rev. unfold nonStrings in *. rewrite filter_app, length_app, IH.
  simpl. destruct (negb (isString x)); simpl; lia.
Qed.

Lemma propsObject_loop props ks r :
  foldM (propsObjectStep props) ks r =
  ret (fold_left
         (fun r key => assign r (camelize key)
                         (if isPlainObject (get props key) then get props key
                          else typeOnly (get props key))) ks r).
Proof. apply foldM_pure. reflexivity. Qed.

Lemma assignM_plain o k v : isPlainObject o = true -> assignM o k v = ret (assign o k v).
Proof. destruct o; try discriminate. reflexivity. Qed.

Lemma mem_map_camelize_rev name xs :
  mem name (map camelize (stringsOf (rev xs))) = mem name (map camelize (stringsOf xs)).
Proof.
  apply eq_true_iff_eq. rewrite !mem_In, !in_map_iff.
  split; intros [s [E I]]; exists s; (split; [exact E |]);
    apply In_stringsOf_rev; assumption.
Qed.

(** C9.  [normalizeProps] leaves a configuration without [props] as it is.
    For the sequence form, [props] becomes an object in which exactly the
    camel-cased string elements are declared, each as [{type: null}], with
    one warning per element that is not a string; so [{props: ['a-b']}]
    becomes [{props: {aB: {type: null}}}].  For the mapping form, each key
    is camel-cased and maps to its value when the value is a plain object
    (to [{type: value}] otherwise); so [{props: {c: {type: String}}}] is
    unchanged. *)
Theorem normalizeProps_canonical :
  (forall options vm,
      isNullish options = false -> truthy (get options "props") = false ->
      normalizeProps options vm = ret options)
  /\ (forall options vm xs,
        isPlainObject options = true -> get options "props" = VArr xs ->
        exists res,
          normalizeProps options vm
          = (Ok (assign options "props" res),
             repeat (Warn WPropsMustBeStrings) (List.length (nonStrings xs)))
          /\ get (assign options "props" res) "props" = res
          /\ isPlainObject res = true
          /\ forall name,
               get res name
               = if mem name (map camelize (stringsOf xs)) then VObj VNull [("type", VNull)]
                 else VUndef)
  /\ (forall options vm props,
        isPlainObject options = true -> get options "props" = props ->
        isPlainObject props = true ->
        exists res,
          normalizeProps options vm = ret (assign options "props" res)
          /\ get (assign options "props" res) "props" = res
          /\ isPlainObject res = true
          /\ (forall key,
                In key (forin props) ->
                (forall key', In key' (forin props) ->
                              camelize key' = camelize key -> key' = key) ->
                get res (camelize key)
                = if isPlainObject (get props key) then get props key
                  else VObj VNull [("type", get props key)])
          /\ (forall name,
                ~ In name (map camelize (forin props)) -> get res name = VUndef))
  /\ (forall vm,
        normalizeProps (VObj VNull [("props", VArr [VStr "a-b"])]) vm
        = ret (VObj VNull [("props", VObj VNull [("aB", VObj VNull [("type", VNull)])])]))
  /\ (forall vm ty,
        normalizeProps
          (VObj VNull [("props", VObj VNull [("c", VObj VNull [("type", ty)])])]) vm
        = ret (VObj VNull [("props", VObj VNull [("c", VObj VNull [("type", ty)])])])).
Proof.
  split; [| split; [| split; [| split]]].
  - intros. apply normalizeProps_absent; assumption.
  - intros options vm xs Ho Hp.
    assert (Hn : isNullish options = false) by (destruct options; discriminate || reflexivity).
    unfold normalizeProps. rewrite getp_ok, bind_ret, Hp by assumption.
    cbn [truthy negb isArray elements].
    eexists. split; [| split; [| split]].
    + erewrite bind_ok; [| apply propsArray_loop | apply assignM_plain, Ho].
      rewrite nonStrings_rev_length, app_nil_r. reflexivity.
    + rewrite get_assign by assumption. reflexivity.
    + apply fold_assign_plain. reflexivity.
    + intros name. rewrite get_fold_assign by reflexivity.
      rewrite <- mem_map_camelize_rev.
      destruct (find _ _) as [s |] eqn:F.
      * apply find_some in F as [I E]. apply String.eqb_eq in E.
        assert (M : mem name (map camelize (stringsOf (rev xs))) = true).
        { apply mem_In, in_map_iff. exists s. split; [exact E |].
          apply in_rev. exact I. }
        rewrite M. reflexivity.
      * assert (M : mem name (map camelize (stringsOf (rev xs))) = false).
        { apply mem_not_In. intros I. apply in_map_iff in I as [s [E I]].
          rewrite find_none_iff in F. specialize (F s).
          rewrite <- in_rev in F. specialize (F I).
          rewrite E, String.eqb_refl in F. discriminate. }
        rewrite M. reflexivity.
  - intros options vm props Ho Hp Hpl.
    assert (Hn : isNullish options = false) by (destruct options; discriminate || reflexivity).
    assert (Ht : truthy props = true) by (destruct props; discriminate || reflexivity).
    assert (Ha : isArray props = false) by (destruct props; discriminate || reflexivity).
    unfold normalizeProps. rewrite getp_ok, bind_ret, Hp, Ht, Ha, Hpl by assumption.
    cbn [negb]. rewrite propsObject_loop, bind_ret.
    eexists. split; [apply assignM_plain, Ho |]. split; [| split; [| split]].
    + rewrite get_assign by assumption. reflexivity.
    + apply fold_assign_plain. reflexivity.
    + intros key I U. rewrite get_fold_assign by reflexivity.
      destruct (find _ _) as [key' |] eqn:F.
      * apply find_some in F as [I' E]. apply String.eqb_eq in E.
        apply in_rev in I'. rewrite (U key' I' E). reflexivity.
      * rewrite find_none_iff in F. specialize (F key).
        rewrite <- in_rev in F. specialize (F I).
        rewrite String.eqb_refl in F. discriminate.
    + intros name N. rewrite get_fold_assign by reflexivity.
      destruct (find _ _) as [key' |] eqn:F; [| reflexivity].
      apply find_some in F as [I' E]. apply String.eqb_eq in E.
      exfalso. apply N. apply in_map_iff. exists key'. split; [exact E |].
      apply in_rev. exact I'.
  - reflexivity.
  - reflexivity.
Qed.

(** ** Computations that complete *)

Lemma completes_ret {A} (a : A) (Q : A -> Prop) : Q a -> completes (ret a) Q.
Proof. intros H. exists a, []. auto. Qed.

Lemma completes_bind {A B} (m : M A) (f : A -> M B) (Q : A -> Prop) (Q' : B -> Prop) :
  completes m Q -> (forall a, Q a -> completes (f a) Q') -> completes (bind m f) Q'.
Proof.
  intros (a & l & E & W & H) K. destruct (K a H) as (b & l' & E' & W' & H').
  exists b, (l ++ l'). split; [apply (bind_ok _ _ _ _ _ _ E E') |].
  split; [| exact H']. unfold warningsOnly in *. rewrite forallb_app, W, W'.
  reflexivity.
Qed.

Lemma completes_weaken {A} (m : M A) (Q Q' : A -> Prop) :
  completes m Q -> (forall a, Q a -> Q' a) -> completes m Q'.
Proof. intros (a & l & E & W & H) K. exists a, l. auto. Qed.

Lemma completes_warn w (Q : unit -> Prop) : Q tt -> completes (warn w) Q.
Proof. intros H. exists tt, [Warn w]. auto. Qed.


Lemma completes_foldM {A S} (f : S -> A -> M S) (I : S -> Prop) xs : forall s,
  I s -> (forall s x, In x xs -> I s -> completes (f s x) I) ->
  completes (foldM f xs s) I.
Proof.
  induction xs as [| x xs IH]; intros s Hs K.
  - apply completes_ret, Hs.
  - cbn [foldM]. eapply completes_bind.
    + apply K; [left; reflexivity | exact Hs].
    + intros s' Hs'. apply IH; [exact Hs' |]. intros. apply K; auto. right. assumption.
Qed.

Lemma completes_inv {A} (m : M A) (Q : A -> Prop) a l :
  completes m Q -> m = (Ok a, l) -> Q a /\ warningsOnly l = true.
Proof. intros (a' & l' & E & W & H) E'. rewrite E in E'. inversion E'; subst. auto. Qed.

Lemma completes_self {A} (m : M A) :
  completes m (fun _ => True) -> completes m (fun a => exists l, m = (Ok a, l)).
Proof. intros (a & l & E & W & _). exists a, l. eauto. Qed.

Lemma completes_assignM o k v :
  assignable o k = true -> completes (assignM o k v) (fun o' => o' = assign o k v).
Proof. intros A. unfold assignM. rewrite A. apply completes_ret. reflexivity. Qed.

Lemma completes_toKey x : keyable x = true -> completes (toKey x) (fun _ => True).
Proof.
  destruct x; try discriminate; intros _; try (apply completes_ret; exact I).
  destruct b; apply completes_ret; exact I.
Qed.

(** ** normalizeInject *)

Lemma idx_key_neq k :
  NilEmpty.uint_of_string k = None -> forall i, idx_key i <> k.
Proof.
  intros H i E. unfold idx_key in E.
  pose proof (NilEmpty.usu (Nat.to_uint i)) as U. rewrite E, H in U. discriminate.
Qed.

Lemma key_idx_None n k : NilEmpty.uint_of_string k = None -> key_idx n k = None.
Proof.
  intros H. unfold key_idx. apply find_none_iff. intros i _.
  apply String.eqb_neq, idx_key_neq, H.
Qed.

Lemma elemAt_name xs k :
  NilEmpty.uint_of_string k = None -> (k =? "length") = false ->
  elemAt xs k = VUndef.
Proof. intros H L. unfold elemAt. rewrite L, key_idx_None by assumption. reflexivity. Qed.

(** Only objects and functions hold a truthy value under a name that is
    neither an index nor [length]. *)
Lemma truthy_get_assignable o k :
  NilEmpty.uint_of_string k = None -> (k =? "length") = false ->
  truthy (get o k) = true -> assignable o k = true.
Proof.
  intros H L T. destruct o; try reflexivity; simpl in T; try discriminate;
    rewrite elemAt_name in T by assumption; discriminate.
Qed.

Lemma get_assign_same o k v : assignable o k = true ->
  NilEmpty.uint_of_string k = None -> get (assign o k v) k = v.
Proof.
  intros A H. destruct o; try discriminate.
  - simpl in A. rewrite key_idx_None in A by assumption. discriminate.
  - apply get_assign_obj_same.
  - simpl. rewrite assoc_put_same. reflexivity.
Qed.

Lemma put_put l k v x : put (put l k v) k x = put l k x.
Proof.
  induction l as [| [k0 v0] l IH]; simpl.
  - rewrite String.eqb_refl. reflexivity.
  - destruct (String.eqb_spec k0 k) as [-> | N]; simpl.
    + rewrite String.eqb_refl. reflexivity.
    + destruct (String.eqb_spec k0 k) as [E | _]; [contradiction |].
      rewrite IH. reflexivity.
Qed.

Lemma mutateAt_assigned o k v x :
  assignable o k = true -> NilEmpty.uint_of_string k = None ->
  mutateAt (assign o k v) k x = assign o k x.
Proof.
  intros A H. destruct o; try discriminate.
  - simpl in A. rewrite key_idx_None in A by assumption. discriminate.
  - simpl. rewrite assoc_put_same, put_put. reflexivity.
  - simpl. rewrite assoc_put_same, put_put. reflexivity.
Qed.

Lemma injectArray_loop_plain xs r r' l :
  isPlainObject r = true -> foldM injectArrayStep xs r = (Ok r', l) ->
  isPlainObject r' = true.
Proof.
  revert r l. induction xs as [| x xs IH]; intros r l H E.
  - inversion E; subst. exact H.
  - cbn [foldM] in E. apply bind_inv in E as (r1 & l1 & l2 & E1 & E2 & _).
    unfold injectArrayStep in E1. apply bind_inv in E1 as (k & ? & ? & _ & E1 & _).
    inversion E1; subst. eapply IH; [| exact E2]. apply assign_plain, H.
Qed.

Lemma injectObject_loop inject ks r :
  foldM (injectObjectStep inject) ks r =
  ret (fold_left
         (fun r key => assign r key
            (if isPlainObject (get inject key)
             then extend (fromOnly (VStr key)) (get inject key)
             else fromOnly (get inject key))) ks r).
Proof. apply foldM_pure. reflexivity. Qed.

Lemma completes_normalizeInject options vm :
  isNullish options = false -> injectOK (get options "inject") = true ->
  completes (normalizeInject options vm) (fun _ => True).
Proof.
  intros H OK. unfold normalizeInject. rewrite getp_ok, bind_ret by assumption.
  destruct (truthy (get options "inject")) eqn:T; cbn [negb];
    [| apply completes_ret; exact I].
  eapply completes_bind.
  - apply completes_assignM, truthy_get_assignable; (reflexivity || exact T).
  - intros o1 _. eapply completes_bind with (Q := fun _ => True).
    + destruct (isArray (get options "inject")).
      * apply completes_foldM; [exact I |]. intros res x Ix _.
        unfold injectArrayStep. eapply completes_bind.
        -- apply completes_toKey. unfold injectOK in OK.
           rewrite forallb_forall in OK. apply OK, Ix.
        -- intros. apply completes_ret. exact I.
      * destruct (isPlainObject (get options "inject")).
        -- rewrite injectObject_loop. apply completes_ret. exact I.
        -- eapply completes_bind with (Q := fun _ => True);
             [apply completes_warn; exact I | intros; apply completes_ret; exact I].
    + intros. apply completes_ret. exact I.
Qed.

(** A raw [inject] value that is neither an array nor a plain object. *)
Lemma normalizeInject_invalid options vm :
  let inject := get options "inject" in
  truthy inject = true -> isArray inject = false -> isPlainObject inject = false ->
  normalizeInject options vm
  = (Ok (assign options "inject" emptyObject),
     [Warn (WInvalidInject (toRawType inject))]).
Proof.
  intros inject T Ha Hp.
  assert (A : assignable options "inject" = true)
    by (apply truthy_get_assignable; [reflexivity | reflexivity | exact T]).
  assert (Hn : isNullish options = false) by (destruct options; discriminate || reflexivity).
  unfold normalizeInject. rewrite getp_ok, bind_ret by assumption.
  fold inject. rewrite T. cbn [negb]. unfold assignM. rewrite A, bind_ret.
  rewrite Ha, Hp. unfold warn. cbn [bind ret app].
  rewrite mutateAt_assigned by (assumption || reflexivity). reflexivity.
Qed.

(** C10.  When [options.inject] is truthy and [normalizeInject] returns,
    [options.inject] is a plain object; it does return whenever the raw
    value is not a sequence, or is a sequence of primitive names.  When the
    raw value is neither an array nor a plain object the normalizer warns,
    returns, and leaves the empty object it stored in [options.inject]
    before looking at the raw value's shape. *)
Theorem normalizeInject_always_plain options vm :
  let inject := get options "inject" in
  truthy inject = true ->
  (forall options' log,
      normalizeInject options vm = (Ok options', log) ->
      isPlainObject (get options' "inject") = true)
  /\ (injectOK inject = true ->
      completes (normalizeInject options vm)
                (fun options' => isPlainObject (get options' "inject") = true))
  /\ (isArray inject = false -> isPlainObject inject = false ->
      normalizeInject options vm
      = (Ok (assign options "inject" emptyObject),
         [Warn (WInvalidInject (toRawType inject))])
      /\ get (assign options "inject" emptyObject) "inject" = emptyObject).
Proof.
  intros inject T.
  assert (A : assignable options "inject" = true)
    by (apply truthy_get_assignable; [reflexivity | reflexivity | exact T]).
  assert (Hn : isNullish options = false) by (destruct options; discriminate || reflexivity).
  assert (Plain : forall options' log,
             normalizeInject options vm = (Ok options', log) ->
             isPlainObject (get options' "inject") = true).
  { unfold normalizeInject. rewrite getp_ok, bind_ret by assumption.
    fold inject. rewrite T. cbn [negb]. unfold assignM. rewrite A, bind_ret.
    intros options' log E.
    apply bind_inv in E as (normalized & l1 & l2 & E1 & E2 & _).
    inversion E2; subst. rewrite mutateAt_assigned by (assumption || reflexivity).
    rewrite get_assign_same by (assumption || reflexivity).
    destruct (isArray inject).
    + eapply injectArray_loop_plain; [| exact E1]. reflexivity.
    + destruct (isPlainObject inject).
      * rewrite injectObject_loop in E1. inversion E1; subst.
        apply fold_assign_plain. reflexivity.
      * unfold warn in E1. cbn [bind ret] in E1. inversion E1; subst. reflexivity. }
  split; [exact Plain |]. split.
  - intros OK. eapply completes_weaken.
    + apply completes_self, completes_normalizeInject; assumption.
    + intros options' (l & E). eapply Plain, E.
  - intros Ha Hp. split.
    + apply normalizeInject_invalid; assumption.
    + apply get_assign_same; [assumption | reflexivity].
Qed.

Lemma normalizeInject_always_plain_witness :
  normalizeInject (VObj VNull [("inject", VNum 5)]) VUndef
  = (Ok (VObj VNull [("inject", emptyObject)]), [Warn (WInvalidInject "Number")]).
Proof.
  apply (proj2 (proj2 (normalizeInject_always_plain
                         (VObj VNull [("inject", VNum 5)]) VUndef eq_refl)));
    reflexivity.
Defined.

(** ** Sizes *)

Lemma size_assoc k l x :
  assoc k l = Some x -> size x <= list_sum (map (fun kv => size (snd kv)) l).
Proof.
  induction l as [| [k0 v0] l IH]; simpl; [discriminate |].
  destruct (k0 =? k).
  - intros E. inversion E; subst. lia.
  - intros E. specialize (IH E). lia.
Qed.

Lemma size_In x xs : In x xs -> size x <= list_sum (map size xs).
Proof.
  induction xs as [| y xs IH]; simpl; [contradiction |].
  intros [-> | I]; [lia | specialize (IH I); lia].
Qed.

Lemma size_nth xs i : size (nth i xs VUndef) <= list_sum (map size xs).
Proof.
  destruct (Nat.lt_ge_cases i (List.length xs)) as [L | G].
  - apply size_In, nth_In, L.
  - rewrite nth_overflow by assumption. simpl. lia.
Qed.

Lemma elemAt_chars_not_object s k : isObjectLike (elemAt (chars s) k) = false.
Proof.
  unfold elemAt. destruct (k =? "length"); [reflexivity |].
  destruct (key_idx _ k) as [i |]; [| reflexivity].
  revert i. induction s as [| c s IH]; intros [| i]; simpl; auto.
Qed.

(** An object found under a property is smaller than its holder. *)
Lemma size_get_object v k :
  isObjectLike (get v k) = true -> size (get v k) < size v.
Proof.
  induction v as [ | | b | n | s | xs | proto IHv own | id own
                  | c IHc p IHp | c IHc p IHp vm IHvm ]; simpl; try discriminate.
  - intros H. rewrite elemAt_chars_not_object in H. discriminate.
  - unfold elemAt. destruct (k =? "length"); [discriminate |].
    destruct (key_idx _ k) as [i |]; [| discriminate].
    intros _. pose proof (size_nth xs i). lia.
  - destruct (assoc k own) as [x |] eqn:E.
    + intros _. apply size_assoc in E. lia.
    + intros H. specialize (IHv H). lia.
  - destruct (assoc k own) as [x |] eqn:E; [| discriminate].
    intros _. apply size_assoc in E. lia.
Qed.

Lemma plain_objectLike v : isPlainObject v = true -> isObjectLike v = true.
Proof. destruct v; simpl; congruence. Qed.

(** ** mergeData: enough fuel *)

Lemma foldM_ext {A S} (f g : S -> A -> M S) xs s :
  (forall s x, In x xs -> f s x = g s x) -> foldM f xs s = foldM g xs s.
Proof.
  revert s. induction xs as [| x xs IH]; intros s H; cbn [foldM].
  - reflexivity.
  - rewrite H by (left; reflexivity). unfold bind.
    destruct (g s x) as [[s' | e] l]; [| reflexivity].
    rewrite IH by (intros; apply H; right; assumption). reflexivity.
Qed.

Lemma bind_ext {A B} (m : M A) (f g : A -> M B) :
  (forall a, f a = g a) -> bind m f = bind m g.
Proof.
  intros H. unfold bind. destruct m as [[a | e] l]; [| reflexivity].
  rewrite H. reflexivity.
Qed.

Lemma mergeData_fuel_irrel n : forall m to from,
  size from < n -> size from < m ->
  mergeData_fuel n to from = mergeData_fuel m to from.
Proof.
  induction n as [| n IH]; intros m to from Hn Hm; [lia |].
  destruct m as [| m]; [lia |]. cbn [mergeData_fuel].
  destruct (negb (truthy from)); [reflexivity |].
  apply foldM_ext. intros t key _. unfold mergeDataStep.
  apply bind_ext. intros toVal.
  destruct (negb (hasOwn t key)); [reflexivity |].
  destruct (isPlainObject toVal); [| reflexivity].
  destruct (isPlainObject (get from key)) eqn:P; [| reflexivity].
  cbn [andb]. apply plain_objectLike, (size_get_object from key) in P.
  rewrite (IH m) by lia. reflexivity.
Qed.

(** [mergeData], as the source writes it. *)
Lemma mergeData_eq to from :
  mergeData to from =
  if negb (truthy from) then ret to
  else foldM (mergeDataStep mergeData from) (ownKeys from) to.
Proof.
  unfold mergeData at 1. cbn [mergeData_fuel].
  destruct (negb (truthy from)); [reflexivity |].
  apply foldM_ext. intros t key _. unfold mergeDataStep.
  apply bind_ext. intros toVal.
  destruct (negb (hasOwn t key)); [reflexivity |].
  destruct (isPlainObject toVal); [| reflexivity].
  destruct (isPlainObject (get from key)) eqn:P; [| reflexivity].
  cbn [andb]. apply plain_objectLike, (size_get_object from key) in P.
  unfold mergeData. rewrite (mergeData_fuel_irrel (size from) (S (size (get from key)))) by lia.
  reflexivity.
Qed.

Lemma flat_map_ext_in {A B} (f g : A -> list B) l :
  (forall x, In x l -> f x = g x) -> flat_map f l = flat_map g l.
Proof.
  induction l as [| a l IH]; intros H; simpl; [reflexivity |].
  rewrite H by (left; reflexivity).
  rewrite IH by (intros; apply H; right; assumption). reflexivity.
Qed.

Lemma mergedEntry_put_other from own a x k :
  a <> k -> mergedEntry from (put own a x) k = mergedEntry from own k.
Proof. intros N. unfold mergedEntry. rewrite assoc_put_other by assumption. reflexivity. Qed.

Lemma mergeEvents_put_other from own a x k :
  a <> k -> mergeEvents from (put own a x) k = mergeEvents from own k.
Proof. intros N. unfold mergeEvents. rewrite assoc_put_other by assumption. reflexivity. Qed.

(** The loop of [mergeData] over keys [ks] of [from], on a plain
    destination. *)
Lemma mergeData_loop from tp ks :
  NoDup ks ->
  (forall key toVal, In key ks -> isPlainObject toVal = true ->
     isPlainObject (get from key) = true ->
     exists r l, mergeData toVal (get from key) = (Ok r, l)) ->
  forall own0, exists own1,
    foldM (mergeDataStep mergeData from) ks (VObj tp own0)
    = (Ok (VObj tp own1), flat_map (mergeEvents from own0) ks)
    /\ forall k, assoc k own1
                 = if mem k ks then mergedEntry from own0 k else assoc k own0.
Proof.
  induction ks as [| a ks IH]; intros ND Hrec own0.
  - exists own0. split; [reflexivity | intros; reflexivity].
  - inversion ND as [| ? ? Na ND']; subst.
    assert (Hrec' : forall key toVal, In key ks -> isPlainObject toVal = true ->
              isPlainObject (get from key) = true ->
              exists r l, mergeData toVal (get from key) = (Ok r, l))
      by (intros; eapply Hrec; eauto; right; assumption).
    assert (Step : exists x,
      mergeDataStep mergeData from (VObj tp own0) a
      = (Ok (VObj tp (match x with Some v => put own0 a v | None => own0 end)),
         mergeEvents from own0 a)
      /\ mergedEntry from own0 a
         = match x with Some v => Some v | None => assoc a own0 end
      /\ (x = None -> assoc a own0 <> None)).
    { unfold mergeDataStep, mergeEvents, mergedEntry.
      cbn [getp isNullish hasOwn get]. rewrite bind_ret.
      destruct (assoc a own0) as [toVal |] eqn:E.
      - rewrite (assoc_Some_mem _ _ _ E). cbn [negb].
        destruct (isPlainObject toVal && isPlainObject (get from a)) eqn:P.
        + apply andb_prop in P as [P1 P2].
          destruct (Hrec a toVal (or_introl eq_refl) P1 P2) as (r & l & Er).
          exists (Some r). rewrite Er. cbn [bind ret run logOf fst snd mutateAt].
          rewrite E, app_nil_r. repeat split. discriminate.
        + exists None. repeat split. congruence.
      - assert (Hm : mem a (keys own0) = false) by (apply mem_not_In, assoc_None, E).
        rewrite Hm. cbn [negb set assign]. exists (Some (get from a)).
        repeat split. discriminate. }
    destruct Step as (x & Es & Ee & Ex).
    destruct (IH ND' Hrec' (match x with Some v => put own0 a v | None => own0 end))
      as (own1 & El & Ea).
    exists own1. split.
    + cbn [foldM flat_map]. erewrite bind_ok by eassumption. f_equal. f_equal.
      apply flat_map_ext_in. intros k I.
      destruct x; [| reflexivity].
      apply mergeEvents_put_other. intros ->. contradiction.
    + intros k. rewrite Ea. change (mem k (a :: ks)) with ((k =? a) || mem k ks).
      destruct (String.eqb_spec k a) as [-> | N].
      * cbn [orb]. assert (Hm : mem a ks = false) by (apply mem_not_In, Na).
        rewrite Hm, Ee.
        destruct x; [apply assoc_put_same | reflexivity].
      * cbn [orb].
        destruct x; [| reflexivity].
        rewrite mergedEntry_put_other, assoc_put_other by congruence. reflexivity.
Qed.

(** ** Enumerations list each name once *)

Lemma In_filter_neq x y l :
  In x (filter (fun z => negb (z =? y)) l) <-> In x l /\ x <> y.
Proof.
  rewrite filter_In. split; intros [I H]; split; try assumption.
  - intros ->. rewrite String.eqb_refl in H. discriminate.
  - apply negb_true_iff, String.eqb_neq, H.
Qed.

Lemma In_dedup x l : In x (dedup l) <-> In x l.
Proof.
  induction l as [| y l IH]; simpl; [tauto |].
  rewrite In_filter_neq, IH.
  destruct (string_dec y x) as [-> | N]; intuition congruence.
Qed.

Lemma NoDup_filter {A} (p : A -> bool) l : NoDup l -> NoDup (filter p l).
Proof.
  induction 1 as [| x l N ND IH]; simpl; [constructor |].
  destruct (p x); [| exact IH]. constructor; [| exact IH].
  intros I. apply filter_In in I as [I _]. contradiction.
Qed.

Lemma NoDup_dedup l : NoDup (dedup l).
Proof.
  induction l as [| y l IH]; simpl; constructor.
  - intros I. apply In_filter_neq in I as [_ N]. congruence.
  - apply NoDup_filter, IH.
Qed.

Lemma idx_key_inj i j : idx_key i = idx_key j -> i = j.
Proof.
  unfold idx_key. intros E.
  pose proof (NilEmpty.usu (Nat.to_uint i)) as Ui.
  pose proof (NilEmpty.usu (Nat.to_uint j)) as Uj.
  rewrite E in Ui. rewrite Ui in Uj. inversion Uj as [T].
  apply (f_equal Nat.of_uint) in T. rewrite !DecimalNat.Unsigned.of_to in T.
  exact T.
Qed.

Lemma NoDup_idx_keys n : NoDup (idx_keys n).
Proof.
  unfold idx_keys. apply Injective_map_NoDup; [| apply seq_NoDup].
  intros i j. apply idx_key_inj.
Qed.

Lemma NoDup_ownKeys v : NoDup (ownKeys v).
Proof.
  destruct v; simpl; try constructor;
    apply NoDup_idx_keys || apply NoDup_dedup.
Qed.

Lemma NoDup_forin v : NoDup (forin v).
Proof.
  destruct v; simpl; try constructor;
    apply NoDup_idx_keys || apply NoDup_dedup.
Qed.

(** ** mergeData on a plain destination *)

Lemma mergeData_total_lt n : forall from to,
  size from < n -> isPlainObject to = true ->
  exists r l, mergeData to from = (Ok r, l) /\ isPlainObject r = true.
Proof.
  induction n as [| n IH]; intros from to Hn Hp; [lia |].
  rewrite mergeData_eq. destruct (negb (truthy from)).
  - exists to, []. split; [reflexivity | exact Hp].
  - destruct to as [ | | | | | | tp own0 | | | ]; try discriminate.
    destruct (mergeData_loop from tp (ownKeys from) (NoDup_ownKeys from)) with (own0 := own0)
      as (own1 & E & _).
    + intros key toVal _ P1 P2.
      pose proof (size_get_object from key (plain_objectLike _ P2)) as L.
      destruct (IH (get from key) toVal) as (r & l & Er & _); [lia | exact P1 |].
      eauto.
    + rewrite E. eauto.
Qed.

Lemma mergeData_total to from :
  isPlainObject to = true ->
  exists r l, mergeData to from = (Ok r, l) /\ isPlainObject r = true.
Proof. apply (mergeData_total_lt (S (size from))). lia. Qed.

Lemma hasOwn_obj_assoc proto own k :
  hasOwn (VObj proto own) k = match assoc k own with Some _ => true | None => false end.
Proof.
  cbn [hasOwn]. destruct (assoc k own) eqn:E.
  - eapply assoc_Some_mem, E.
  - apply mem_not_In, assoc_None, E.
Qed.

(** C4.  Deep merge of a source [from] into a plain destination [to].  A
    falsy source leaves the destination as it is.  Otherwise the merge
    returns the destination, still a plain object, and for every own key of
    the source: when the destination does not own the key, it is introduced
    by one call to the external setter with the source's value; when the
    destination owns it and both values are plain objects, the value becomes
    the result of merging the two values (the same rule one level down), and
    the only setter calls for it are those of that nested merge; in every
    other case the destination's value stays and the setter is not called.
    Own keys of the destination that the source lacks stay too, and the
    result owns nothing else. *)
Theorem mergeData_deep to from :
  (truthy from = false -> mergeData to from = ret to)
  /\ (isPlainObject to = true -> truthy from = true ->
      exists r,
        mergeData to from
        = (Ok r, flat_map (mergeEvents from (ownFields to)) (ownKeys from))
        /\ isPlainObject r = true
        /\ (forall key,
              In key (ownKeys from) -> hasOwn to key = false ->
              hasOwn r key = true /\ get r key = get from key
              /\ mergeEvents from (ownFields to) key = [SetCall key (get from key)])
        /\ (forall key,
              In key (ownKeys from) -> hasOwn to key = true ->
              isPlainObject (get to key) = true ->
              isPlainObject (get from key) = true ->
              exists merged log,
                mergeData (get to key) (get from key) = (Ok merged, log)
                /\ get r key = merged
                /\ mergeEvents from (ownFields to) key = log)
        /\ (forall key,
              hasOwn to key = true ->
              (In key (ownKeys from) ->
               isPlainObject (get to key) && isPlainObject (get from key) = false) ->
              get r key = get to key
              /\ (In key (ownKeys from) -> mergeEvents from (ownFields to) key = []))
        /\ (forall key,
              hasOwn r key = true -> hasOwn to key = true \/ In key (ownKeys from))).
Proof.
  split.
  - intros F. rewrite mergeData_eq, F. reflexivity.
  - intros Hp T. destruct to as [ | | | | | | tp own0 | | | ]; try discriminate.
    destruct (mergeData_loop from tp (ownKeys from) (NoDup_ownKeys from)) with (own0 := own0)
      as (own1 & E & A).
    { intros key toVal _ P1 _.
      destruct (mergeData_total toVal (get from key) P1) as (r & l & Er & _). eauto. }
    exists (VObj tp own1). rewrite mergeData_eq, T. cbn [negb ownFields].
    split; [exact E |]. split; [reflexivity |].
    split; [| split; [| split]].
    + intros key I Ho. rewrite hasOwn_obj_assoc in *. cbn [get].
      rewrite A. apply mem_In in I. rewrite I.
      unfold mergedEntry, mergeEvents.
      destruct (assoc key own0); [discriminate |]. auto.
    + intros key I Ho P1 P2. rewrite hasOwn_obj_assoc in Ho. cbn [get] in *.
      rewrite A. apply mem_In in I. rewrite I.
      unfold mergedEntry, mergeEvents.
      destruct (assoc key own0) as [toVal |]; [| discriminate].
      rewrite P1, P2. cbn [andb].
      destruct (mergeData_total toVal (get from key) P1) as (merged & l & Er & _).
      rewrite Er. cbn [run logOf fst snd]. eauto.
    + intros key Ho Hk. rewrite hasOwn_obj_assoc in Ho. cbn [get] in *.
      rewrite A. unfold mergedEntry, mergeEvents.
      destruct (assoc key own0) as [toVal |]; [| discriminate].
      destruct (mem key (ownKeys from)) eqn:I.
      * apply mem_In in I. rewrite (Hk I). auto.
      * split; [reflexivity |]. intros I'. apply mem_In in I'. congruence.
    + intros key Ho. rewrite !hasOwn_obj_assoc in *. rewrite A in Ho.
      destruct (mem key (ownKeys from)) eqn:I.
      * right. apply mem_In, I.
      * left. exact Ho.
Qed.

Example mergeData_deep_example :
  mergeData
    (VObj VNull [("b", VNum 2); ("n", VObj VNull [("y", VNum 1)]); ("s", VArr [])])
    (VObj VNull [("a", VNum 7); ("n", VObj VNull [("x", VNum 1); ("y", VNum 9)]);
                 ("s", VObj VNull [("z", VNum 0)])])
  = (Ok (VObj VNull [("b", VNum 2);
                     ("n", VObj VNull [("y", VNum 1); ("x", VNum 1)]);
                     ("s", VArr []); ("a", VNum 7)]),
     [SetCall "a" (VNum 7); SetCall "x" (VNum 1)]).
Proof. reflexivity. Qed.

Lemma mergeData_plain_spec tp own0 from :
  truthy from = true ->
  exists own1,
    mergeData (VObj tp own0) from
    = (Ok (VObj tp own1), flat_map (mergeEvents from own0) (ownKeys from))
    /\ forall k, assoc k own1
                 = if mem k (ownKeys from) then mergedEntry from own0 k
                   else assoc k own0.
Proof.
  intros T.
  destruct (mergeData_loop from tp (ownKeys from) (NoDup_ownKeys from)) with (own0 := own0)
    as (own1 & E & A).
  { intros key toVal _ P1 _.
    destruct (mergeData_total toVal (get from key) P1) as (r & l & Er & _). eauto. }
  exists own1. rewrite mergeData_eq, T. split; assumption.
Qed.








(** ** The field-merging pass of mergeOptions *)

Lemma bind_ext_ok {A B} (m : M A) (f g : A -> M B) :
  (forall a l, m = (Ok a, l) -> f a = g a) -> bind m f = bind m g.
Proof.
  intros H. unfold bind. destruct m as [[a | e] l]; [| reflexivity].
  rewrite (H a l eq_refl). reflexivity.
Qed.

Lemma mergeField_frame env vm st key st' l :
  mergeField env vm st key = (Ok st', l) ->
  sc_parent st' = sc_parent st /\ sc_child st' = sc_child st
  /\ exists merged, sc_options st' = assign (sc_options st) key merged.
Proof.
  unfold mergeField. intros E.
  apply bind_inv in E as (pv & ? & ? & _ & E & _).
  apply bind_inv in E as (cv & ? & ? & _ & E & _).
  apply bind_inv in E as (merged & ? & ? & _ & E & _).
  inversion E; subst. cbn. eauto.
Qed.

Lemma mergeField_loop_frame env vm ks : forall st st' l,
  foldM (mergeField env vm) ks st = (Ok st', l) ->
  sc_parent st' = sc_parent st /\ sc_child st' = sc_child st
  /\ forall proto own, sc_options st = VObj proto own ->
       exists own', sc_options st' = VObj proto own'
                    /\ forall key, In key (keys own') <-> In key (keys own) \/ In key ks.
Proof.
  induction ks as [| k ks IH]; intros st st' l E.
  - inversion E; subst. repeat split. intros proto own Eo. exists own.
    split; [exact Eo |]. simpl. tauto.
  - cbn [foldM] in E. apply bind_inv in E as (st1 & l1 & l2 & E1 & E2 & _).
    apply mergeField_frame in E1 as (P1 & C1 & merged & O1).
    apply IH in E2 as (P2 & C2 & O2).
    split; [congruence |]. split; [congruence |].
    intros proto own Eo. rewrite Eo in O1. cbn [assign] in O1.
    destruct (O2 _ _ O1) as (own' & Eo' & K).
    exists own'. split; [exact Eo' |]. intros key. rewrite K, In_keys_put.
    simpl. intuition (subst; auto).
Qed.

Lemma guarded_loop env vm parent ks : forall st,
  sc_parent st = parent ->
  foldM (fun st key =>
           if negb (hasOwn (sc_parent st) key) then mergeField env vm st key
           else ret st) ks st
  = foldM (mergeField env vm) (filter (fun key => negb (hasOwn parent key)) ks) st.
Proof.
  induction ks as [| k ks IH]; intros st Hp; [reflexivity |].
  cbn [foldM filter]. rewrite Hp. destruct (negb (hasOwn parent k)).
  - cbn [foldM]. apply bind_ext_ok. intros st1 l E.
    apply IH. apply mergeField_frame in E as (P1 & _). congruence.
  - rewrite bind_ret. apply IH, Hp.
Qed.

Lemma mergePass_calls env parent child vm :
  mergePass env parent child vm
  = foldM (mergeField env vm) (mergeFieldCalls parent child)
      (mkScope parent child emptyObject).
Proof.
  unfold mergePass, mergeFieldCalls. rewrite foldM_app.
  apply bind_ext_ok. intros st l E.
  apply guarded_loop. apply mergeField_loop_frame in E as (P & _). exact P.
Qed.

Lemma hasOwn_forin_plain v key :
  isPlainObject v = true -> hasOwn v key = true -> In key (forin v).
Proof.
  destruct v; try discriminate. intros _ H. cbn [hasOwn forin] in *.
  apply In_dedup, in_or_app. left. apply mem_In, H.
Qed.

Lemma mergeFieldCalls_plain parent child key :
  isPlainObject parent = true ->
  In key (mergeFieldCalls parent child)
  <-> In key (forin parent) \/ In key (forin child).
Proof.
  intros Hp. unfold mergeFieldCalls. rewrite in_app_iff, filter_In.
  split; [tauto |]. intros [I | I]; [tauto |].
  destruct (hasOwn parent key) eqn:H.
  - left. apply hasOwn_forin_plain; assumption.
  - right. split; [exact I | reflexivity].
Qed.

Lemma mergePass_frame env parent child vm st log :
  mergePass env parent child vm = (Ok st, log) ->
  sc_parent st = parent /\ sc_child st = child
  /\ exists own,
       sc_options st = VObj VNull own
       /\ forall key, In key (keys own) <-> In key (mergeFieldCalls parent child).
Proof.
  intros E. rewrite mergePass_calls in E.
  apply mergeField_loop_frame in E as (P & C & O).
  cbn [sc_parent sc_child sc_options] in *.
  split; [exact P |]. split; [exact C |].
  destruct (O VNull [] eq_refl) as (own & Eo & K). exists own.
  split; [exact Eo |]. intros key. rewrite K. simpl. tauto.
Qed.

(** C8.  The two loops that end [mergeOptions] call
    [mergeField] on the enumerable names of [parent], then on those
    enumerable names of [child] that [parent] does not own.  Every field
    name present in a parent object or in the child is processed at least
    once, and exactly once when every enumerable field of [parent] is an own
    field.  The pass leaves [parent] and [child] as they were, and its
    result is an object built from [{}] whose own fields are exactly the
    processed names. *)
Theorem merge_pass_frame env parent child vm :
  mergePass env parent child vm
  = foldM (mergeField env vm) (mergeFieldCalls parent child)
      (mkScope parent child emptyObject)
  /\ (isPlainObject parent = true ->
      forall key, In key (mergeFieldCalls parent child)
                  <-> In key (forin parent) \/ In key (forin child))
  /\ ((forall key, In key (forin parent) -> hasOwn parent key = true) ->
      NoDup (mergeFieldCalls parent child))
  /\ (forall st log,
        mergePass env parent child vm = (Ok st, log) ->
        sc_parent st = parent /\ sc_child st = child
        /\ mergeFields env parent child vm = (Ok (sc_options st), log)
        /\ exists own,
             sc_options st = VObj VNull own
             /\ forall key, In key (keys own) <-> In key (mergeFieldCalls parent child)).
Proof.
  split; [apply mergePass_calls |]. split; [| split].
  - intros Hp key. apply mergeFieldCalls_plain, Hp.
  - intros Hown. unfold mergeFieldCalls. apply NoDup_app.
    + apply NoDup_forin.
    + apply NoDup_filter, NoDup_forin.
    + intros key I J. apply filter_In in J as [_ J].
      rewrite (Hown key I) in J. discriminate.
  - intros st log E.
    destruct (mergePass_frame _ _ _ _ _ _ E) as (P & C & O).
    split; [exact P |]. split; [exact C |]. split; [| exact O].
    unfold mergeFields. erewrite bind_ok; [| exact E | reflexivity].
    rewrite app_nil_r. reflexivity.
Qed.

(** A field the parent only inherits and the child also has is processed
    twice: the restricted-field warning for [el] is issued twice. *)
Lemma inherited_parent_field_merged_twice :
  let parent := VObj (VObj VNull [("el", VStr "#a")]) [] in
  let child := VObj VNull [("el", VStr "#b")] in
  mergeFieldCalls parent child = ["el"; "el"]
  /\ ~ NoDup (mergeFieldCalls parent child)
  /\ mergeFields vueEnv parent child VUndef
     = (Ok (VObj VNull [("el", VStr "#b")]),
        [Warn (WInstanceOnly "el"); Warn (WInstanceOnly "el")]).
Proof.
  split; [reflexivity |]. split; [| reflexivity].
  intros H. inversion H as [| ? ? N _]; subst. apply N. left. reflexivity.
Qed.

(** ** What the normalizers leave alone *)

Lemma getp_inv v k x l :
  getp v k = (Ok x, l) -> isNullish v = false /\ x = get v k /\ l = [].
Proof.
  unfold getp. destruct (isNullish v); [discriminate |].
  intros E. inversion E. auto.
Qed.

Lemma assignM_inv o k v o' l :
  assignM o k v = (Ok o', l) -> assignable o k = true /\ o' = assign o k v /\ l = [].
Proof.
  unfold assignM. destruct (assignable o k).
  - intros E. inversion E. auto.
  - destruct (isNullish o); discriminate.
Qed.

Lemma get_assign_other o k k' v :
  k <> k' -> NilEmpty.uint_of_string k = None ->
  get (assign o k v) k' = get o k'.
Proof.
  intros N H. destruct o; try reflexivity; simpl.
  - rewrite key_idx_None by assumption. reflexivity.
  - rewrite assoc_put_other by assumption. reflexivity.
  - rewrite assoc_put_other by assumption. reflexivity.
Qed.

Lemma get_mutateAt_other o k k' x :
  k <> k' -> NilEmpty.uint_of_string k = None ->
  get (mutateAt o k x) k' = get o k'.
Proof.
  intros N H.
  induction o as [ | | b | n | s | xs | proto IHo own | id own
                  | c IHc p IHp | c IHc p IHp vm IHvm ]; try reflexivity; simpl.
  - rewrite key_idx_None by assumption. reflexivity.
  - destruct (assoc k own) eqn:E; simpl.
    + rewrite assoc_put_other by assumption. reflexivity.
    + rewrite IHo. reflexivity.
  - destruct (assoc k own) eqn:E; simpl; [| reflexivity].
    rewrite assoc_put_other by assumption. reflexivity.
Qed.

Lemma normalizeProps_inv options vm options' l :
  normalizeProps options vm = (Ok options', l) ->
  isNullish options = false
  /\ (options' = options
      \/ exists res, assignable options "props" = true
                     /\ options' = assign options "props" res).
Proof.
  unfold normalizeProps. intros E.
  apply bind_inv in E as (props & ? & ? & G & E & _).
  apply getp_inv in G as (Hn & _ & _). split; [exact Hn |].
  destruct (negb (truthy props)).
  - inversion E. auto.
  - apply bind_inv in E as (res & ? & ? & _ & E & _).
    apply assignM_inv in E as (A & -> & _). eauto.
Qed.

Lemma normalizeInject_inv options vm options' l :
  normalizeInject options vm = (Ok options', l) ->
  isNullish options = false
  /\ (options' = options
      \/ exists normalized, assignable options "inject" = true
                            /\ options' = assign options "inject" normalized).
Proof.
  unfold normalizeInject. intros E.
  apply bind_inv in E as (inject & ? & ? & G & E & _).
  apply getp_inv in G as (Hn & _ & _). split; [exact Hn |].
  destruct (negb (truthy inject)).
  - inversion E. auto.
  - apply bind_inv in E as (o1 & ? & ? & A & E & _).
    apply assignM_inv in A as (A & -> & _).
    apply bind_inv in E as (normalized & ? & ? & _ & E & _).
    inversion E. right. exists normalized. split; [exact A |].
    apply mutateAt_assigned; [exact A | reflexivity].
Qed.

Lemma normalizeDirectives_inv options options' l :
  normalizeDirectives options = (Ok options', l) ->
  isNullish options = false
  /\ (options' = options
      \/ exists dirs, options' = mutateAt options "directives" dirs).
Proof.
  unfold normalizeDirectives. intros E.
  apply bind_inv in E as (dirs & ? & ? & G & E & _).
  apply getp_inv in G as (Hn & _ & _). split; [exact Hn |].
  destruct (truthy dirs).
  - apply bind_inv in E as (dirs' & ? & ? & _ & E & _).
    inversion E. eauto.
  - inversion E. auto.
Qed.

Lemma normalizeProps_get options vm options' l k :
  normalizeProps options vm = (Ok options', l) -> k <> "props" ->
  get options' k = get options k.
Proof.
  intros E N. apply normalizeProps_inv in E as (_ & [-> | (res & _ & ->)]).
  - reflexivity.
  - apply get_assign_other; [congruence | reflexivity].
Qed.

Lemma normalizeInject_get options vm options' l k :
  normalizeInject options vm = (Ok options', l) -> k <> "inject" ->
  get options' k = get options k.
Proof.
  intros E N. apply normalizeInject_inv in E as (_ & [-> | (res & _ & ->)]).
  - reflexivity.
  - apply get_assign_other; [congruence | reflexivity].
Qed.

Lemma normalizeDirectives_get options options' l k :
  normalizeDirectives options = (Ok options', l) -> k <> "directives" ->
  get options' k = get options k.
Proof.
  intros E N. apply normalizeDirectives_inv in E as (_ & [-> | (res & ->)]).
  - reflexivity.
  - apply get_mutateAt_other; [congruence | reflexivity].
Qed.

(** ** mergeOptions: enough fuel *)

Lemma size_get_le v k : size (get v k) <= size v.
Proof.
  induction v as [ | | b | n | s | xs | proto IHv own | id own
                  | c IHc p IHp | c IHc p IHp vm IHvm ]; simpl; try lia.
  - unfold elemAt. destruct (k =? "length"); [simpl; lia |].
    destruct (key_idx _ k) as [i |]; [| simpl; lia].
    clear. revert i. induction s as [| c s IH]; intros [| i]; simpl; auto.
  - unfold elemAt. destruct (k =? "length"); [simpl; lia |].
    destruct (key_idx _ k) as [i |]; [| simpl; lia].
    pose proof (size_nth xs i). lia.
  - destruct (assoc k own) as [x |] eqn:E.
    + apply size_assoc in E. lia.
    + lia.
  - destruct (assoc k own) as [x |] eqn:E; [| simpl; lia].
    apply size_assoc in E. lia.
Qed.

(** A truthy value under a name that is neither an index nor [length] is
    smaller than its holder. *)
Lemma size_get_name v k :
  NilEmpty.uint_of_string k = None -> (k =? "length") = false ->
  truthy (get v k) = true -> size (get v k) < size v.
Proof.
  intros H L.
  induction v as [ | | b | n | s | xs | proto IHv own | id own
                  | c IHc p IHp | c IHc p IHp vm IHvm ]; simpl; try discriminate.
  - rewrite elemAt_name by assumption. discriminate.
  - rewrite elemAt_name by assumption. discriminate.
  - destruct (assoc k own) as [x |] eqn:E.
    + intros _. apply size_assoc in E. lia.
    + intros T. specialize (IHv T). lia.
  - destruct (assoc k own) as [x |] eqn:E; [| discriminate].
    intros _. apply size_assoc in E. lia.
Qed.

Lemma mixinStep_ext (f g : value -> value -> M (value * value)) acc mixin :
  (forall parent, f parent mixin = g parent mixin) ->
  mixinStep f acc mixin = mixinStep g acc mixin.
Proof. intros H. destruct acc as [parent done]. unfold mixinStep. rewrite H. reflexivity. Qed.

Lemma mergeOptions_fuel_irrel env vm n : forall m parent child,
  size child < n -> size child < m ->
  mergeOptions_fuel env n parent child vm = mergeOptions_fuel env m parent child vm.
Proof.
  induction n as [| n IH]; intros m parent child Hn Hm; [lia |].
  destruct m as [| m]; [lia |].
  rewrite !mergeOptions_fuel_S.
  apply bind_ext. intros _.
  apply bind_ext_ok. intros opts l0 E0.
  assert (S0 : size opts <= size child).
  { destruct (isFunction child).
    - apply getp_inv in E0 as (_ & -> & _). apply size_get_le.
    - inversion E0. lia. }
  apply bind_ext_ok. intros o1 l1 E1.
  apply bind_ext_ok. intros o2 l2 E2.
  apply bind_ext_ok. intros o3 l3 E3.
  assert (G : forall k, In k ["extends"; "mixins"] -> get o3 k = get opts k).
  { intros k I.
    rewrite (normalizeDirectives_get _ _ _ k E3),
            (normalizeInject_get _ _ _ _ k E2),
            (normalizeProps_get _ _ _ _ k E1);
      try reflexivity; simpl in I; intuition (subst; discriminate). }
  apply bind_ext_ok. intros ext l4 E4. apply getp_inv in E4 as (_ & -> & _).
  assert (X : (if truthy (get o3 "extends")
               then '(merged, e) <- mergeOptions_fuel env n parent (get o3 "extends") vm ;;
                    ret (merged, mutateAt o3 "extends" e)
               else ret (parent, o3))
              = (if truthy (get o3 "extends")
                 then '(merged, e) <- mergeOptions_fuel env m parent (get o3 "extends") vm ;;
                      ret (merged, mutateAt o3 "extends" e)
                 else ret (parent, o3))).
  { destruct (truthy (get o3 "extends")) eqn:T; [| reflexivity].
    rewrite G in * by (simpl; tauto).
    pose proof (size_get_name opts "extends" eq_refl eq_refl T).
    rewrite (IH m) by lia. reflexivity. }
  rewrite X. apply bind_ext_ok. intros [p1 o4] l5 E5.
  assert (G4 : get o4 "mixins" = get opts "mixins").
  { rewrite <- G by (simpl; tauto).
    destruct (truthy (get o3 "extends")).
    - apply bind_inv in E5 as ([merged e] & ? & ? & _ & E5 & _).
      inversion E5. apply get_mutateAt_other; [discriminate | reflexivity].
    - inversion E5. reflexivity. }
  apply bind_ext_ok. intros mixins l6 E6. apply getp_inv in E6 as (_ & -> & _).
  rewrite G4.
  destruct (truthy (get opts "mixins")) eqn:T; [| reflexivity].
  destruct (isArray (get opts "mixins")) eqn:A; [| reflexivity].
  pose proof (size_get_name opts "mixins" eq_refl eq_refl T) as L.
  destruct (get opts "mixins") as [ | | | | | ms | | | | ]; try discriminate.
  cbn [elements].
  rewrite (foldM_ext
             (mixinStep (fun p m0 => mergeOptions_fuel env n p m0 vm))
             (mixinStep (fun p m0 => mergeOptions_fuel env m p m0 vm))).
  - reflexivity.
  - intros acc x I. apply mixinStep_ext. intros p.
    pose proof (size_In x ms I). simpl in L. apply IH; lia.
Qed.

(** [mergeOptions], as the source writes it. *)
Lemma mergeOptions_eq env parent child vm :
  mergeOptions env parent child vm =
  (checkComponents env child ;;
   opts <- (if isFunction child then getp child "options" else ret child) ;;
   opts <- normalizeProps opts vm ;;
   opts <- normalizeInject opts vm ;;
   opts <- normalizeDirectives opts ;;
   extendsFrom <- getp opts "extends" ;;
   '(parent, opts) <-
     (if truthy extendsFrom then
        '(merged, e) <- mergeOptions env parent extendsFrom vm ;;
        ret (merged, mutateAt opts "extends" e)
      else ret (parent, opts)) ;;
   mixins <- getp opts "mixins" ;;
   '(parent, opts) <-
     (if truthy mixins then
        if isArray mixins then
          '(merged, ms) <-
            foldM (mixinStep (fun p m => mergeOptions env p m vm))
                  (elements mixins) (parent, []) ;;
          ret (merged, mutateAt opts "mixins" (VArr ms))
        else throw OutsideModel
      else ret (parent, opts)) ;;
   options <- mergeFields env parent opts vm ;;
   ret (options, if isFunction child then mutateAt child "options" opts else opts)).
Proof.
  unfold mergeOptions at 1. rewrite mergeOptions_fuel_S.
  apply bind_ext. intros _.
  apply bind_ext_ok. intros opts l0 E0.
  assert (S0 : size opts <= size child).
  { destruct (isFunction child).
    - apply getp_inv in E0 as (_ & -> & _). apply size_get_le.
    - inversion E0. lia. }
  apply bind_ext_ok. intros o1 l1 E1.
  apply bind_ext_ok. intros o2 l2 E2.
  apply bind_ext_ok. intros o3 l3 E3.
  assert (G : forall k, In k ["extends"; "mixins"] -> get o3 k = get opts k).
  { intros k I.
    rewrite (normalizeDirectives_get _ _ _ k E3),
            (normalizeInject_get _ _ _ _ k E2),
            (normalizeProps_get _ _ _ _ k E1);
      try reflexivity; simpl in I; intuition (subst; discriminate). }
  apply bind_ext_ok. intros ext l4 E4. apply getp_inv in E4 as (_ & -> & _).
  assert (X : (if truthy (get o3 "extends")
               then '(merged, e) <- mergeOptions_fuel env (size child) parent (get o3 "extends") vm ;;
                    ret (merged, mutateAt o3 "extends" e)
               else ret (parent, o3))
              = (if truthy (get o3 "extends")
                 then '(merged, e) <- mergeOptions env parent (get o3 "extends") vm ;;
                      ret (merged, mutateAt o3 "extends" e)
                 else ret (parent, o3))).
  { destruct (truthy (get o3 "extends")) eqn:T; [| reflexivity].
    rewrite G in * by (simpl; tauto).
    pose proof (size_get_name opts "extends" eq_refl eq_refl T).
    unfold mergeOptions.
    rewrite (mergeOptions_fuel_irrel env vm (size child) (S (size (get opts "extends"))))
      by lia.
    reflexivity. }
  rewrite X. apply bind_ext_ok. intros [p1 o4] l5 E5.
  assert (G4 : get o4 "mixins" = get opts "mixins").
  { rewrite <- G by (simpl; tauto).
    destruct (truthy (get o3 "extends")).
    - apply bind_inv in E5 as ([merged e] & ? & ? & _ & E5 & _).
      inversion E5. apply get_mutateAt_other; [discriminate | reflexivity].
    - inversion E5. reflexivity. }
  apply bind_ext_ok. intros mixins l6 E6. apply getp_inv in E6 as (_ & -> & _).
  rewrite G4.
  destruct (truthy (get opts "mixins")) eqn:T; [| reflexivity].
  destruct (isArray (get opts "mixins")) eqn:A; [| reflexivity].
  pose proof (size_get_name opts "mixins" eq_refl eq_refl T) as L.
  destruct (get opts "mixins") as [ | | | | | ms | | | | ]; try discriminate.
  cbn [elements].
  rewrite (foldM_ext
             (mixinStep (fun p m0 => mergeOptions_fuel env (size child) p m0 vm))
             (mixinStep (fun p m0 => mergeOptions env p m0 vm))).
  - reflexivity.
  - intros acc x I. apply mixinStep_ext. intros p.
    pose proof (size_In x ms I). simpl in L. unfold mergeOptions.
    apply mergeOptions_fuel_irrel; lia.
Qed.

(** ** Configuration objects *)

Lemma isRecord_plain v : isRecord v = true -> isPlainObject v = true.
Proof. destruct v; simpl; congruence. Qed.

Lemma isRecord_not_nullish v : isRecord v = true -> isNullish v = false.
Proof. destruct v; simpl; congruence. Qed.

Lemma isRecord_not_function v : isRecord v = true -> isFunction v = false.
Proof. destruct v; simpl; congruence. Qed.

Lemma record_get_forin v k : isRecord v = true -> get v k <> VUndef -> In k (forin v).
Proof.
  induction v as [ | | b | n | s | xs | proto IHv own | id own
                  | c IHc p IHp | c IHc p IHp vm IHvm ]; try discriminate.
  intros R G. cbn [forin]. apply In_dedup, in_or_app. cbn [get] in G.
  destruct (assoc k own) as [x |] eqn:E.
  - left. apply mem_In. eapply assoc_Some_mem, E.
  - right. apply IHv; [| exact G].
    simpl in R. destruct proto; try exact R; simpl in G; congruence.
Qed.

Lemma isRecord_assign v k x : isRecord v = true -> isRecord (assign v k x) = true.
Proof. destruct v; try discriminate. intros R. exact R. Qed.

Lemma mutateAt_obj_shape proto own k x :
  exists proto' own', mutateAt (VObj proto own) k x = VObj proto' own'.
Proof. cbn [mutateAt]. destruct (assoc k own); eauto. Qed.

Lemma isRecord_mutateAt v k x : isRecord v = true -> isRecord (mutateAt v k x) = true.
Proof.
  induction v as [ | | b | n | s | xs | proto IHv own | id own
                  | c IHc p IHp | c IHc p IHp vm IHvm ]; try discriminate.
  intros R. cbn [mutateAt]. destruct (assoc k own); [exact R |].
  simpl in R. destruct proto; try discriminate; try reflexivity.
  specialize (IHv R).
  destruct (mutateAt_obj_shape proto own0 k x) as (p' & o' & M).
  rewrite M in *. exact IHv.
Qed.

Lemma record_mutateAt_same v k x :
  isRecord v = true -> get v k <> VUndef -> get (mutateAt v k x) k = x.
Proof.
  induction v as [ | | b | n | s | xs | proto IHv own | id own
                  | c IHc p IHp | c IHc p IHp vm IHvm ]; try discriminate.
  intros R G. cbn [mutateAt]. cbn [get] in G.
  destruct (assoc k own) as [y |] eqn:E.
  - apply get_assign_obj_same.
  - cbn [get]. rewrite E. apply IHv; [| exact G].
    simpl in R. destruct proto; try exact R; simpl in G; congruence.
Qed.

Lemma truthy_defined v : truthy v = true -> v <> VUndef.
Proof. intros T ->. discriminate. Qed.

Lemma normalizeProps_record options vm options' l :
  normalizeProps options vm = (Ok options', l) -> isRecord options = true ->
  isRecord options' = true.
Proof.
  intros E R. apply normalizeProps_inv in E as (_ & [-> | (res & _ & ->)]).
  - exact R.
  - apply isRecord_assign, R.
Qed.

Lemma normalizeInject_record options vm options' l :
  normalizeInject options vm = (Ok options', l) -> isRecord options = true ->
  isRecord options' = true.
Proof.
  intros E R. apply normalizeInject_inv in E as (_ & [-> | (res & _ & ->)]).
  - exact R.
  - apply isRecord_assign, R.
Qed.

Lemma normalizeDirectives_record options options' l :
  normalizeDirectives options = (Ok options', l) -> isRecord options = true ->
  isRecord options' = true.
Proof.
  intros E R. apply normalizeDirectives_inv in E as (_ & [-> | (res & ->)]).
  - exact R.
  - apply isRecord_mutateAt, R.
Qed.

(** ** The default strategy in the field-merging pass *)

Lemma stratFor_default env f parentVal childVal vm :
  strats env f = None ->
  stratFor env f parentVal childVal vm f = ret (defaultStrat parentVal childVal).
Proof. intros H. unfold stratFor. rewrite H. reflexivity. Qed.

Lemma mergeField_loop_default env vm f ks : forall st st' l,
  strats env f = None ->
  foldM (mergeField env vm) ks st = (Ok st', l) ->
  isPlainObject (sc_options st) = true ->
  isPlainObject (sc_options st') = true
  /\ get (sc_options st') f
     = if mem f ks
       then defaultStrat (get (sc_parent st) f) (get (sc_child st) f)
       else get (sc_options st) f.
Proof.
  intros st st' l Hf. revert st st' l.
  induction ks as [| k ks IH]; intros st st' l E Ho.
  - inversion E; subst. auto.
  - cbn [foldM] in E. apply bind_inv in E as (st1 & l1 & l2 & E1 & E2 & _).
    pose proof (mergeField_frame _ _ _ _ _ _ E1) as (P1 & C1 & merged & O1).
    assert (Ho1 : isPlainObject (sc_options st1) = true)
      by (rewrite O1; apply assign_plain, Ho).
    destruct (IH _ _ _ E2 Ho1) as (Ho' & G). split; [exact Ho' |].
    rewrite G, P1, C1. change (mem f (k :: ks)) with ((f =? k) || mem f ks).
    destruct (mem f ks); [rewrite orb_true_r; reflexivity |].
    rewrite orb_false_r.
    destruct (String.eqb_spec f k) as [<- | N].
    + unfold mergeField in E1.
      apply bind_inv in E1 as (pv & ? & ? & Gp & E1 & _).
      apply bind_inv in E1 as (cv & ? & ? & Gc & E1 & _).
      apply getp_inv in Gp as (_ & -> & _). apply getp_inv in Gc as (_ & -> & _).
      rewrite stratFor_default, bind_ret in E1 by assumption.
      inversion E1; subst. cbn [sc_options]. rewrite get_assign by assumption.
      rewrite String.eqb_refl. reflexivity.
    + rewrite O1, get_assign by assumption.
      destruct (String.eqb_spec k f); [congruence | reflexivity].
Qed.

Lemma mergeFields_result env parent child vm r l :
  mergeFields env parent child vm = (Ok r, l) ->
  exists own, r = VObj VNull own.
Proof.
  unfold mergeFields. intros E.
  apply bind_inv in E as (st & l1 & l2 & E1 & E2 & _). inversion E2; subst.
  apply mergePass_frame in E1 as (_ & _ & own & Eo & _).
  eauto.
Qed.

Lemma mergeFields_default env parent child vm r l f :
  mergeFields env parent child vm = (Ok r, l) ->
  isRecord parent = true -> isRecord child = true ->
  strats env f = None ->
  get r f = defaultStrat (get parent f) (get child f).
Proof.
  unfold mergeFields. intros E Rp Rc Hf.
  apply bind_inv in E as (st & l1 & l2 & E1 & E2 & _). inversion E2; subst.
  rewrite mergePass_calls in E1.
  destruct (mergeField_loop_default env vm f _ _ _ _ Hf E1 eq_refl) as (_ & G).
  cbn [sc_parent sc_child sc_options] in G. rewrite G.
  destruct (mem f (mergeFieldCalls parent child)) eqn:I; [reflexivity |].
  apply mem_not_In in I.
  rewrite (mergeFieldCalls_plain parent child f (isRecord_plain _ Rp)) in I.
  assert (Gp : get parent f = VUndef).
  { destruct (get parent f) eqn:Ep; try reflexivity;
      exfalso; apply I; left; apply record_get_forin; congruence. }
  assert (Gc : get child f = VUndef).
  { destruct (get child f) eqn:Ec; try reflexivity;
      exfalso; apply I; right; apply record_get_forin; congruence. }
  rewrite Gp, Gc. reflexivity.
Qed.

(** ** The anatomy of a merge *)

Lemma checkComponents_inv env child l :
  checkComponents env child = (Ok tt, l) -> isNullish child = false.
Proof.
  unfold checkComponents. intros E.
  apply bind_inv in E as (c & ? & ? & G & _). apply getp_inv in G. tauto.
Qed.

(** A merge on a child that is a configuration object, step by step:
    normalization, the source [child] extends, the mixins, the fields. *)
Lemma mergeOptions_anatomy env parent child vm r child' l :
  isRecord child = true ->
  mergeOptions env parent child vm = (Ok (r, child'), l) ->
  exists c3 p1 c4 p2 l3,
    isRecord c3 = true
    /\ (forall k, ~ In k normalizedFields -> get c3 k = get child k)
    /\ ((truthy (get child "extends") = true
         /\ exists e' l1,
              mergeOptions env parent (get child "extends") vm = (Ok (p1, e'), l1)
              /\ c4 = mutateAt c3 "extends" e')
        \/ (truthy (get child "extends") = false /\ p1 = parent /\ c4 = c3))
    /\ ((truthy (get child "mixins") = true
         /\ exists ms ms' l2,
              get child "mixins" = VArr ms
              /\ foldM (mixinStep (fun p m => mergeOptions env p m vm)) ms (p1, [])
                 = (Ok (p2, ms'), l2)
              /\ child' = mutateAt c4 "mixins" (VArr ms'))
        \/ (truthy (get child "mixins") = false /\ p2 = p1 /\ child' = c4))
    /\ mergeFields env p2 child' vm = (Ok r, l3).
Proof.
  intros Rc E. rewrite mergeOptions_eq in E.
  rewrite (isRecord_not_function _ Rc) in E.
  apply bind_inv in E as (? & ? & ? & _ & E & _).
  rewrite bind_ret in E.
  apply bind_inv in E as (c1 & ? & ? & E1 & E & _).
  apply bind_inv in E as (c2 & ? & ? & E2 & E & _).
  apply bind_inv in E as (c3 & ? & ? & E3 & E & _).
  assert (R3 : isRecord c3 = true).
  { eapply normalizeDirectives_record; [exact E3 |].
    eapply normalizeInject_record; [exact E2 |].
    eapply normalizeProps_record; [exact E1 | exact Rc]. }
  assert (G3 : forall k, ~ In k normalizedFields -> get c3 k = get child k).
  { intros k N. unfold normalizedFields in N. simpl in N.
    rewrite (normalizeDirectives_get _ _ _ k E3),
            (normalizeInject_get _ _ _ _ k E2),
            (normalizeProps_get _ _ _ _ k E1); try reflexivity; intuition. }
  apply bind_inv in E as (ext & ? & ? & G & E & _).
  apply getp_inv in G as (_ & -> & _).
  apply bind_inv in E as ([p1 c4] & l5 & ? & E5 & E & _).
  apply bind_inv in E as (mx & ? & ? & G & E & _).
  apply getp_inv in G as (_ & -> & _).
  apply bind_inv in E as ([p2 c5] & l6 & ? & E6 & E & _).
  apply bind_inv in E as (options & l7 & ? & E7 & E & _).
  inversion E; subst.
  assert (Gx : get c3 "extends" = get child "extends")
    by (apply G3; unfold normalizedFields; simpl; intuition discriminate).
  assert (Gm : get c3 "mixins" = get child "mixins")
    by (apply G3; unfold normalizedFields; simpl; intuition discriminate).
  assert (G4 : get c4 "mixins" = get child "mixins").
  { rewrite <- Gm. destruct (truthy (get c3 "extends")).
    - apply bind_inv in E5 as ([merged e] & ? & ? & _ & E5 & _).
      inversion E5. apply get_mutateAt_other; [discriminate | reflexivity].
    - inversion E5. reflexivity. }
  exists c3, p1, c4, p2, l7. split; [exact R3 |]. split; [exact G3 |].
  rewrite Gx in E5. rewrite G4 in E6.
  split; [| split; [| exact E7]].
  - destruct (truthy (get child "extends")) eqn:T.
    + left. split; [reflexivity |].
      apply bind_inv in E5 as ([merged e] & l1 & ? & Em & E5 & _).
      inversion E5; subst. eauto.
    + right. inversion E5. auto.
  - destruct (truthy (get child "mixins")) eqn:T.
    + left. split; [reflexivity |].
      destruct (get child "mixins") as [ | | | | | ms | | | | ]; try discriminate.
      cbn [isArray elements] in E6.
      apply bind_inv in E6 as ([merged ms'] & l2 & ? & Em & E6 & _).
      inversion E6; subst. eauto 6.
    + right. inversion E6. auto.
Qed.

Lemma mergeOptions_result_record env parent child vm r child' l :
  mergeOptions env parent child vm = (Ok (r, child'), l) -> isRecord r = true.
Proof.
  intros E. rewrite mergeOptions_eq in E.
  do 6 (apply bind_inv in E as (? & ? & ? & _ & E & _)).
  apply bind_inv in E as ([p1 c4] & ? & ? & _ & E & _).
  apply bind_inv in E as (? & ? & ? & _ & E & _).
  apply bind_inv in E as ([p2 c5] & ? & ? & _ & E & _).
  apply bind_inv in E as (? & ? & ? & F & E & _). inversion E; subst.
  apply mergeFields_result in F as (own & ->). reflexivity.
Qed.

Lemma leafConfig_inv v :
  leafConfig v = true ->
  isRecord v = true /\ truthy (get v "extends") = false
  /\ truthy (get v "mixins") = false.
Proof.
  unfold leafConfig. intros H. split_orb_false.
  repeat split; try assumption; apply negb_false_iff; rewrite negb_involutive;
    assumption.
Qed.

(** Merging a configuration without ancestors of its own onto [parent]. *)
Lemma mergeOptions_leaf env parent x vm r x' l :
  leafConfig x = true -> isRecord parent = true ->
  mergeOptions env parent x vm = (Ok (r, x'), l) ->
  isRecord x' = true
  /\ (forall k, ~ In k normalizedFields -> get x' k = get x k)
  /\ forall f, strats env f = None ->
       get r f = defaultStrat (get parent f) (get x' f).
Proof.
  intros L Rp E. apply leafConfig_inv in L as (Rx & Tx & Tm).
  apply (mergeOptions_anatomy _ _ _ _ _ _ _ Rx) in E
    as (c3 & p1 & c4 & p2 & l3 & R3 & G3 & [[T _] | (_ & -> & ->)]
        & [[T' _] | (_ & -> & ->)] & F); try congruence.
  split; [exact R3 |]. split; [exact G3 |].
  intros f Hf. eapply mergeFields_default; eauto.
Qed.

Lemma defaultStrat_firstDefined p c rest :
  firstDefined (c :: p :: rest)
  = if isUndefined (defaultStrat p c) then firstDefined rest else defaultStrat p c.
Proof. unfold defaultStrat. simpl. destruct (isUndefined c) eqn:U; [| rewrite U]; reflexivity. Qed.

Lemma defaultStrat_chain p c : defaultStrat p c = firstDefined [c; p].
Proof. unfold defaultStrat. simpl. destruct (isUndefined c), (isUndefined p) eqn:U; try reflexivity. destruct p; try discriminate; reflexivity. Qed.

Lemma firstDefined_step c q rest :
  q = firstDefined rest -> defaultStrat q c = firstDefined (c :: rest).
Proof. intros ->. unfold defaultStrat. simpl. reflexivity. Qed.

Lemma strats_none_not_normalized env f :
  strats env f = None -> f <> "props" /\ f <> "inject".
Proof.
  unfold strats. intros H. split; intros ->; cbn in H; discriminate.
Qed.

(** C2.  For a parent [P] and a child [C] with [C.extends = E] and
    [C.mixins = [M1, M2]], [mergeOptions(P, C)] merges [E] onto [P], then
    [M1] onto that result, then [M2], and finally the fields of [C]; for a
    field under the default strategy the merged value is the child's value
    if not undefined, else that of the parent folded so far, which for
    ancestors without ancestors of their own reads: [C]'s value, else
    [M2]'s, else [M1]'s, else [E]'s, else [P]'s.  The values are those the
    objects hold after the call; they are the values held before it for
    every field but the ones a merge rewrites in place ([props], [inject],
    [directives], and in [C] also [extends] and [mixins]). *)
Theorem extends_then_mixins_then_child env P C E M1 M2 vm R C' log :
  isRecord P = true -> isRecord C = true ->
  get C "extends" = E -> truthy E = true ->
  get C "mixins" = VArr [M1; M2] ->
  mergeOptions env P C vm = (Ok (R, C'), log) ->
  exists R1 E' l1 R2 M1' l2 R3 M2' l3 l4,
    mergeOptions env P E vm = (Ok (R1, E'), l1)
    /\ mergeOptions env R1 M1 vm = (Ok (R2, M1'), l2)
    /\ mergeOptions env R2 M2 vm = (Ok (R3, M2'), l3)
    /\ mergeFields env R3 C' vm = (Ok R, l4)
    /\ get C' "extends" = E' /\ get C' "mixins" = VArr [M1'; M2']
    /\ (forall f, ~ In f (normalizedFields ++ ["extends"; "mixins"]) ->
          get C' f = get C f)
    /\ (forall f, strats env f = None ->
          get R f = defaultStrat (get R3 f) (get C' f))
    /\ (leafConfig E = true -> leafConfig M1 = true -> leafConfig M2 = true ->
        (forall f, ~ In f normalizedFields ->
           get E' f = get E f /\ get M1' f = get M1 f /\ get M2' f = get M2 f)
        /\ (forall f, strats env f = None ->
              get R f = firstDefined [get C' f; get M2' f; get M1' f; get E' f; get P f])
        /\ (forall f, strats env f = None ->
              ~ In f ["directives"; "extends"; "mixins"] ->
              get R f = firstDefined [get C f; get M2 f; get M1 f; get E f; get P f])).
Proof.
  intros RP RC HE TE HM Hrun.
  destruct (mergeOptions_anatomy _ _ _ _ _ _ _ RC Hrun)
    as (c3 & p1 & c4 & p2 & l4 & R3 & G3 & Hext & Hmix & F).
  rewrite HE in Hext. rewrite HM in Hmix.
  destruct Hext as [(_ & E' & l1 & Em1 & ->) | (T & _)]; [| congruence].
  destruct Hmix as [(_ & ms & ms' & l2 & Ems & Em2 & ->) | (T & _)]; [| discriminate].
  inversion Ems; subst ms. clear Ems.
  cbn [foldM] in Em2.
  apply bind_inv in Em2 as ([p1' d1] & ? & ? & S1 & Em2 & _).
  apply bind_inv in Em2 as ([p2' d2] & ? & ? & S2 & Em2 & _).
  inversion Em2; subst p2' d2. clear Em2.
  unfold mixinStep in S1, S2.
  apply bind_inv in S1 as ([R2 M1'] & la & ? & Ea & S1 & _).
  inversion S1; subst p1' d1. clear S1.
  apply bind_inv in S2 as ([R3' M2'] & lb & ? & Eb & S2 & _).
  inversion S2; subst p2 ms'. clear S2. cbn [app] in *.
  assert (Gx : get c3 "extends" = E)
    by (rewrite G3, HE; [reflexivity | unfold normalizedFields; simpl; intuition discriminate]).
  assert (Gm : get c3 "mixins" = VArr [M1; M2])
    by (rewrite G3, HM; [reflexivity | unfold normalizedFields; simpl; intuition discriminate]).
  set (c4 := mutateAt c3 "extends" E') in *.
  assert (R4 : isRecord c4 = true) by apply isRecord_mutateAt, R3.
  assert (G4m : get c4 "mixins" = VArr [M1; M2]).
  { unfold c4. rewrite get_mutateAt_other by (discriminate || reflexivity). exact Gm. }
  set (C' := mutateAt c4 "mixins" (VArr [M1'; M2'])) in *.
  assert (R5 : isRecord C' = true) by apply isRecord_mutateAt, R4.
  assert (RR3 : isRecord R3' = true) by (eapply mergeOptions_result_record; eauto).
  assert (RR2 : isRecord R2 = true) by (eapply mergeOptions_result_record; eauto).
  assert (RR1 : isRecord p1 = true) by (eapply mergeOptions_result_record; eauto).
  assert (GR : forall f, strats env f = None ->
                 get R f = defaultStrat (get R3' f) (get C' f)).
  { intros f Hf. eapply mergeFields_default; eauto. }
  assert (GC : forall f, ~ In f (normalizedFields ++ ["extends"; "mixins"]) ->
                 get C' f = get C f).
  { intros f N. unfold normalizedFields in N. simpl in N. unfold C', c4.
    rewrite !get_mutateAt_other by (reflexivity || intuition congruence).
    apply G3. unfold normalizedFields. simpl. intuition. }
  exists p1, E', l1, R2, M1', la, R3', M2', lb, l4.
  split; [exact Em1 |]. split; [exact Ea |]. split; [exact Eb |].
  split; [exact F |]. split; [| split; [| split; [exact GC | split; [exact GR |]]]].
  - unfold C'. rewrite get_mutateAt_other by (discriminate || reflexivity).
    unfold c4. apply record_mutateAt_same; [exact R3 |].
    rewrite Gx. apply truthy_defined, TE.
  - unfold C'. apply record_mutateAt_same; [exact R4 |]. rewrite G4m. discriminate.
  - intros LE L1 L2.
    destruct (mergeOptions_leaf _ _ _ _ _ _ _ LE RP Em1) as (_ & GE & DE).
    destruct (mergeOptions_leaf _ _ _ _ _ _ _ L1 RR1 Ea) as (_ & G1 & D1).
    destruct (mergeOptions_leaf _ _ _ _ _ _ _ L2 RR2 Eb) as (_ & G2 & D2).
    assert (Chain : forall f, strats env f = None ->
              get R f = firstDefined [get C' f; get M2' f; get M1' f; get E' f; get P f]).
    { intros f Hf. rewrite (GR f Hf), (D2 f Hf), (D1 f Hf), (DE f Hf).
      do 3 apply firstDefined_step. apply defaultStrat_chain. }
    split; [| split; [exact Chain |]].
    + intros f N. auto.
    + intros f Hf N. rewrite (Chain f Hf).
      destruct (strats_none_not_normalized _ _ Hf) as (Np & Ni).
      assert (Nn : ~ In f normalizedFields)
        by (unfold normalizedFields; simpl in *; intuition congruence).
      rewrite GC, (GE f Nn), (G1 f Nn), (G2 f Nn); [reflexivity |].
      unfold normalizedFields. simpl in *. intuition congruence.
Qed.

Lemma extends_then_mixins_then_child_witness :
  mergeOptions vueEnv exP exC VUndef = (Ok (exMerged, exC), [])
  /\ forall f, strats vueEnv f = None ->
       ~ In f ["directives"; "extends"; "mixins"] ->
       get exMerged f
       = firstDefined [get exC f; get exM2 f; get exM1 f; get exE f; get exP f].
Proof.
  split; [reflexivity |].
  destruct (extends_then_mixins_then_child vueEnv exP exC exE exM1 exM2 VUndef
              exMerged exC [] eq_refl eq_refl eq_refl eq_refl eq_refl eq_refl)
    as (R1 & E' & l1 & R2 & M1' & l2 & R3 & M2' & l3 & l4 & _ & _ & _ & _ & _ & _
        & _ & _ & H).
  apply H; reflexivity.
Defined.

(** ** Strategies complete on well-shaped parents *)

Lemma stratFor_kindOf env key :
  stratFor env key =
  match kindOf env key with
  | KProvide => provideStrat
  | KObject => objectStrat
  | KWatch => watchStrat env
  | KAsset => mergeAssets
  | KHook => mergeHook
  | KData => dataStrat
  | KRestricted => restrictedStrat
  | KDefault => fun parentVal childVal _ _ => ret (defaultStrat parentVal childVal)
  end.
Proof.
  unfold stratFor, strats, kindOf.
  repeat match goal with |- context [if ?b then _ else _] => destruct b end;
    reflexivity.
Qed.


Lemma extend_plain to from : isPlainObject to = true -> isPlainObject (extend to from) = true.
Proof. intros H. unfold extend. apply (fold_assign_plain (fun k => k) (get from)), H. Qed.






(** ** The normalizers complete *)










(** ** The field-merging pass completes *)





(** ** mergeOptions completes on well-shaped inputs *)

Lemma forallb_ext_in {A} (f g : A -> bool) l :
  (forall x, In x l -> f x = g x) -> forallb f l = forallb g l.
Proof.
  induction l as [| a l IH]; intros H; simpl; [reflexivity |].
  rewrite H by (left; reflexivity).
  rewrite IH by (intros; apply H; right; assumption). reflexivity.
Qed.

Lemma goodChild_fuel_irrel n : forall m child,
  size child < n -> size child < m -> goodChild_fuel n child = goodChild_fuel m child.
Proof.
  induction n as [| n IH]; intros m child Hn Hm; [lia |].
  destruct m as [| m]; [lia |]. cbn [goodChild_fuel].
  set (opts := if isFunction child then get child "options" else child).
  assert (S0 : size opts <= size child).
  { unfold opts. destruct (isFunction child); [apply size_get_le | lia]. }
  f_equal; [f_equal |].
  - destruct (truthy (get opts "extends")) eqn:T; [| reflexivity].
    pose proof (size_get_name opts "extends" eq_refl eq_refl T). apply IH; lia.
  - destruct (truthy (get opts "mixins")) eqn:T; [| reflexivity].
    pose proof (size_get_name opts "mixins" eq_refl eq_refl T) as L.
    f_equal. apply forallb_ext_in. intros x I.
    destruct (get opts "mixins") as [ | | | | | ms | | | | ]; try contradiction.
    cbn [elements] in I. pose proof (size_In x ms I). simpl in L. apply IH; lia.
Qed.

(** The size of [child] is fuel enough for the inspection: [goodChild]
    is the shape its definition describes. *)
Lemma goodChild_eq child :
  goodChild child =
  let opts := if isFunction child then get child "options" else child in
  negb (isNullish opts)
  && injectOK (get opts "inject")
  && directivesOK (get opts "directives")
  && watchOK (get opts "watch")
  && (if truthy (get opts "extends") then goodChild (get opts "extends") else true)
  && (if truthy (get opts "mixins")
      then isArray (get opts "mixins")
           && forallb goodChild (elements (get opts "mixins"))
      else true).
Proof.
  unfold goodChild at 1. cbn [goodChild_fuel]. cbv zeta.
  set (opts := if isFunction child then get child "options" else child).
  assert (S0 : size opts <= size child).
  { unfold opts. destruct (isFunction child); [apply size_get_le | lia]. }
  f_equal; [f_equal |].
  - destruct (truthy (get opts "extends")) eqn:T; [| reflexivity].
    pose proof (size_get_name opts "extends" eq_refl eq_refl T).
    apply goodChild_fuel_irrel; lia.
  - destruct (truthy (get opts "mixins")) eqn:T; [| reflexivity].
    pose proof (size_get_name opts "mixins" eq_refl eq_refl T) as L.
    f_equal. apply forallb_ext_in. intros x I.
    destruct (get opts "mixins") as [ | | | | | ms | | | | ]; try contradiction.
    cbn [elements] in I. pose proof (size_In x ms I). simpl in L.
    apply goodChild_fuel_irrel; lia.
Qed.



(** ** The recursions never run short of fuel *)

Lemma fuelSafe_ret {A} (a : A) : fuelSafe (ret a).
Proof. intros l. discriminate. Qed.

Lemma fuelSafe_warn w : fuelSafe (warn w).
Proof. intros l. discriminate. Qed.

Lemma fuelSafe_throw {A} e : e <> OutOfFuel -> fuelSafe (@throw A e).
Proof. intros N l E. inversion E. congruence. Qed.

Lemma fuelSafe_bind_ok {A B} (m : M A) (f : A -> M B) :
  fuelSafe m -> (forall a l, m = (Ok a, l) -> fuelSafe (f a)) -> fuelSafe (bind m f).
Proof.
  intros Hm Hf l E. unfold bind in E. destruct m as [[a | e] l0].
  - destruct (f a) as [r l'] eqn:Ef. inversion E; subst.
    apply (Hf a l0 eq_refl l'). exact Ef.
  - inversion E; subst. apply (Hm l). reflexivity.
Qed.

Lemma fuelSafe_bind {A B} (m : M A) (f : A -> M B) :
  fuelSafe m -> (forall a, fuelSafe (f a)) -> fuelSafe (bind m f).
Proof. intros Hm Hf. apply fuelSafe_bind_ok; auto. Qed.

Lemma fuelSafe_foldM {A S} (f : S -> A -> M S) xs : forall s,
  (forall s x, In x xs -> fuelSafe (f s x)) -> fuelSafe (foldM f xs s).
Proof.
  induction xs as [| x xs IH]; intros s H; cbn [foldM].
  - apply fuelSafe_ret.
  - apply fuelSafe_bind; [apply H; left; reflexivity |].
    intros s'. apply IH. intros. apply H. right. assumption.
Qed.

Lemma fuelSafe_getp v k : fuelSafe (getp v k).
Proof.
  unfold getp. destruct (isNullish v);
    [apply fuelSafe_throw; discriminate | apply fuelSafe_ret].
Qed.

Lemma fuelSafe_assignM o k v : fuelSafe (assignM o k v).
Proof.
  unfold assignM. destruct (assignable o k); [apply fuelSafe_ret |].
  destruct (isNullish o); apply fuelSafe_throw; discriminate.
Qed.

Lemma fuelSafe_toKey v : fuelSafe (toKey v).
Proof.
  destruct v; try (apply fuelSafe_ret); try (apply fuelSafe_throw; discriminate).
  destruct b; apply fuelSafe_ret.
Qed.

Lemma fuelSafe_concatM p v : fuelSafe (concatM p v).
Proof.
  destruct p; cbn [concatM];
    try (apply fuelSafe_ret); try (apply fuelSafe_throw; discriminate);
    destruct (isUndefined _); apply fuelSafe_throw; discriminate.
Qed.

Lemma fuelSafe_objectCreate p : fuelSafe (objectCreate p).
Proof.
  destruct p; cbn [objectCreate isObjectLike];
    try (apply fuelSafe_ret); apply fuelSafe_throw; discriminate.
Qed.

Lemma fuelSafe_set target key val : fuelSafe (set target key val).
Proof. destruct target; intros l; discriminate. Qed.

Lemma fuelSafe_assertObjectType name v vm : fuelSafe (assertObjectType name v vm).
Proof.
  unfold assertObjectType. destruct (negb (isPlainObject v));
    [apply fuelSafe_warn | apply fuelSafe_ret].
Qed.

Ltac fuel_safe :=
  repeat first
    [ apply fuelSafe_ret | apply fuelSafe_warn | apply fuelSafe_getp
    | apply fuelSafe_assignM | apply fuelSafe_toKey | apply fuelSafe_concatM
    | apply fuelSafe_objectCreate | apply fuelSafe_set
    | apply fuelSafe_assertObjectType
    | apply fuelSafe_throw; discriminate
    | apply fuelSafe_bind; [| intros]
    | apply fuelSafe_foldM; intros
    | match goal with
      | |- fuelSafe (if ?b then _ else _) => destruct b
      | |- fuelSafe (match ?v with _ => _ end) => destruct v
      end ].

Lemma mergeData_fuelSafe_lt n : forall from to, size from < n -> fuelSafe (mergeData to from).
Proof.
  induction n as [| n IH]; intros from to Hn; [lia |].
  rewrite mergeData_eq. destruct (negb (truthy from)); [apply fuelSafe_ret |].
  apply fuelSafe_foldM. intros t key _. unfold mergeDataStep.
  apply fuelSafe_bind; [apply fuelSafe_getp |]. intros toVal.
  destruct (negb (hasOwn t key)); [apply fuelSafe_set |].
  destruct (isPlainObject toVal); [| apply fuelSafe_ret].
  destruct (isPlainObject (get from key)) eqn:P; [| apply fuelSafe_ret].
  cbn [andb]. apply fuelSafe_bind; [| intros; apply fuelSafe_ret].
  apply IH. pose proof (size_get_object from key (plain_objectLike _ P)). lia.
Qed.

(** [mergeData] never stops for want of fuel. *)
Lemma mergeData_fuelSafe to from : fuelSafe (mergeData to from).
Proof. apply (mergeData_fuelSafe_lt (S (size from))). lia. Qed.

Lemma fuelSafe_stratFor env key parentVal childVal vm :
  fuelSafe (stratFor env key parentVal childVal vm key).
Proof.
  rewrite stratFor_kindOf. destruct (kindOf env key);
    unfold provideStrat, objectStrat, watchStrat, mergeAssets, mergeHook, dataStrat,
      restrictedStrat; fuel_safe.
Qed.

Lemma fuelSafe_mergeFields env parent child vm : fuelSafe (mergeFields env parent child vm).
Proof.
  unfold mergeFields. rewrite mergePass_calls.
  apply fuelSafe_bind; [| intros; apply fuelSafe_ret].
  apply fuelSafe_foldM. intros st key _. unfold mergeField.
  fuel_safe. apply fuelSafe_stratFor.
Qed.

Lemma fuelSafe_checkComponents env child : fuelSafe (checkComponents env child).
Proof. unfold checkComponents, validateComponentName. fuel_safe. Qed.

Lemma fuelSafe_normalizeProps options vm : fuelSafe (normalizeProps options vm).
Proof. unfold normalizeProps, propsArrayStep, propsObjectStep. fuel_safe. Qed.

Lemma fuelSafe_normalizeInject options vm : fuelSafe (normalizeInject options vm).
Proof. unfold normalizeInject, injectArrayStep, injectObjectStep. fuel_safe. Qed.

Lemma fuelSafe_normalizeDirectives options : fuelSafe (normalizeDirectives options).
Proof. unfold normalizeDirectives, directiveStep. fuel_safe. Qed.

Lemma mergeOptions_fuelSafe_lt env vm n : forall parent child,
  size child < n -> fuelSafe (mergeOptions env parent child vm).
Proof.
  induction n as [| n IH]; intros parent child Hn; [lia |].
  rewrite mergeOptions_eq.
  apply fuelSafe_bind; [apply fuelSafe_checkComponents |]. intros _.
  apply fuelSafe_bind_ok; [destruct (isFunction child); fuel_safe |].
  intros opts l0 E0.
  assert (S0 : size opts <= size child).
  { destruct (isFunction child).
    - apply getp_inv in E0 as (_ & -> & _). apply size_get_le.
    - inversion E0. lia. }
  apply fuelSafe_bind_ok; [apply fuelSafe_normalizeProps |]. intros o1 l1 E1.
  apply fuelSafe_bind_ok; [apply fuelSafe_normalizeInject |]. intros o2 l2 E2.
  apply fuelSafe_bind_ok; [apply fuelSafe_normalizeDirectives |]. intros o3 l3 E3.
  assert (G : forall k, In k ["extends"; "mixins"] -> get o3 k = get opts k).
  { intros k I.
    rewrite (normalizeDirectives_get _ _ _ k E3),
            (normalizeInject_get _ _ _ _ k E2),
            (normalizeProps_get _ _ _ _ k E1);
      try reflexivity; simpl in I; intuition (subst; discriminate). }
  apply fuelSafe_bind_ok; [apply fuelSafe_getp |]. intros ext l4 E4.
  apply getp_inv in E4 as (_ & -> & _).
  apply fuelSafe_bind_ok.
  { destruct (truthy (get o3 "extends")) eqn:T; [| apply fuelSafe_ret].
    apply fuelSafe_bind; [| intros [merged e]; apply fuelSafe_ret].
    apply IH. rewrite G in * by (simpl; tauto).
    pose proof (size_get_name opts "extends" eq_refl eq_refl T). lia. }
  intros [p1 o4] l5 E5.
  assert (G4 : get o4 "mixins" = get opts "mixins").
  { rewrite <- G by (simpl; tauto).
    destruct (truthy (get o3 "extends")).
    - apply bind_inv in E5 as ([merged e] & ? & ? & _ & E5 & _).
      inversion E5. apply get_mutateAt_other; [discriminate | reflexivity].
    - inversion E5. reflexivity. }
  apply fuelSafe_bind_ok; [apply fuelSafe_getp |]. intros mixins l6 E6.
  apply getp_inv in E6 as (_ & -> & _). rewrite G4.
  apply fuelSafe_bind.
  { destruct (truthy (get opts "mixins")) eqn:T; [| apply fuelSafe_ret].
    destruct (isArray (get opts "mixins")) eqn:A;
      [| apply fuelSafe_throw; discriminate].
    pose proof (size_get_name opts "mixins" eq_refl eq_refl T) as L.
    destruct (get opts "mixins") as [ | | | | | ms | | | | ]; try discriminate.
    cbn [elements].
    apply fuelSafe_bind; [| intros [merged ms']; apply fuelSafe_ret].
    apply fuelSafe_foldM. intros [p done] x I. unfold mixinStep.
    apply fuelSafe_bind; [| intros [merged m']; apply fuelSafe_ret].
    apply IH. pose proof (size_In x ms I). simpl in L. lia. }
  intros [p2 o5]. apply fuelSafe_bind; [apply fuelSafe_mergeFields |].
  intros. apply fuelSafe_ret.
Qed.

(** [mergeOptions] never stops for want of fuel: the size of [child] is
    fuel enough on every input. *)
Lemma mergeOptions_fuelSafe env parent child vm :
  fuelSafe (mergeOptions env parent child vm).
Proof. apply (mergeOptions_fuelSafe_lt env vm (S (size child))). lia. Qed.

(** ** Anomalies *)









Example well_shaped_example :
  goodParent vueEnv exP = true /\ goodChild exC = true
  /\ goodChild (VFun 9 [("options", exC)]) = true.
Proof. repeat split. Qed.


(** * Further properties *)

(** ** Fields of the merged options *)

Lemma hasOwn_assign v k x k' :
  isPlainObject v = true ->
  hasOwn (assign v k x) k' = (k =? k') || hasOwn v k'.
Proof.
  destruct v; try discriminate. intros _. cbn [assign].
  rewrite !hasOwn_obj_assoc.
  destruct (String.eqb_spec k k') as [<- | N].
  - rewrite assoc_put_same. reflexivity.
  - rewrite assoc_put_other by assumption. reflexivity.
Qed.

Lemma mergeField_inv env vm st key st' l :
  mergeField env vm st key = (Ok st', l) ->
  exists merged,
    stratFor env key (get (sc_parent st) key) (get (sc_child st) key) vm key
    = (Ok merged, l)
    /\ st' = mkScope (sc_parent st) (sc_child st) (assign (sc_options st) key merged).
Proof.
  unfold mergeField. intros E.
  apply bind_inv in E as (pv & ? & ? & Gp & E & ->).
  apply bind_inv in E as (cv & ? & ? & Gc & E & ->).
  apply bind_inv in E as (merged & l1 & ? & Es & E & ->).
  apply getp_inv in Gp as (_ & -> & ->). apply getp_inv in Gc as (_ & -> & ->).
  inversion E; subst. exists merged. rewrite app_nil_r. auto.
Qed.

Lemma mergeField_loop_value env vm ks : forall st st' l,
  foldM (mergeField env vm) ks st = (Ok st', l) ->
  isPlainObject (sc_options st) = true ->
  l = flat_map (stratLog env (sc_parent st) (sc_child st) vm) ks
  /\ forall f,
       if mem f ks
       then exists v,
              run (stratFor env f (get (sc_parent st) f) (get (sc_child st) f) vm f)
              = Ok v
              /\ get (sc_options st') f = v /\ hasOwn (sc_options st') f = true
       else get (sc_options st') f = get (sc_options st) f
            /\ hasOwn (sc_options st') f = hasOwn (sc_options st) f.
Proof.
  induction ks as [| k ks IH]; intros st st' l E Ho.
  - inversion E; subst. split; [reflexivity |]. intros f. cbn. auto.
  - cbn [foldM] in E. apply bind_inv in E as (st1 & l1 & l2 & E1 & E2 & ->).
    apply mergeField_inv in E1 as (merged & Es & ->).
    assert (Ho1 : isPlainObject (assign (sc_options st) k merged) = true)
      by (apply assign_plain, Ho).
    destruct (IH _ _ _ E2 Ho1) as (L & G). cbn [sc_parent sc_child sc_options] in *.
    split.
    + cbn [flat_map]. unfold stratLog at 1. rewrite Es. cbn [logOf snd]. congruence.
    + intros f. specialize (G f).
      change (mem f (k :: ks)) with ((f =? k) || mem f ks).
      destruct (mem f ks); [rewrite orb_true_r; exact G |].
      rewrite orb_false_r. destruct G as (G1 & G2).
      rewrite G1, G2, get_assign, hasOwn_assign by assumption.
      rewrite (String.eqb_sym f k).
      destruct (String.eqb_spec k f) as [-> | N]; [| auto].
      exists merged. rewrite Es. auto.
Qed.

(** X1.  Every field on which the closing pass of [mergeOptions] calls
    [mergeField] holds, in the merged options, what the strategy registered
    for its name (the default strategy when none is) returns for the
    parent's and the child's value of that field; the merged options own
    that field and no other; and the warnings of the pass are those of the
    strategies, in the order of the calls. *)
Theorem merged_field_is_strategy_result env parent child vm r log :
  mergeFields env parent child vm = (Ok r, log) ->
  (forall key, In key (mergeFieldCalls parent child) ->
     exists v,
       run (stratFor env key (get parent key) (get child key) vm key) = Ok v
       /\ get r key = v /\ hasOwn r key = true)
  /\ (forall key, ~ In key (mergeFieldCalls parent child) ->
        get r key = VUndef /\ hasOwn r key = false)
  /\ log = flat_map (stratLog env parent child vm) (mergeFieldCalls parent child).
Proof.
  unfold mergeFields. intros E.
  apply bind_inv in E as (st & l1 & l2 & E1 & E2 & ->). inversion E2; subst.
  rewrite mergePass_calls in E1.
  destruct (mergeField_loop_value _ _ _ _ _ _ E1 eq_refl) as (L & G).
  cbn [sc_parent sc_child sc_options] in *.
  split; [| split].
  - intros key I. specialize (G key). apply mem_In in I. rewrite I in G. exact G.
  - intros key I. specialize (G key). apply mem_not_In in I. rewrite I in G. exact G.
  - rewrite app_nil_r. exact L.
Qed.

Lemma merged_field_is_strategy_result_witness :
  exists v,
    run (stratFor vueEnv "created" (get (VObj VNull [("created", VArr [VFun 3 []])]) "created")
           (get (VObj VNull [("created", VFun 4 [])]) "created") VUndef "created") = Ok v
    /\ get (VObj VNull [("created", VArr [VFun 3 []; VFun 4 []])]) "created" = v
    /\ hasOwn (VObj VNull [("created", VArr [VFun 3 []; VFun 4 []])]) "created" = true.
Proof.
  apply (proj1 (merged_field_is_strategy_result vueEnv
                  (VObj VNull [("created", VArr [VFun 3 []])])
                  (VObj VNull [("created", VFun 4 [])]) VUndef
                  (VObj VNull [("created", VArr [VFun 3 []; VFun 4 []])]) []
                  eq_refl) "created").
  cbn. auto.
Defined.

(** ** Copies made by [extend] *)

Lemma find_eqb_mem k ks :
  find (fun k' => k' =? k) ks = if mem k ks then Some k else None.
Proof.
  induction ks as [| a ks IH]; [reflexivity |].
  cbn [find]. change (mem k (a :: ks)) with ((k =? a) || mem k ks).
  rewrite (String.eqb_sym k a).
  destruct (String.eqb_spec a k) as [-> | N]; [reflexivity | exact IH].
Qed.

Lemma mem_rev k ks : mem k (rev ks) = mem k ks.
Proof.
  apply eq_true_iff_eq. rewrite !mem_In. symmetry. apply in_rev.
Qed.

Lemma get_extend to from k :
  isPlainObject to = true ->
  get (extend to from) k = if mem k (ownKeys from) then get from k else get to k.
Proof.
  intros H. unfold extend.
  rewrite (get_fold_assign (fun k => k) (get from)) by assumption.
  rewrite find_eqb_mem, mem_rev. destruct (mem k (ownKeys from)); reflexivity.
Qed.

Lemma hasOwn_fold_assign {A} (g : A -> string) (w : A -> value) ks r name :
  isPlainObject r = true ->
  hasOwn (fold_left (fun r k => assign r (g k) (w k)) ks r) name
  = mem name (map g ks) || hasOwn r name.
Proof.
  revert r. induction ks as [| k ks IH]; intros r H; cbn [fold_left map].
  - reflexivity.
  - rewrite IH by (apply assign_plain, H). rewrite hasOwn_assign by assumption.
    change (mem name (g k :: map g ks)) with ((name =? g k) || mem name (map g ks)).
    rewrite (String.eqb_sym name (g k)).
    destruct (g k =? name), (mem name (map g ks)); reflexivity.
Qed.

Lemma hasOwn_extend to from k :
  isPlainObject to = true ->
  hasOwn (extend to from) k = mem k (ownKeys from) || hasOwn to k.
Proof.
  intros H. unfold extend.
  rewrite (hasOwn_fold_assign (fun k => k) (get from)) by assumption.
  rewrite map_id. reflexivity.
Qed.

Lemma mem_ownKeys_plain v k :
  isPlainObject v = true -> mem k (ownKeys v) = hasOwn v k.
Proof.
  destruct v; try discriminate. intros _. cbn [ownKeys hasOwn].
  apply eq_true_iff_eq. rewrite !mem_In. apply In_dedup.
Qed.

Lemma extend_shape proto own from :
  exists own', extend (VObj proto own) from = VObj proto own'.
Proof.
  unfold extend. generalize (ownKeys from). intros ks. revert own.
  induction ks as [| k ks IH]; intros own; cbn [fold_left]; eauto.
Qed.

(** ** Asset registries *)

(** X2.  [mergeAssets] on a parent registry that is an object (or
    absent) and a child registry written as a plain object without
    prototype: the result is a new object whose prototype is the parent
    registry (none when the parent is absent) and whose own properties are
    those of the child, so that a name reads the child's entry when the
    child has one and the parent's otherwise; nothing is reported.  A
    parent that is truthy and not an object makes the merge raise. *)
Theorem mergeAssets_child_over_parent parentVal childVal vm key :
  (fieldOK KAsset parentVal = true -> bare childVal = true ->
   exists own,
     let res := VObj (orElse parentVal VNull) own in
     mergeAssets parentVal childVal vm key = (Ok res, [])
     /\ (forall k, hasOwn res k = hasOwn childVal k)
     /\ (forall k, get res k
                   = if hasOwn childVal k then get childVal k
                     else if truthy parentVal then get parentVal k else VUndef))
  /\ (fieldOK KAsset parentVal = true -> truthy childVal = false ->
      mergeAssets parentVal childVal vm key
      = (Ok (VObj (orElse parentVal VNull) []), []))
  /\ (truthy parentVal = true -> isObjectLike parentVal = false ->
      mergeAssets parentVal childVal vm key = (Throw TypeError, [])).
Proof.
  assert (C : fieldOK KAsset parentVal = true ->
              objectCreate (orElse parentVal VNull)
              = ret (VObj (orElse parentVal VNull) [])).
  { cbn [fieldOK]. unfold orElse. intros H. destruct (truthy parentVal) eqn:T.
    - cbn [negb orb] in H. unfold objectCreate. rewrite H.
      destruct parentVal; try discriminate; reflexivity.
    - reflexivity. }
  split; [| split].
  - intros Hp Hc. unfold mergeAssets. rewrite (C Hp), bind_ret.
    destruct childVal as [ | | | | | | cp cown | | | ]; try discriminate.
    destruct cp; try discriminate. cbn [truthy assertObjectType isPlainObject negb].
    rewrite bind_ret.
    destruct (extend_shape (orElse parentVal VNull) [] (VObj VNull cown)) as (own & E).
    exists own. cbv zeta. rewrite E. split; [reflexivity |].
    rewrite <- E. split.
    + intros k. rewrite hasOwn_extend, mem_ownKeys_plain by reflexivity.
      cbn [hasOwn keys map mem existsb]. apply orb_false_r.
    + intros k. rewrite get_extend, mem_ownKeys_plain by reflexivity.
      destruct (hasOwn (VObj VNull cown) k); [reflexivity |].
      cbn [get assoc]. unfold orElse. destruct (truthy parentVal); reflexivity.
  - intros Hp Hc. unfold mergeAssets. rewrite (C Hp), bind_ret, Hc. reflexivity.
  - intros T O. unfold mergeAssets, orElse. rewrite T. unfold objectCreate. rewrite O.
    destruct parentVal; try discriminate; reflexivity.
Qed.

(** ** Object hashes: props, methods, inject, computed *)

(** X3.  The strategy of [props], [methods], [inject] and [computed]
    on two plain objects without prototype: the result is a new object
    without prototype in which a name reads the child's entry when the child
    has one and the parent's otherwise, and which owns exactly the names
    either of them owns; nothing is reported.  Without a parent value the
    child's value is returned as it is, after a warning when it is not a
    plain object; without a child value the result is a copy of the
    parent's own entries. *)
Theorem objectStrat_child_wins parentVal childVal vm key :
  (bare parentVal = true -> bare childVal = true ->
   exists own,
     objectStrat parentVal childVal vm key = (Ok (VObj VNull own), [])
     /\ (forall k, get (VObj VNull own) k
                   = if hasOwn childVal k then get childVal k else get parentVal k)
     /\ (forall k, hasOwn (VObj VNull own) k = hasOwn childVal k || hasOwn parentVal k))
  /\ (truthy parentVal = false ->
      objectStrat parentVal childVal vm key
      = (Ok childVal,
         if truthy childVal && negb (isPlainObject childVal)
         then [Warn (WNotAnObject key (toRawType childVal))] else []))
  /\ (bare parentVal = true -> truthy childVal = false ->
      exists own,
        objectStrat parentVal childVal vm key = (Ok (VObj VNull own), [])
        /\ forall k, get (VObj VNull own) k = get parentVal k).
Proof.
  split; [| split].
  - intros Hp Hc.
    destruct parentVal as [ | | | | | | pp pown | | | ]; try discriminate.
    destruct pp; try discriminate.
    destruct childVal as [ | | | | | | cp cown | | | ]; try discriminate.
    destruct cp; try discriminate.
    unfold objectStrat. cbn [truthy assertObjectType isPlainObject negb].
    rewrite bind_ret. unfold emptyObject.
    destruct (extend_shape VNull [] (VObj VNull pown)) as (own1 & E1).
    destruct (extend_shape VNull own1 (VObj VNull cown)) as (own2 & E2).
    exists own2. rewrite E1, E2. split; [reflexivity |].
    rewrite <- E2, <- E1. split; intros k.
    + rewrite !get_extend, !mem_ownKeys_plain
        by (reflexivity || apply extend_plain; reflexivity).
      destruct (hasOwn (VObj VNull cown) k); [reflexivity |].
      destruct (hasOwn (VObj VNull pown) k) eqn:H; [reflexivity |].
      rewrite hasOwn_obj_assoc in H. cbn [get assoc].
      destruct (assoc k pown); [discriminate | reflexivity].
    + rewrite !hasOwn_extend, !mem_ownKeys_plain
        by (reflexivity || apply extend_plain; reflexivity).
      cbn [hasOwn keys map mem existsb]. rewrite orb_false_r. reflexivity.
  - intros T. unfold objectStrat. rewrite T. cbn [negb]. unfold assertObjectType.
    destruct (truthy childVal); cbn [andb];
      [destruct (negb (isPlainObject childVal)) |]; reflexivity.
  - intros Hp Tc.
    destruct parentVal as [ | | | | | | pp pown | | | ]; try discriminate.
    destruct pp; try discriminate.
    unfold objectStrat. rewrite Tc. cbn [truthy negb]. rewrite bind_ret.
    unfold emptyObject.
    destruct (extend_shape VNull [] (VObj VNull pown)) as (own1 & E1).
    exists own1. rewrite E1. split; [reflexivity |]. rewrite <- E1. intros k.
    rewrite get_extend, mem_ownKeys_plain by reflexivity.
    destruct (hasOwn (VObj VNull pown) k) eqn:H; [reflexivity |].
    rewrite hasOwn_obj_assoc in H. cbn [get assoc].
    destruct (assoc k pown); [discriminate | reflexivity].
Qed.

(** ** Reading a field of the merged options *)

Lemma mergeFields_value env parent child vm r log key :
  mergeFields env parent child vm = (Ok r, log) ->
  In key (mergeFieldCalls parent child) ->
  exists v,
    run (stratFor env key (get parent key) (get child key) vm key) = Ok v
    /\ get r key = v.
Proof.
  unfold mergeFields. intros E I.
  apply bind_inv in E as (st & l1 & l2 & E1 & E2 & ->). inversion E2; subst.
  rewrite mergePass_calls in E1.
  destruct (mergeField_loop_value _ _ _ _ _ _ E1 eq_refl) as (_ & G).
  specialize (G key). apply mem_In in I. rewrite I in G.
  destruct G as (v & G1 & G2 & _). eauto.
Qed.

Lemma mergeOptions_leaf_fields env parent x vm r x' l :
  leafConfig x = true ->
  mergeOptions env parent x vm = (Ok (r, x'), l) ->
  isRecord x' = true
  /\ (forall k, ~ In k normalizedFields -> get x' k = get x k)
  /\ exists l3, mergeFields env parent x' vm = (Ok r, l3).
Proof.
  intros L E. apply leafConfig_inv in L as (Rx & Tx & Tm).
  apply (mergeOptions_anatomy _ _ _ _ _ _ _ Rx) in E
    as (c3 & p1 & c4 & p2 & l3 & R3 & G3 & [[T _] | (_ & -> & ->)]
        & [[T' _] | (_ & -> & ->)] & F); try congruence.
  eauto.
Qed.

Lemma objectCreate_inv p r l :
  objectCreate p = (Ok r, l) -> r = VObj p [] /\ l = [].
Proof.
  unfold objectCreate. destruct p; cbn [isObjectLike]; intros E;
    inversion E; auto.
Qed.

Lemma run_inv {A} (m : M A) a : run m = Ok a -> exists l, m = (Ok a, l).
Proof. destruct m as [o l]. cbn. intros ->. eauto. Qed.

Lemma mergeAssets_inv parentVal cown vm key r l :
  mergeAssets parentVal (VObj VNull cown) vm key = (Ok r, l) ->
  l = [] /\ r = extend (VObj (orElse parentVal VNull) []) (VObj VNull cown).
Proof.
  unfold mergeAssets. intros E.
  apply bind_inv in E as (res & l1 & l2 & C & E & ->).
  apply objectCreate_inv in C as (-> & ->).
  cbn [truthy assertObjectType isPlainObject negb] in E. rewrite bind_ret in E.
  inversion E; subst. auto.
Qed.

Lemma plain_not_nullish v : isPlainObject v = true -> isNullish v = false.
Proof. destruct v; simpl; congruence. Qed.

Lemma registry_get p cown k :
  get (extend (VObj p []) (VObj VNull cown)) k
  = if hasOwn (VObj VNull cown) k then get (VObj VNull cown) k else get p k.
Proof.
  rewrite get_extend, mem_ownKeys_plain by reflexivity.
  destruct (hasOwn (VObj VNull cown) k); reflexivity.
Qed.

Lemma registry_hasOwn p cown k :
  hasOwn (extend (VObj p []) (VObj VNull cown)) k = hasOwn (VObj VNull cown) k.
Proof.
  rewrite hasOwn_extend, mem_ownKeys_plain by reflexivity.
  cbn [hasOwn keys map mem existsb]. apply orb_false_r.
Qed.

(** ** Watchers *)

Lemma watchStep_eq childVal r key :
  watchStep childVal r key
  = ret (assign r key (mergedWatchers (get r key) (get childVal key))).
Proof.
  unfold watchStep, mergedWatchers.
  destruct (truthy (get r key)) eqn:T.
  - destruct (isArray (get r key)) eqn:A; cbn [andb negb].
    + rewrite T. destruct (get r key); try discriminate. cbn [concatM asList].
      rewrite bind_ret. unfold concatArr. destruct (get childVal key); reflexivity.
    + cbn [truthy concatM asList]. rewrite bind_ret.
      replace (asList (get r key)) with [get r key]
        by (destruct (get r key); try reflexivity; discriminate).
      unfold concatArr. destruct (get childVal key); reflexivity.
  - cbn [andb]. rewrite T.
    destruct (get childVal key); cbn [isArray asList app]; rewrite bind_ret; reflexivity.
Qed.

Lemma watch_loop childVal ks : forall r,
  isPlainObject r = true -> NoDup ks ->
  exists r',
    foldM (watchStep childVal) ks r = (Ok r', [])
    /\ isPlainObject r' = true
    /\ (forall k, get r' k
                  = if mem k ks then mergedWatchers (get r k) (get childVal k)
                    else get r k)
    /\ (forall k, hasOwn r' k = mem k ks || hasOwn r k).
Proof.
  induction ks as [| a ks IH]; intros r H ND.
  - exists r. cbn. auto.
  - inversion ND as [| ? ? Na ND']; subst.
    destruct (IH (assign r a (mergedWatchers (get r a) (get childVal a))))
      as (r' & E & P & G & O); [apply assign_plain, H | exact ND' |].
    exists r'. split; [| split; [exact P | split]].
    + cbn [foldM]. rewrite watchStep_eq, bind_ret. exact E.
    + intros k. rewrite G, get_assign by assumption.
      change (mem k (a :: ks)) with ((k =? a) || mem k ks).
      rewrite (String.eqb_sym k a).
      destruct (String.eqb_spec a k) as [-> | N]; cbn [orb]; [| reflexivity].
      apply mem_not_In in Na. rewrite Na. reflexivity.
    + intros k. rewrite O, hasOwn_assign by assumption.
      change (mem k (a :: ks)) with ((k =? a) || mem k ks).
      rewrite (String.eqb_sym k a).
      destruct (a =? k), (mem k ks); reflexivity.
Qed.

Lemma dropNativeWatch_plain env v :
  isPlainObject v = true -> dropNativeWatch env v = v.
Proof.
  destruct v; try discriminate. intros _. unfold dropNativeWatch.
  destruct (nativeWatch env); reflexivity.
Qed.

(** X5.  The strategy of [watch].  On a parent written as a plain
    object without prototype and a child that is a plain object, it returns
    a new object, without a warning, in which every enumerable name of the
    child holds a sequence: the parent's watchers under that name (its
    sequence, or its single watcher; none when it has no truthy entry)
    followed by the child's (its sequence, or its single watcher); every
    other name reads as in the parent; and the result owns exactly the
    names the parent owns and the child enumerates.  Without a child value
    the result is a new empty object that inherits the parent's watchers;
    without a parent value the child's value is returned as it is.  A value
    that is the platform's native [watch] function counts as absent. *)
Theorem watchStrat_concatenates env parentVal childVal vm key :
  (bare parentVal = true -> isPlainObject childVal = true ->
   exists r,
     watchStrat env parentVal childVal vm key = (Ok r, [])
     /\ isPlainObject r = true
     /\ (forall k, In k (forin childVal) ->
           get r k = mergedWatchers (get parentVal k) (get childVal k))
     /\ (forall k, ~ In k (forin childVal) -> get r k = get parentVal k)
     /\ (forall k, hasOwn r k = mem k (forin childVal) || hasOwn parentVal k))
  /\ (isPlainObject parentVal = true -> truthy childVal = false ->
      watchStrat env parentVal childVal vm key = (Ok (VObj parentVal []), []))
  /\ (truthy parentVal = false -> isPlainObject childVal = true ->
      watchStrat env parentVal childVal vm key = (Ok childVal, []))
  /\ (forall i own, nativeWatch env = Some i ->
        watchStrat env parentVal (VFun i own) vm key
        = watchStrat env parentVal VUndef vm key
        /\ watchStrat env (VFun i own) childVal vm key
           = watchStrat env VUndef childVal vm key).
Proof.
  split; [| split; [| split]].
  - intros Hp Hc.
    destruct parentVal as [ | | | | | | pp pown | | | ]; try discriminate.
    destruct pp; try discriminate.
    destruct (watch_loop childVal (forin childVal)
                (extend emptyObject (VObj VNull pown)))
      as (r & E & P & G & O); [apply extend_plain; reflexivity | apply NoDup_forin |].
    exists r. unfold watchStrat.
    rewrite (dropNativeWatch_plain env childVal Hc).
    rewrite (dropNativeWatch_plain env (VObj VNull pown)) by reflexivity.
    assert (Tc : truthy childVal = true) by (destruct childVal; discriminate || reflexivity).
    rewrite Tc. cbn [negb truthy]. unfold assertObjectType. rewrite Hc. cbn [negb].
    rewrite bind_ret. split; [exact E |]. split; [exact P |].
    assert (Gp : forall k, get (extend emptyObject (VObj VNull pown)) k
                           = get (VObj VNull pown) k).
    { intros k. rewrite get_extend, mem_ownKeys_plain by reflexivity.
      destruct (hasOwn (VObj VNull pown) k) eqn:H; [reflexivity |].
      rewrite hasOwn_obj_assoc in H. cbn [get emptyObject assoc].
      destruct (assoc k pown); [discriminate | reflexivity]. }
    split; [| split].
    + intros k I. rewrite G. apply mem_In in I. rewrite I, Gp. reflexivity.
    + intros k I. rewrite G. apply mem_not_In in I. rewrite I. apply Gp.
    + intros k. rewrite O, hasOwn_extend, mem_ownKeys_plain by reflexivity.
      cbn [emptyObject hasOwn keys map mem existsb]. rewrite orb_false_r. reflexivity.
  - intros Hp Tc. unfold watchStrat.
    rewrite (dropNativeWatch_plain env parentVal Hp).
    assert (Td : truthy (dropNativeWatch env childVal) = false).
    { unfold dropNativeWatch. destruct (nativeWatch env); [| exact Tc].
      destruct childVal; try exact Tc. destruct (Nat.eqb n id); [reflexivity | exact Tc]. }
    rewrite Td. cbn [negb]. destruct parentVal; try discriminate. reflexivity.
  - intros Tp Hc. unfold watchStrat.
    rewrite (dropNativeWatch_plain env childVal Hc).
    assert (Td : truthy (dropNativeWatch env parentVal) = false).
    { unfold dropNativeWatch. destruct (nativeWatch env); [| exact Tp].
      destruct parentVal; try exact Tp. destruct (Nat.eqb n id); [reflexivity | exact Tp]. }
    rewrite Td. destruct childVal; try discriminate. reflexivity.
  - intros i own N. unfold watchStrat, dropNativeWatch. rewrite N.
    rewrite Nat.eqb_refl. split; reflexivity.
Qed.

(** ** Hook lists *)

Lemma mergeHook_lists a b vm key :
  fieldOK KHook a = true ->
  mergeHook a b vm key
  = ret (if truthy b
         then VArr ((if truthy a then asList a else []) ++ asList b)
         else a).
Proof.
  cbn [fieldOK]. intros H. unfold mergeHook.
  destruct (truthy b) eqn:Tb; [| reflexivity].
  destruct (truthy a) eqn:Ta.
  - cbn [negb orb] in H. destruct a; try discriminate. cbn [concatM asList].
    unfold concatArr. destruct b; reflexivity.
  - destruct b; reflexivity.
Qed.

(** X6.  Merging hook lists is associative: for hook values [a] and [b]
    that are sequences or absent and any child value [c], merging [c] onto
    the result of merging [b] onto [a] gives the sequence that merging onto
    [a] the result of merging [c] onto [b] gives, and none of the four
    merges fails or warns.  An absent value is neutral on either side of a
    sequence. *)
Theorem mergeHook_associative a b c vm key :
  fieldOK KHook a = true -> fieldOK KHook b = true ->
  (exists ab bc r,
     mergeHook a b vm key = ret ab /\ mergeHook b c vm key = ret bc
     /\ mergeHook ab c vm key = ret r /\ mergeHook a bc vm key = ret r)
  /\ (forall xs, mergeHook VUndef (VArr xs) vm key = ret (VArr xs)
                 /\ mergeHook (VArr xs) VUndef vm key = ret (VArr xs)).
Proof.
  intros Ha Hb. split; [| intros xs; split; reflexivity].
  assert (Hab : fieldOK KHook
                  (if truthy b
                   then VArr ((if truthy a then asList a else []) ++ asList b)
                   else a) = true)
    by (destruct (truthy b); [reflexivity | exact Ha]).
  do 3 eexists.
  split; [apply mergeHook_lists, Ha |].
  split; [apply mergeHook_lists, Hb |].
  split; [apply mergeHook_lists, Hab |].
  rewrite mergeHook_lists by exact Ha. f_equal.
  cbn [fieldOK] in Ha, Hb.
  destruct (truthy c) eqn:Tc.
  - cbn [truthy asList].
    destruct (truthy b) eqn:Tb.
    + cbn [truthy asList]. rewrite app_assoc. reflexivity.
    + reflexivity.
  - destruct (truthy b) eqn:Tb; reflexivity.
Qed.

Lemma mergeHook_associative_witness :
  exists ab bc r,
    mergeHook (VArr [VFun 3 []]) VUndef VUndef "created" = ret ab
    /\ mergeHook VUndef (VFun 4 []) VUndef "created" = ret bc
    /\ mergeHook ab (VFun 4 []) VUndef "created" = ret r
    /\ mergeHook (VArr [VFun 3 []]) bc VUndef "created" = ret r.
Proof.
  apply (proj1 (mergeHook_associative (VArr [VFun 3 []]) VUndef (VFun 4 [])
                  VUndef "created" eq_refl eq_refl)).
Defined.

(** ** The data option across merges *)

Lemma foldM_inv {A S} (f : S -> A -> M S) (I : S -> Prop) xs : forall s r l,
  foldM f xs s = (Ok r, l) -> I s ->
  (forall s x s' l', In x xs -> I s -> f s x = (Ok s', l') -> I s') ->
  I r.
Proof.
  induction xs as [| x xs IH]; intros s r l E Hs K.
  - inversion E; subst. exact Hs.
  - cbn [foldM] in E. apply bind_inv in E as (s1 & l1 & l2 & E1 & E2 & _).
    eapply IH; [exact E2 | |].
    + eapply K; [left; reflexivity | exact Hs | exact E1].
    + intros. eapply K; eauto. right. assumption.
Qed.

Lemma mergeFields_absent env parent child vm r log key :
  mergeFields env parent child vm = (Ok r, log) ->
  ~ In key (mergeFieldCalls parent child) -> get r key = VUndef.
Proof.
  unfold mergeFields. intros E I.
  apply bind_inv in E as (st & l1 & l2 & E1 & E2 & ->). inversion E2; subst.
  rewrite mergePass_calls in E1.
  destruct (mergeField_loop_value _ _ _ _ _ _ E1 eq_refl) as (_ & G).
  specialize (G key). apply mem_not_In in I. rewrite I in G. apply G.
Qed.

Lemma dataStrat_producer parentVal childVal vm key r l :
  producerOrAbsent parentVal = true ->
  dataStrat parentVal childVal vm key = (Ok r, l) ->
  producerOrAbsent r = true.
Proof.
  unfold producerOrAbsent, dataStrat, mergeDataOrFn. intros Hp E.
  destruct (truthy vm); cbn [negb] in E; [inversion E; reflexivity |].
  destruct (truthy childVal) eqn:Tc; cbn [andb negb truthy] in E.
  - destruct (isFunction childVal) eqn:Fc; cbn [negb] in E.
    + destruct (truthy parentVal); inversion E; subst; cbn [negb];
        [reflexivity | rewrite Fc; apply orb_true_r].
    + unfold warn in E. cbn [bind ret] in E. inversion E; subst. exact Hp.
  - inversion E; subst. exact Hp.
Qed.

Lemma mergeFields_data env parent child vm r l :
  kindOf env "data" = KData ->
  producerOrAbsent (get parent "data") = true ->
  mergeFields env parent child vm = (Ok r, l) ->
  producerOrAbsent (get r "data") = true.
Proof.
  intros K Hp F.
  destruct (in_dec string_dec "data" (mergeFieldCalls parent child)) as [I | I].
  - destruct (mergeFields_value _ _ _ _ _ _ _ F I) as (v & Ev & <-).
    rewrite stratFor_kindOf, K in Ev. apply run_inv in Ev as (l' & Ev).
    eapply dataStrat_producer; eauto.
  - rewrite (mergeFields_absent _ _ _ _ _ _ _ F I). reflexivity.
Qed.

Lemma data_invariant_fuel env vm n : forall parent child r child' l,
  kindOf env "data" = KData ->
  producerOrAbsent (get parent "data") = true ->
  mergeOptions_fuel env n parent child vm = (Ok (r, child'), l) ->
  producerOrAbsent (get r "data") = true.
Proof.
  induction n as [| n IH]; intros parent child r child' l K Hp E; [discriminate |].
  rewrite mergeOptions_fuel_S in E.
  do 6 (apply bind_inv in E as (? & ? & ? & _ & E & _)).
  apply bind_inv in E as ([p1 c4] & ? & ? & E5 & E & _).
  apply bind_inv in E as (? & ? & ? & _ & E & _).
  apply bind_inv in E as ([p2 c5] & ? & ? & E6 & E & _).
  apply bind_inv in E as (options & ? & ? & F & E & _). inversion E; subst.
  assert (H1 : producerOrAbsent (get p1 "data") = true).
  { match type of E5 with (if ?b then _ else _) = _ => destruct b end.
    - apply bind_inv in E5 as ([merged e] & ? & ? & Em & E5 & _).
      inversion E5; subst. eapply IH; eauto.
    - inversion E5; subst. exact Hp. }
  assert (H2 : producerOrAbsent (get p2 "data") = true).
  { match type of E6 with (if ?b then _ else _) = _ => destruct b end.
    - match type of E6 with (if ?b then _ else _) = _ => destruct b end;
        [| discriminate].
      apply bind_inv in E6 as ([merged ms] & ? & ? & Em & E6 & _).
      inversion E6; subst.
      apply (foldM_inv _ (fun acc => producerOrAbsent (get (fst acc) "data") = true))
        in Em; [exact Em | exact H1 |].
      intros [p d] m [p' d'] l' _ Hs Es. unfold mixinStep in Es.
      apply bind_inv in Es as ([merged' m'] & ? & ? & Er & Es & _).
      inversion Es; subst. cbn [fst] in *. eapply IH; eauto.
    - inversion E6; subst. exact H1. }
  eapply mergeFields_data; eauto.
Qed.

(** X7.  The comment in [mergeDataOrFn] relies on the parent's [data]
    being a function once it has passed a merge.  It is so: when [data]
    names the data strategy and the parent's [data] is a function or
    absent, the [data] of the options [mergeOptions] returns is a function
    or absent, whatever the child, what it extends and what it mixes in
    hold under [data]; and with an instance the data strategy returns a
    function for any two values. *)
Theorem data_stays_a_producer env parent child vm r child' log :
  kindOf env "data" = KData ->
  producerOrAbsent (get parent "data") = true ->
  mergeOptions env parent child vm = (Ok (r, child'), log) ->
  producerOrAbsent (get r "data") = true
  /\ forall parentVal childVal key,
       truthy vm = true ->
       exists f, dataStrat parentVal childVal vm key = ret f /\ isFunction f = true.
Proof.
  intros K Hp E. split.
  - eapply data_invariant_fuel; eauto.
  - intros parentVal childVal key T. unfold dataStrat, mergeDataOrFn. rewrite T.
    cbn [negb]. eauto.
Qed.

Lemma data_stays_a_producer_witness :
  producerOrAbsent
    (get (VObj VNull [("data", VFun 2 [])]) "data") = true.
Proof.
  apply (proj1 (data_stays_a_producer vueEnv
                  (VObj VNull [("data", VFun 2 [])])
                  (VObj VNull [("data", VNum 5)]) VUndef
                  (VObj VNull [("data", VFun 2 [])])
                  (VObj VNull [("data", VNum 5)])
                  [Warn WDataNotFunction]
                  eq_refl eq_refl eq_refl)).
Defined.

(** ** Component names *)

Lemma validateComponentName_log env name :
  validateComponentName env name = (Ok tt, nameWarnings env name).
Proof.
  unfold validateComponentName, nameWarnings.
  destruct (validName name), (isBuiltInTag env name || isReservedTag env name);
    reflexivity.
Qed.

Lemma checkNames_log env names :
  foldM (fun _ key => validateComponentName env key) names tt
  = (Ok tt, flat_map (nameWarnings env) names).
Proof.
  induction names as [| name names IH]; [reflexivity |].
  cbn [foldM flat_map].
  erewrite bind_ok; [reflexivity | apply validateComponentName_log | exact IH].
Qed.

Lemma flat_map_nil {A B} (f : A -> list B) xs :
  flat_map f xs = [] <-> forall x, In x xs -> f x = [].
Proof.
  induction xs as [| a xs IH]; cbn [flat_map].
  - split; [intros _ x [] | reflexivity].
  - split.
    + intros E. apply app_eq_nil in E as (Ea & Ex).
      intros x [<- | I]; [exact Ea | apply IH; assumption].
    + intros H. rewrite (H a) by (left; reflexivity).
      apply IH. intros x I. apply H. right. exact I.
Qed.

(** X8.  [checkComponents] validates every enumerable name of
    [options.components], own or inherited, in enumeration order: it
    returns, and what it reports is, for each name in turn, a warning when
    the name does not match [/^[a-zA-Z][\w-]*$/] followed by a warning when
    the name is a built-in or reserved tag.  It is silent exactly when
    every name is well formed and none is built in or reserved, in
    particular when there is no [components] field. *)
Theorem checkComponents_reports env options :
  isNullish options = false ->
  checkComponents env options
  = (Ok tt, flat_map (nameWarnings env) (forin (get options "components")))
  /\ (logOf (checkComponents env options) = []
      <-> forall name, In name (forin (get options "components")) ->
            validName name = true
            /\ isBuiltInTag env name || isReservedTag env name = false)
  /\ (get options "components" = VUndef -> checkComponents env options = ret tt).
Proof.
  intros Hn.
  assert (E : checkComponents env options
              = (Ok tt, flat_map (nameWarnings env) (forin (get options "components")))).
  { unfold checkComponents. rewrite getp_ok, bind_ret by assumption.
    apply checkNames_log. }
  split; [exact E |]. split.
  - rewrite E. cbn [logOf snd]. rewrite flat_map_nil.
    split; intros H name I; specialize (H name I).
    + unfold nameWarnings in H. apply app_eq_nil in H as (H1 & H2).
      destruct (validName name); [| discriminate].
      destruct (isBuiltInTag env name || isReservedTag env name); [discriminate |].
      auto.
    + destruct H as (H1 & H2). unfold nameWarnings. rewrite H1, H2. reflexivity.
  - intros U. rewrite E, U. reflexivity.
Qed.

Lemma checkComponents_reports_witness :
  checkComponents vueEnv
    (VObj VNull [("components",
                  VObj (VObj VNull [("slot", VNum 1)]) [("9x", VNum 2)])])
  = (Ok tt, [Warn (WInvalidComponentName "9x"); Warn (WReservedComponentName "slot")]).
Proof.
  apply (proj1 (checkComponents_reports vueEnv
                  (VObj VNull [("components",
                                VObj (VObj VNull [("slot", VNum 1)]) [("9x", VNum 2)])])
                  eq_refl)).
Defined.

(** ** normalizeDirectives *)

Lemma directiveStep_eq dirs key :
  isPlainObject dirs = true ->
  directiveStep dirs key
  = ret (if isFunction (get dirs key)
         then assign dirs key (expandDirective (get dirs key)) else dirs).
Proof.
  intros H. unfold directiveStep, expandDirective.
  destruct (isFunction (get dirs key)); [| reflexivity].
  apply assignM_plain, H.
Qed.

Lemma directives_loop ks : forall d,
  isRecord d = true -> NoDup ks ->
  exists d',
    foldM directiveStep ks d = (Ok d', [])
    /\ isRecord d' = true
    /\ (forall k, get d' k = if mem k ks then expandDirective (get d k) else get d k)
    /\ (forall k, hasOwn d' k = hasOwn d k || (mem k ks && isFunction (get d k)))
    /\ (bare d = true -> bare d' = true).
Proof.
  induction ks as [| a ks IH]; intros d R ND.
  - exists d. cbn. repeat split; auto. intros k. rewrite orb_false_r. reflexivity.
  - inversion ND as [| ? ? Na ND']; subst.
    pose proof (isRecord_plain _ R) as P.
    set (d1 := if isFunction (get d a)
               then assign d a (expandDirective (get d a)) else d).
    assert (R1 : isRecord d1 = true)
      by (unfold d1; destruct (isFunction (get d a)); [apply isRecord_assign |]; exact R).
    assert (G1 : forall k, get d1 k = if a =? k then expandDirective (get d a) else get d k).
    { intros k. unfold d1. destruct (isFunction (get d a)) eqn:F.
      - apply get_assign, P.
      - destruct (String.eqb_spec a k) as [<- | N]; [| reflexivity].
        unfold expandDirective. rewrite F. reflexivity. }
    assert (O1 : forall k, hasOwn d1 k = (isFunction (get d a) && (a =? k)) || hasOwn d k).
    { intros k. unfold d1. destruct (isFunction (get d a)); [| reflexivity].
      apply hasOwn_assign, P. }
    assert (B1 : bare d = true -> bare d1 = true).
    { unfold d1. destruct (isFunction (get d a)); [| auto].
      destruct d as [ | | | | | | dp down | | | ]; try discriminate.
      destruct dp; try discriminate. reflexivity. }
    destruct (IH d1 R1 ND') as (d' & E & R' & G & O & B).
    exists d'. split; [| split; [exact R' | split; [| split]]].
    + cbn [foldM]. rewrite directiveStep_eq, bind_ret by exact P. exact E.
    + intros k. rewrite G, G1.
      change (mem k (a :: ks)) with ((k =? a) || mem k ks).
      rewrite (String.eqb_sym k a).
      destruct (String.eqb_spec a k) as [-> | N]; cbn [orb]; [| reflexivity].
      apply mem_not_In in Na. rewrite Na. reflexivity.
    + intros k. rewrite O, O1, G1.
      change (mem k (a :: ks)) with ((k =? a) || mem k ks).
      rewrite (String.eqb_sym k a).
      destruct (String.eqb_spec a k) as [-> | N]; cbn [orb andb].
      * apply mem_not_In in Na. rewrite Na. cbn [andb]. rewrite orb_false_r.
        rewrite andb_true_r. apply orb_comm.
      * rewrite andb_false_r. reflexivity.
    + intros Bd. apply B, B1, Bd.
Qed.

Lemma directives_loop_fixed ks : forall d,
  isPlainObject d = true ->
  (forall k, In k ks -> isFunction (get d k) = false) ->
  foldM directiveStep ks d = ret d.
Proof.
  induction ks as [| a ks IH]; intros d P H; [reflexivity |].
  cbn [foldM]. rewrite directiveStep_eq, (H a), bind_ret by (assumption || left; reflexivity).
  apply IH; [exact P |]. intros k I. apply H. right. exact I.
Qed.

Lemma put_assoc_same own k v : assoc k own = Some v -> put own k v = own.
Proof.
  induction own as [| [k0 v0] own IH]; cbn [assoc put]; [discriminate |].
  destruct (String.eqb_spec k0 k) as [-> | N].
  - intros E. inversion E. reflexivity.
  - intros E. rewrite IH by exact E. reflexivity.
Qed.

Lemma record_mutateAt_get v k : isRecord v = true -> mutateAt v k (get v k) = v.
Proof.
  induction v as [ | | b | n | s | xs | proto IHv own | id own
                  | c IHc p IHp | c IHc p IHp vm IHvm ]; try discriminate.
  intros R. cbn [mutateAt get]. destruct (assoc k own) as [y |] eqn:E.
  - rewrite put_assoc_same by exact E. reflexivity.
  - destruct proto; try discriminate; try reflexivity.
    rewrite IHv by exact R. reflexivity.
Qed.

Lemma expandDirective_not_function def : isFunction (expandDirective def) = false.
Proof. unfold expandDirective. destruct (isFunction def) eqn:F; [reflexivity | exact F]. Qed.

Lemma forin_bare v k : bare v = true -> In k (forin v) -> hasOwn v k = true.
Proof.
  destruct v as [ | | | | | | vp vown | | | ]; try discriminate.
  destruct vp; try discriminate. intros _ I. cbn [forin hasOwn] in *.
  apply -> In_dedup in I. rewrite app_nil_r in I. apply mem_In, I.
Qed.

Lemma normalizeDirectives_record_spec options :
  isRecord options = true -> isRecord (get options "directives") = true ->
  exists dirs',
    normalizeDirectives options = (Ok (mutateAt options "directives" dirs'), [])
    /\ get (mutateAt options "directives" dirs') "directives" = dirs'
    /\ isRecord dirs' = true
    /\ (forall name, get dirs' name = expandDirective (get (get options "directives") name))
    /\ (bare (get options "directives") = true ->
        bare dirs' = true
        /\ forall name, hasOwn dirs' name = hasOwn (get options "directives") name).
Proof.
  intros R Rd. set (dirs := get options "directives") in *.
  assert (T : truthy dirs = true) by (destruct dirs; discriminate || reflexivity).
  destruct (directives_loop (forin dirs) dirs Rd (NoDup_forin dirs))
    as (dirs' & E & R' & G & O & B).
  exists dirs'. split; [| split; [| split; [exact R' | split]]].
  - unfold normalizeDirectives.
    rewrite getp_ok, bind_ret by (apply isRecord_not_nullish, R).
    fold dirs. rewrite T. erewrite bind_ok; [| exact E | reflexivity]. reflexivity.
  - apply record_mutateAt_same; [exact R |]. fold dirs. apply truthy_defined, T.
  - intros name. rewrite G. destruct (mem name (forin dirs)) eqn:I; [reflexivity |].
    apply mem_not_In in I.
    assert (U : get dirs name = VUndef).
    { destruct (get dirs name) eqn:Eg; try reflexivity;
        exfalso; apply I; apply record_get_forin; congruence. }
    rewrite U. reflexivity.
  - intros Bd. split; [apply B, Bd |]. intros name. rewrite O.
    destruct (hasOwn dirs name) eqn:H; [reflexivity |]. cbn [orb].
    destruct (mem name (forin dirs)) eqn:I; [| reflexivity].
    apply mem_In in I. apply (forin_bare _ _ Bd) in I. congruence.
Qed.

(** X9.  [normalizeDirectives] on a configuration whose [directives] is
    an object: it returns without a warning; afterwards every name of
    [directives] whose value was a function [f] holds [{bind: f, update:
    f}], every other name holds what it held, and every other field of the
    configuration is as it was.  Normalizing the result again changes
    nothing. *)
Theorem normalizeDirectives_expands options :
  isRecord options = true -> isRecord (get options "directives") = true ->
  exists options',
    normalizeDirectives options = (Ok options', [])
    /\ (forall name,
          get (get options' "directives") name
          = expandDirective (get (get options "directives") name))
    /\ (forall k, k <> "directives" -> get options' k = get options k)
    /\ normalizeDirectives options' = (Ok options', []).
Proof.
  intros R Rd.
  destruct (normalizeDirectives_record_spec options R Rd)
    as (dirs' & E & Gd & R' & G & _).
  exists (mutateAt options "directives" dirs').
  split; [exact E |]. split; [| split].
  - intros name. rewrite Gd. apply G.
  - intros k N. apply get_mutateAt_other; [congruence | reflexivity].
  - unfold normalizeDirectives.
    rewrite getp_ok, bind_ret by (apply isRecord_not_nullish, isRecord_mutateAt, R).
    rewrite Gd.
    assert (T : truthy dirs' = true) by (destruct dirs'; discriminate || reflexivity).
    rewrite T, directives_loop_fixed, bind_ret.
    + rewrite <- Gd at 2. rewrite record_mutateAt_get; [reflexivity |].
      apply isRecord_mutateAt, R.
    + apply isRecord_plain, R'.
    + intros k _. rewrite G. apply expandDirective_not_function.
Qed.

Lemma normalizeDirectives_expands_witness :
  exists options',
    normalizeDirectives
      (VObj VNull [("directives", VObj VNull [("focus", VFun 7 []); ("x", VNum 1)])])
    = (Ok options', [])
    /\ (forall name,
          get (get options' "directives") name
          = expandDirective
              (get (get (VObj VNull [("directives",
                                      VObj VNull [("focus", VFun 7 []); ("x", VNum 1)])])
                        "directives") name))
    /\ (forall k, k <> "directives" ->
          get options' k
          = get (VObj VNull [("directives",
                              VObj VNull [("focus", VFun 7 []); ("x", VNum 1)])]) k)
    /\ normalizeDirectives options' = (Ok options', []).
Proof.
  apply (normalizeDirectives_expands
           (VObj VNull [("directives", VObj VNull [("focus", VFun 7 []); ("x", VNum 1)])])
           eq_refl eq_refl).
Defined.

(** ** normalizeInject *)

Lemma injectNames_loop names : forall r,
  foldM injectArrayStep (map VStr names) r
  = ret (fold_left (fun r s => assign r s (fromOnly (VStr s))) names r).
Proof.
  induction names as [| s names IH]; intros r; [reflexivity |].
  cbn [map foldM fold_left]. unfold injectArrayStep at 1. cbn [toKey].
  rewrite !bind_ret. apply IH.
Qed.

Lemma normalizeInject_truthy options vm inject :
  isPlainObject options = true -> get options "inject" = inject ->
  truthy inject = true ->
  normalizeInject options vm
  = (normalized <- (if isArray inject then
                      foldM injectArrayStep (elements inject) emptyObject
                    else if isPlainObject inject then
                      foldM (injectObjectStep inject) (forin inject) emptyObject
                    else
                      warn (WInvalidInject (toRawType inject)) ;; ret emptyObject) ;;
     ret (assign options "inject" normalized)).
Proof.
  intros Ho Hi T. unfold normalizeInject.
  rewrite getp_ok, bind_ret, Hi, T by (apply plain_not_nullish, Ho).
  cbn [negb]. rewrite assignM_plain, bind_ret by exact Ho.
  apply bind_ext. intros normalized.
  rewrite mutateAt_assigned; [reflexivity | | reflexivity].
  destruct options; try discriminate. reflexivity.
Qed.

(** X10.  The canonical form [normalizeInject] gives to [inject].  For a
    sequence of names, [inject] becomes an object in which exactly the
    listed names are declared, each name [n] as [{from: n}].  For a plain
    object, every enumerable key [k] is declared: as [{from: v}] when its
    value [v] is not a plain object, and otherwise as an object with the
    fields of [v] in which [from] is [v]'s own [from] when it has one and
    the key [k] when it has none; nothing else is declared.  No warning is
    issued in either form. *)
Theorem normalizeInject_canonical :
  (forall options vm names,
      isPlainObject options = true -> get options "inject" = VArr (map VStr names) ->
      exists res,
        normalizeInject options vm = ret (assign options "inject" res)
        /\ get (assign options "inject" res) "inject" = res
        /\ forall name,
             get res name = if mem name names then fromOnly (VStr name) else VUndef)
  /\ (forall options vm inject,
        isPlainObject options = true -> get options "inject" = inject ->
        isPlainObject inject = true ->
        exists res,
          normalizeInject options vm = ret (assign options "inject" res)
          /\ get (assign options "inject" res) "inject" = res
          /\ (forall key,
                In key (forin inject) -> isPlainObject (get inject key) = false ->
                get res key = fromOnly (get inject key))
          /\ (forall key,
                In key (forin inject) -> bare (get inject key) = true ->
                (forall f, f <> "from" -> get (get res key) f = get (get inject key) f)
                /\ get (get res key) "from"
                   = if hasOwn (get inject key) "from"
                     then get (get inject key) "from" else VStr key)
          /\ (forall key, ~ In key (forin inject) -> get res key = VUndef)).
Proof.
  split.
  - intros options vm names Ho Hi.
    rewrite (normalizeInject_truthy options vm _ Ho Hi eq_refl).
    cbn [isArray elements]. rewrite injectNames_loop, bind_ret.
    eexists. split; [reflexivity |]. split; [apply get_assign_same; [| reflexivity];
      destruct options; try discriminate; reflexivity |].
    intros name.
    rewrite (get_fold_assign (fun s => s) (fun s => fromOnly (VStr s))) by reflexivity.
    rewrite find_eqb_mem, mem_rev. destruct (mem name names); reflexivity.
  - intros options vm inject Ho Hi Hp.
    assert (T : truthy inject = true) by (destruct inject; discriminate || reflexivity).
    rewrite (normalizeInject_truthy options vm _ Ho Hi T).
    assert (A : isArray inject = false) by (destruct inject; discriminate || reflexivity).
    rewrite A, Hp, injectObject_loop, bind_ret.
    eexists. split; [reflexivity |]. split; [apply get_assign_same; [| reflexivity];
      destruct options; try discriminate; reflexivity |].
    assert (G : forall key,
              get (fold_left
                     (fun r key => assign r key
                        (if isPlainObject (get inject key)
                         then extend (fromOnly (VStr key)) (get inject key)
                         else fromOnly (get inject key))) (forin inject) emptyObject) key
              = if mem key (forin inject)
                then (if isPlainObject (get inject key)
                      then extend (fromOnly (VStr key)) (get inject key)
                      else fromOnly (get inject key))
                else VUndef).
    { intros key.
      rewrite (get_fold_assign (fun k => k)
                 (fun key => if isPlainObject (get inject key)
                             then extend (fromOnly (VStr key)) (get inject key)
                             else fromOnly (get inject key))) by reflexivity.
      rewrite find_eqb_mem, mem_rev. destruct (mem key (forin inject)); reflexivity. }
    split; [| split].
    + intros key I Np. rewrite G. apply mem_In in I. rewrite I, Np. reflexivity.
    + intros key I B. rewrite G. apply mem_In in I. rewrite I.
      destruct (get inject key) as [ | | | | | | vp vown | | | ] eqn:Ev; try discriminate.
      destruct vp; try discriminate. cbn [isPlainObject].
      split.
      * intros f N. rewrite get_extend, mem_ownKeys_plain by reflexivity.
        destruct (hasOwn (VObj VNull vown) f) eqn:H; [reflexivity |].
        rewrite hasOwn_obj_assoc in H. cbn [fromOnly get assoc].
        destruct (String.eqb_spec "from" f) as [<- | _]; [congruence |].
        destruct (assoc f vown); [discriminate | reflexivity].
      * rewrite get_extend, mem_ownKeys_plain by reflexivity. reflexivity.
    + intros key I. rewrite G. apply mem_not_In in I. rewrite I. reflexivity.
Qed.

(** ** What each normalizer touches *)

(** X11.  Each normalizer rewrites its own field only: when
    [normalizeProps], [normalizeInject] or [normalizeDirectives] returns,
    every field of the configuration other than [props], [inject] or
    [directives] respectively reads as before the call; and a
    configuration that holds nothing under the field is returned as it is,
    without a warning. *)
Theorem normalizers_frame options vm :
  (forall options' l k,
      normalizeProps options vm = (Ok options', l) -> k <> "props" ->
      get options' k = get options k)
  /\ (forall options' l k,
        normalizeInject options vm = (Ok options', l) -> k <> "inject" ->
        get options' k = get options k)
  /\ (forall options' l k,
        normalizeDirectives options = (Ok options', l) -> k <> "directives" ->
        get options' k = get options k)
  /\ (isNullish options = false ->
      (truthy (get options "props") = false -> normalizeProps options vm = ret options)
      /\ (truthy (get options "inject") = false ->
          normalizeInject options vm = ret options)
      /\ (truthy (get options "directives") = false ->
          normalizeDirectives options = ret options)).
Proof.
  split; [| split; [| split]].
  - intros. eapply normalizeProps_get; eauto.
  - intros. eapply normalizeInject_get; eauto.
  - intros. eapply normalizeDirectives_get; eauto.
  - intros Hn. split; [| split]; intros T.
    + apply normalizeProps_absent; assumption.
    + apply normalizeInject_absent; assumption.
    + apply normalizeDirectives_absent; assumption.
Qed.

(** ** A constructor as the child *)

(** X12.  A child that is a constructor function is merged through its
    [options]: the names validated are those of the function's own
    [components] property, so when it has none, the call returns the
    options that merging [child.options] itself returns, leaves in
    [child.options] the state that merge leaves its child in, and reports
    what that merge reports less the warnings about the component names of
    [child.options], which are not checked. *)
Theorem constructor_child_merges_its_options env parent ctor vm r opts' l :
  isFunction ctor = true ->
  let opts := get ctor "options" in
  isFunction opts = false ->
  forin (get ctor "components") = [] ->
  mergeOptions env parent opts vm = (Ok (r, opts'), l) ->
  exists l',
    mergeOptions env parent ctor vm = (Ok (r, mutateAt ctor "options" opts'), l')
    /\ l = logOf (checkComponents env opts) ++ l'.
Proof.
  intros Hc opts Ho Hk E.
  assert (Hn : isNullish ctor = false) by (destruct ctor; discriminate || reflexivity).
  rewrite mergeOptions_eq in E. rewrite Ho in E.
  apply bind_inv in E as (u & lc & l' & Ec & E & ->).
  rewrite bind_ret in E.
  exists l'. split; [| rewrite Ec; reflexivity].
  rewrite mergeOptions_eq, Hc.
  rewrite checkComponents_none, bind_ret by assumption.
  rewrite getp_ok, bind_ret by assumption. fold opts.
  apply bind_inv in E as (o1 & l1 & ? & E1 & E & ->).
  eapply bind_ok; [exact E1 |].
  apply bind_inv in E as (o2 & l2 & ? & E2 & E & ->).
  eapply bind_ok; [exact E2 |].
  apply bind_inv in E as (o3 & l3 & ? & E3 & E & ->).
  eapply bind_ok; [exact E3 |].
  apply bind_inv in E as (ext & l4 & ? & E4 & E & ->).
  eapply bind_ok; [exact E4 |].
  apply bind_inv in E as ([p1 c4] & l5 & ? & E5 & E & ->).
  eapply bind_ok; [exact E5 |].
  apply bind_inv in E as (mx & l6 & ? & E6 & E & ->).
  eapply bind_ok; [exact E6 |].
  apply bind_inv in E as ([p2 c5] & l7 & ? & E7 & E & ->).
  eapply bind_ok; [exact E7 |].
  apply bind_inv in E as (options & l8 & ? & E8 & E & ->).
  eapply bind_ok; [exact E8 |].
  inversion E; subst. reflexivity.
Qed.

Lemma constructor_child_merges_its_options_witness :
  exists l',
    mergeOptions vueEnv (VObj VNull [("a", VNum 1)])
      (VFun 9 [("options", VObj VNull [("props", VArr [VStr "my-prop"]);
                                       ("components", VObj VNull [("slot", VNum 0)])])])
      VUndef
    = (Ok (VObj VNull [("a", VNum 1);
                       ("props", VObj VNull [("myProp", typeOnly VNull)]);
                       ("components", VObj VNull [("slot", VNum 0)])],
           mutateAt
             (VFun 9 [("options", VObj VNull [("props", VArr [VStr "my-prop"]);
                                              ("components", VObj VNull [("slot", VNum 0)])])])
             "options"
             (VObj VNull [("props", VObj VNull [("myProp", typeOnly VNull)]);
                          ("components", VObj VNull [("slot", VNum 0)])])), l')
    /\ [Warn (WReservedComponentName "slot")]
       = logOf (checkComponents vueEnv
                  (get (VFun 9 [("options",
                                 VObj VNull [("props", VArr [VStr "my-prop"]);
                                             ("components", VObj VNull [("slot", VNum 0)])])])
                       "options")) ++ l'.
Proof.
  apply (constructor_child_merges_its_options vueEnv (VObj VNull [("a", VNum 1)])
           (VFun 9 [("options", VObj VNull [("props", VArr [VStr "my-prop"]);
                                            ("components", VObj VNull [("slot", VNum 0)])])])
           VUndef _ _ _ eq_refl eq_refl eq_refl eq_refl).
Defined.

(** ** What resolveAsset reports *)

(** X13.  [resolveAsset] answers [undefined] to a name that is not a
    string without reading the configuration.  When it returns for a
    string name, the result is what the registry holds (as its own or
    through its prototype chain) under the exact, the camel-cased or the
    capitalized camel-cased name; it reports nothing unless asked to, and
    nothing with a truthy result; what it reports is a single warning that
    names the category without its last letter (the asset type, for a
    category named by the type followed by [s]) and the name as given. *)
Theorem resolveAsset_reports_only_misses options type id warnMissing :
  (isString id = false -> resolveAsset options type id warnMissing = ret VUndef)
  /\ (forall name r l,
        id = VStr name ->
        resolveAsset options type id warnMissing = (Ok r, l) ->
        In r (map (get (get options type))
                [name; camelize name; capitalize (camelize name)])
        /\ (l = []
            \/ l = [Warn (WFailedToResolve (dropLast type) name)]
               /\ warnMissing = true /\ truthy r = false))
  /\ (forall assetType, dropLast (String.append assetType "s") = assetType).
Proof.
  split; [| split].
  - intros S. destruct id; try discriminate; reflexivity.
  - intros name r l -> E. unfold resolveAsset in E.
    apply bind_inv in E as (assets & ? & ? & G & E & ->).
    apply getp_inv in G as (_ & -> & ->). cbn [app map].
    set (assets := get options type) in *.
    repeat match type of E with
           | (if hasOwn ?a ?k then _ else _) = _ =>
               destruct (hasOwn a k);
               [apply getp_inv in E as (_ & -> & ->); cbn; tauto |]
           end.
    apply bind_inv in E as (byId & ? & ? & G & E & ->).
    apply getp_inv in G as (Hn & -> & ->).
    apply bind_inv in E as (res & l1 & ? & Er & E & ->).
    apply bind_inv in E as (u & l2 & ? & Ew & E & ->).
    inversion E; subst. rewrite app_nil_r.
    assert (R : In r [get assets name; get assets (camelize name);
                      get assets (capitalize (camelize name))] /\ l1 = []).
    { destruct (truthy (get assets name)).
      - inversion Er; subst. cbn; tauto.
      - rewrite getp_ok, bind_ret in Er by exact Hn.
        destruct (truthy (get assets (camelize name))).
        + inversion Er; subst. cbn; tauto.
        + apply getp_inv in Er as (_ & -> & ->). cbn; tauto. }
    destruct R as (R & ->). split; [exact R |]. cbn [app].
    destruct warnMissing; cbn [andb] in Ew.
    + destruct (truthy r); cbn [negb] in Ew; inversion Ew; auto.
    + inversion Ew. auto.
  - intros assetType. induction assetType as [| c t IH]; [reflexivity |].
    cbn [String.append dropLast]. rewrite IH.
    destruct t; reflexivity.
Qed.

Lemma resolveAsset_reports_only_misses_witness :
  resolveAsset VUndef "components" (VNum 3) true = ret VUndef.
Proof.
  apply (proj1 (resolveAsset_reports_only_misses VUndef "components" (VNum 3) true)).
  reflexivity.
Defined.

(** ** Merging the same data twice *)

Lemma plain_mutateAt_get to key :
  isPlainObject to = true -> hasOwn to key = true -> mutateAt to key (get to key) = to.
Proof.
  destruct to; try discriminate. intros _ H. rewrite hasOwn_obj_assoc in H.
  cbn [mutateAt get]. destruct (assoc key own) as [y |] eqn:E; [| discriminate].
  rewrite put_assoc_same by exact E. reflexivity.
Qed.

Lemma mergeData_loop_fixed from to ks :
  isPlainObject to = true ->
  (forall key, In key ks ->
     hasOwn to key = true
     /\ (isPlainObject (get to key) && isPlainObject (get from key) = true ->
         mergeData (get to key) (get from key) = (Ok (get to key), []))) ->
  foldM (mergeDataStep mergeData from) ks to = (Ok to, []).
Proof.
  intros P. induction ks as [| a ks IH]; intros H; [reflexivity |].
  destruct (H a (or_introl eq_refl)) as (Ho & Hr).
  cbn [foldM]. unfold mergeDataStep at 1.
  rewrite getp_ok, bind_ret, Ho by (apply plain_not_nullish, P). cbn [negb].
  assert (Et : foldM (mergeDataStep mergeData from) ks to = (Ok to, []))
    by (apply IH; intros key I; apply H; right; exact I).
  destruct (isPlainObject (get to a) && isPlainObject (get from a)).
  - rewrite (Hr eq_refl). cbn [bind ret]. rewrite plain_mutateAt_get by assumption.
    rewrite Et. reflexivity.
  - rewrite bind_ret. exact Et.
Qed.

Lemma absorbs_fixed n : forall to from,
  absorbs_fuel n to from = true -> mergeData to from = (Ok to, []).
Proof.
  induction n as [| n IH]; intros to from A; [discriminate |].
  cbn [absorbs_fuel] in A. rewrite mergeData_eq.
  destruct (truthy from); cbn [negb orb] in *; [| reflexivity].
  apply andb_true_iff in A as (P & A). rewrite forallb_forall in A.
  apply mergeData_loop_fixed; [exact P |].
  intros key I. specialize (A key I). apply andb_true_iff in A as (Ho & A).
  split; [exact Ho |]. intros B. rewrite B in A. apply IH, A.
Qed.

Lemma absorbs_self n : forall x,
  size x < n -> isPlainObject x = true -> absorbs_fuel n x x = true.
Proof.
  induction n as [| n IH]; intros x L P; [lia |].
  cbn [absorbs_fuel]. rewrite P. cbn [andb].
  apply orb_true_iff. right. apply forallb_forall. intros key I.
  apply mem_In in I. rewrite mem_ownKeys_plain in I by exact P. rewrite I. cbn [andb].
  destruct (isPlainObject (get x key)) eqn:Pk; [| reflexivity]. cbn [andb].
  apply IH; [| exact Pk].
  pose proof (size_get_object x key (plain_objectLike _ Pk)). lia.
Qed.

Lemma absorbs_after n : forall from to r l,
  size from < n -> isPlainObject to = true ->
  mergeData to from = (Ok r, l) -> absorbs_fuel n r from = true.
Proof.
  induction n as [| n IH]; intros from to r l L P E; [lia |].
  cbn [absorbs_fuel]. destruct (truthy from) eqn:T; [| reflexivity]. cbn [negb orb].
  destruct to as [ | | | | | | tp own0 | | | ]; try discriminate.
  destruct (mergeData_plain_spec tp own0 from T) as (own1 & E1 & A).
  rewrite E1 in E. inversion E; subst. cbn [isPlainObject andb].
  apply forallb_forall. intros key I. apply mem_In in I.
  specialize (A key). rewrite I in A. unfold mergedEntry in A.
  rewrite hasOwn_obj_assoc. cbn [get]. rewrite A.
  destruct (assoc key own0) as [toVal |] eqn:E0.
  - destruct (isPlainObject toVal) eqn:Pt; cbn [andb];
      [| rewrite Pt; reflexivity].
    destruct (isPlainObject (get from key)) eqn:Pf; cbn [andb];
      [| rewrite andb_false_r; reflexivity].
    destruct (mergeData_total toVal (get from key) Pt) as (merged & lg & Em & Pm).
    rewrite Em. cbn [run fst]. rewrite Pm. cbn [andb].
    eapply IH; [| exact Pt | exact Em].
    pose proof (size_get_object from key (plain_objectLike _ Pf)). lia.
  - cbn [andb]. destruct (isPlainObject (get from key)) eqn:Pf; [| reflexivity].
    cbn [andb]. apply absorbs_self; [| exact Pf].
    pose proof (size_get_object from key (plain_objectLike _ Pf)). lia.
Qed.

(** X14.  Merging the same source a second time changes nothing: when
    [mergeData(to, from)] has returned for a plain destination, merging
    [from] into the result again returns the result as it is and calls the
    external setter for no key.  In particular merging a plain object into
    itself leaves it as it is. *)
Theorem mergeData_idempotent to from r l :
  isPlainObject to = true -> mergeData to from = (Ok r, l) ->
  mergeData r from = (Ok r, [])
  /\ forall x, isPlainObject x = true -> mergeData x x = (Ok x, []).
Proof.
  intros P E. split.
  - apply (absorbs_fixed (S (size from))).
    eapply absorbs_after; [| exact P | exact E]. lia.
  - intros x Px. apply (absorbs_fixed (S (size x))). apply absorbs_self; [lia | exact Px].
Qed.

Lemma mergeData_idempotent_witness :
  mergeData
    (VObj VNull [("b", VNum 2); ("n", VObj VNull [("y", VNum 1); ("x", VNum 1)]);
                 ("a", VNum 7)])
    (VObj VNull [("a", VNum 7); ("n", VObj VNull [("x", VNum 1); ("y", VNum 9)])])
  = (Ok (VObj VNull [("b", VNum 2); ("n", VObj VNull [("y", VNum 1); ("x", VNum 1)]);
                     ("a", VNum 7)]), []).
Proof.
  apply (proj1 (mergeData_idempotent
                  (VObj VNull [("b", VNum 2); ("n", VObj VNull [("y", VNum 1)])])
                  (VObj VNull [("a", VNum 7);
                               ("n", VObj VNull [("x", VNum 1); ("y", VNum 9)])])
                  (VObj VNull [("b", VNum 2);
                               ("n", VObj VNull [("y", VNum 1); ("x", VNum 1)]);
                               ("a", VNum 7)])
                  [SetCall "a" (VNum 7); SetCall "x" (VNum 1)]
                  eq_refl eq_refl)).
Defined.

(** ** A child without ancestors, step by step *)

Lemma mergeOptions_leaf_steps env parent x vm r x' l :
  leafConfig x = true ->
  mergeOptions env parent x vm = (Ok (r, x'), l) ->
  exists c1 c2 l1 l2 l3 l4,
    normalizeProps x vm = (Ok c1, l1)
    /\ normalizeInject c1 vm = (Ok c2, l2)
    /\ normalizeDirectives c2 = (Ok x', l3)
    /\ mergeFields env parent x' vm = (Ok r, l4).
Proof.
  intros L E. apply leafConfig_inv in L as (Rx & Tx & Tm).
  rewrite mergeOptions_eq in E. rewrite (isRecord_not_function _ Rx) in E.
  apply bind_inv in E as (? & ? & ? & _ & E & _).
  rewrite bind_ret in E.
  apply bind_inv in E as (c1 & l1 & ? & E1 & E & _).
  apply bind_inv in E as (c2 & l2 & ? & E2 & E & _).
  apply bind_inv in E as (c3 & l3 & ? & E3 & E & _).
  assert (G3 : forall k, ~ In k normalizedFields -> get c3 k = get x k).
  { intros k N. unfold normalizedFields in N. simpl in N.
    rewrite (normalizeDirectives_get _ _ _ k E3),
            (normalizeInject_get _ _ _ _ k E2),
            (normalizeProps_get _ _ _ _ k E1); try reflexivity; intuition. }
  apply bind_inv in E as (ext & ? & ? & G & E & _).
  apply getp_inv in G as (_ & -> & _).
  rewrite G3, Tx in E by (unfold normalizedFields; simpl; intuition discriminate).
  rewrite bind_ret in E.
  apply bind_inv in E as (mx & ? & ? & G & E & _).
  apply getp_inv in G as (_ & -> & _).
  rewrite G3, Tm in E by (unfold normalizedFields; simpl; intuition discriminate).
  rewrite bind_ret in E.
  apply bind_inv in E as (options & l4 & ? & F & E & _).
  inversion E; subst. exists c1, c2, l1, l2, l3, l4. auto.
Qed.

(** ** Function directives in the merged options *)

(** X15.  The function shorthand of a directive reaches the merged
    options expanded.  For a parent configuration and a child without
    [extends] and [mixins] whose [directives] is a plain object without
    prototype, in the options [mergeOptions] returns every directive the
    child declares reads [{bind: f, update: f}] when the child gave the
    function [f] and reads the child's value otherwise, every name the
    child does not declare reads as in the parent's registry, and the
    child's own [directives] has been rewritten in place to the expanded
    form. *)
Theorem directive_shorthand_reaches_merged env parent child vm r child' log :
  isRecord parent = true -> leafConfig child = true ->
  kindOf env "directives" = KAsset ->
  bare (get child "directives") = true ->
  mergeOptions env parent child vm = (Ok (r, child'), log) ->
  let dirs := get child "directives" in
  (forall name, hasOwn dirs name = true ->
     get (get r "directives") name = expandDirective (get dirs name))
  /\ (forall name, hasOwn dirs name = false ->
        get (get r "directives") name
        = get (orElse (get parent "directives") VNull) name)
  /\ (forall name,
        get (get child' "directives") name = expandDirective (get dirs name)).
Proof.
  intros Rp L K B E. cbv zeta.
  pose proof (leafConfig_inv _ L) as (Rx & _ & _).
  destruct (mergeOptions_leaf_steps _ _ _ _ _ _ _ L E)
    as (c1 & c2 & l1 & l2 & l3 & l4 & E1 & E2 & E3 & F).
  assert (R2 : isRecord c2 = true).
  { eapply normalizeInject_record; [exact E2 |].
    eapply normalizeProps_record; [exact E1 | exact Rx]. }
  assert (G2 : get c2 "directives" = get child "directives").
  { rewrite (normalizeInject_get _ _ _ _ "directives" E2),
            (normalizeProps_get _ _ _ _ "directives" E1); [reflexivity | |]; discriminate. }
  assert (Rd : isRecord (get c2 "directives") = true).
  { rewrite G2. destruct (get child "directives") as [ | | | | | | dp down | | | ];
      try discriminate. destruct dp; try discriminate. reflexivity. }
  destruct (normalizeDirectives_record_spec c2 R2 Rd)
    as (dirs' & E3' & Gd & R' & G & Bs).
  rewrite E3' in E3. inversion E3; subst child' l3. clear E3.
  rewrite G2 in G, Bs. destruct (Bs B) as (B' & O).
  set (child' := mutateAt c2 "directives" dirs') in *.
  assert (Rc : isRecord child' = true) by apply isRecord_mutateAt, R2.
  assert (I : In "directives" (mergeFieldCalls parent child')).
  { apply mergeFieldCalls_plain; [apply isRecord_plain, Rp |]. right.
    apply record_get_forin; [exact Rc |]. rewrite Gd.
    destruct dirs'; discriminate. }
  destruct (mergeFields_value _ _ _ _ _ _ _ F I) as (v & Ev & Gv).
  rewrite stratFor_kindOf, K, Gd in Ev. apply run_inv in Ev as (l & Ev).
  destruct dirs' as [ | | | | | | dp down | | | ]; try discriminate.
  destruct dp; try discriminate.
  apply mergeAssets_inv in Ev as (_ & ->).
  rewrite Gv, Gd. split; [| split].
  - intros name H. rewrite registry_get, O, H. apply G.
  - intros name H. rewrite registry_get, O, H. reflexivity.
  - exact G.
Qed.

Lemma directive_shorthand_reaches_merged_witness :
  get (get (VObj VNull [("directives",
                         VObj (VObj VNull [("show", VNum 1)])
                           [("focus", VObj VNull [("bind", VFun 7 []); ("update", VFun 7 [])])])])
           "directives") "focus"
  = expandDirective (get (get (VObj VNull [("directives", VObj VNull [("focus", VFun 7 [])])])
                              "directives") "focus").
Proof.
  apply (proj1 (directive_shorthand_reaches_merged vueEnv
                  (VObj VNull [("directives", VObj VNull [("show", VNum 1)])])
                  (VObj VNull [("directives", VObj VNull [("focus", VFun 7 [])])])
                  VUndef
                  (VObj VNull [("directives",
                                VObj (VObj VNull [("show", VNum 1)])
                                  [("focus", VObj VNull [("bind", VFun 7 []);
                                                         ("update", VFun 7 [])])])])
                  (VObj VNull [("directives",
                                VObj VNull [("focus", VObj VNull [("bind", VFun 7 []);
                                                                  ("update", VFun 7 [])])])])
                  [] eq_refl eq_refl eq_refl eq_refl eq_refl) "focus").
  reflexivity.
Defined.

(** ** The order of hooks across mixins *)

Lemma mergeHook_value a b vm key :
  fieldOK KHook a = true -> mergeHook a b vm key = ret (mergeHookValue a b).
Proof. apply mergeHook_lists. Qed.

Lemma mergeHookValue_ok a b :
  fieldOK KHook a = true -> fieldOK KHook (mergeHookValue a b) = true.
Proof. unfold mergeHookValue. destruct (truthy b); [reflexivity | auto]. Qed.

Lemma hooksOf_falsy vs :
  existsb truthy vs = false -> flat_map hooksOf vs = [].
Proof.
  induction vs as [| v vs IH]; [reflexivity |]. cbn [existsb flat_map].
  intros H. apply orb_false_iff in H as (Hv & Hs).
  unfold hooksOf at 1. rewrite Hv, IH by exact Hs. reflexivity.
Qed.

Lemma mergeHookValue_fold vs : forall a,
  fold_left mergeHookValue vs a
  = if existsb truthy vs then VArr (hooksOf a ++ flat_map hooksOf vs) else a.
Proof.
  induction vs as [| b vs IH]; intros a; [reflexivity |].
  cbn [fold_left existsb flat_map]. rewrite IH.
  destruct (truthy b) eqn:Tb; cbn [orb].
  - assert (Hb : hooksOf b = asList b) by (unfold hooksOf; rewrite Tb; reflexivity).
    assert (Hab : mergeHookValue a b = VArr (hooksOf a ++ asList b))
      by (unfold mergeHookValue, hooksOf; rewrite Tb; reflexivity).
    rewrite Hab, Hb.
    change (hooksOf (VArr (hooksOf a ++ asList b))) with (hooksOf a ++ asList b).
    destruct (existsb truthy vs) eqn:Ts.
    + rewrite app_assoc. reflexivity.
    + rewrite (hooksOf_falsy vs Ts), app_nil_r. reflexivity.
  - assert (Hb : hooksOf b = []) by (unfold hooksOf; rewrite Tb; reflexivity).
    assert (Hab : mergeHookValue a b = a)
      by (unfold mergeHookValue; rewrite Tb; reflexivity).
    rewrite Hab, Hb. reflexivity.
Qed.

Lemma record_absent v k : isRecord v = true -> ~ In k (forin v) -> get v k = VUndef.
Proof.
  intros R N. destruct (get v k) eqn:E; try reflexivity;
    exfalso; apply N; apply record_get_forin; congruence.
Qed.

Lemma mergeFields_hook env parent child vm r l h :
  hookField env h = true -> isRecord parent = true -> isRecord child = true ->
  fieldOK KHook (get parent h) = true ->
  mergeFields env parent child vm = (Ok r, l) ->
  get r h = mergeHookValue (get parent h) (get child h).
Proof.
  intros H Rp Rc Ok F.
  destruct (in_dec string_dec h (mergeFieldCalls parent child)) as [I | I].
  - destruct (mergeFields_value _ _ _ _ _ _ _ F I) as (v & Ev & <-).
    unfold stratFor in Ev. rewrite (hookField_strat _ _ H) in Ev.
    rewrite mergeHook_value in Ev by exact Ok. inversion Ev. reflexivity.
  - rewrite (mergeFields_absent _ _ _ _ _ _ _ F I).
    rewrite (mergeFieldCalls_plain parent child h (isRecord_plain _ Rp)) in I.
    rewrite (record_absent parent h Rp), (record_absent child h Rc) by tauto.
    reflexivity.
Qed.

Lemma hookField_not_normalized env h :
  hookField env h = true -> ~ In h normalizedFields.
Proof.
  intros H I. unfold normalizedFields in I.
  assert (S : In h structuralFields) by (unfold structuralFields; simpl in *; tauto).
  exact (hookField_structural env h h H S eq_refl).
Qed.

Lemma leaf_hook env parent x vm r x' l h :
  hookField env h = true -> isRecord parent = true ->
  fieldOK KHook (get parent h) = true -> leafConfig x = true ->
  mergeOptions env parent x vm = (Ok (r, x'), l) ->
  get r h = mergeHookValue (get parent h) (get x h).
Proof.
  intros H Rp Ok L E.
  destruct (mergeOptions_leaf_fields _ _ _ _ _ _ _ L E) as (Rc & G & l3 & F).
  rewrite <- (G h (hookField_not_normalized _ _ H)).
  eapply mergeFields_hook; eauto.
Qed.

Lemma mixins_hook env vm h ms : forall p done p' done' l,
  hookField env h = true -> forallb leafConfig ms = true ->
  isRecord p = true -> fieldOK KHook (get p h) = true ->
  foldM (mixinStep (fun p m => mergeOptions env p m vm)) ms (p, done)
  = (Ok (p', done'), l) ->
  isRecord p' = true
  /\ get p' h = fold_left mergeHookValue (map (fun m => get m h) ms) (get p h).
Proof.
  induction ms as [| m ms IH]; intros p done p' done' l H Ls Rp Ok E.
  - inversion E; subst. auto.
  - cbn [forallb] in Ls. apply andb_true_iff in Ls as (Lm & Ls).
    cbn [foldM] in E. apply bind_inv in E as ([p1 d1] & l1 & l2 & S1 & E & _).
    unfold mixinStep in S1.
    apply bind_inv in S1 as ([merged m'] & ? & ? & Em & S1 & _).
    inversion S1; subst p1 d1. clear S1.
    pose proof (leaf_hook _ _ _ _ _ _ _ _ H Rp Ok Lm Em) as G1.
    pose proof (mergeOptions_result_record _ _ _ _ _ _ _ Em) as R1.
    assert (Ok1 : fieldOK KHook (get merged h) = true)
      by (rewrite G1; apply mergeHookValue_ok, Ok).
    destruct (IH _ _ _ _ _ H Ls R1 Ok1 E) as (R' & G').
    split; [exact R' |]. cbn [map fold_left]. rewrite G', G1. reflexivity.
Qed.

(** X16.  The order of the hooks in the merged options.  For a
    lifecycle-hook field [h], a parent configuration holding a sequence or
    nothing under [h], and a child configuration that extends nothing or a
    configuration without ancestors and mixes in configurations without
    ancestors, the options [mergeOptions] returns hold under [h] the
    parent's value when neither what the child extends, nor any mixin, nor
    the child itself holds a truthy value under [h]; and otherwise the
    sequence of the parent's hooks, then those of what the child extends,
    then those of each mixin in the order of [mixins], then the child's
    own. *)
Theorem hooks_parent_extends_mixins_child env P C vm R C' log h :
  hookField env h = true ->
  isRecord P = true -> fieldOK KHook (get P h) = true ->
  isRecord C = true ->
  (truthy (get C "extends") = true -> leafConfig (get C "extends") = true) ->
  forallb leafConfig (elements (get C "mixins")) = true ->
  mergeOptions env P C vm = (Ok (R, C'), log) ->
  let contributions :=
    (if truthy (get C "extends") then [get (get C "extends") h] else [])
    ++ map (fun m => get m h) (elements (get C "mixins")) ++ [get C h] in
  get R h
  = if existsb truthy contributions
    then VArr (hooksOf (get P h) ++ flat_map hooksOf contributions)
    else get P h.
Proof.
  intros H RP Ok RC LE LM E. cbv zeta. rewrite <- mergeHookValue_fold.
  destruct (mergeOptions_anatomy _ _ _ _ _ _ _ RC E)
    as (c3 & p1 & c4 & p2 & l4 & R3 & G3 & Hext & Hmix & F).
  assert (Nn : ~ In h normalizedFields) by (eapply hookField_not_normalized; eauto).
  assert (Nx : h <> "extends")
    by (intros ->; eapply (hookField_structural env "extends" "extends"); eauto;
        unfold structuralFields; simpl; tauto).
  assert (Nm : h <> "mixins")
    by (intros ->; eapply (hookField_structural env "mixins" "mixins"); eauto;
        unfold structuralFields; simpl; tauto).
  assert (S1 : isRecord p1 = true /\ isRecord c4 = true /\ get c4 h = get C h
               /\ get p1 h
                  = fold_left mergeHookValue
                      (if truthy (get C "extends") then [get (get C "extends") h] else [])
                      (get P h)).
  { destruct Hext as [(T & e' & l1 & Em & ->) | (T & -> & ->)]; rewrite T.
    - split; [eapply mergeOptions_result_record; eauto |].
      split; [apply isRecord_mutateAt, R3 |].
      split; [rewrite get_mutateAt_other by (congruence || reflexivity); apply G3, Nn |].
      cbn [fold_left]. eapply leaf_hook; eauto.
    - split; [exact RP |]. split; [exact R3 |]. split; [apply G3, Nn | reflexivity]. }
  destruct S1 as (R1 & R4 & G4 & G1).
  assert (Ok1 : fieldOK KHook (get p1 h) = true).
  { rewrite G1. destruct (truthy (get C "extends")); cbn [fold_left];
      [apply mergeHookValue_ok |]; exact Ok. }
  assert (S2 : isRecord p2 = true /\ isRecord C' = true /\ get C' h = get C h
               /\ get p2 h
                  = fold_left mergeHookValue
                      (map (fun m => get m h) (elements (get C "mixins"))) (get p1 h)).
  { destruct Hmix as [(T & ms & ms' & l2 & Ems & Em & ->) | (T & -> & ->)].
    - rewrite Ems in *. cbn [elements] in *.
      destruct (mixins_hook _ _ _ _ _ _ _ _ _ H LM R1 Ok1 Em) as (R2 & G2).
      split; [exact R2 |]. split; [apply isRecord_mutateAt, R4 |].
      split; [rewrite get_mutateAt_other by (congruence || reflexivity); exact G4 |].
      exact G2.
    - split; [exact R1 |]. split; [exact R4 |]. split; [exact G4 |].
      destruct (get C "mixins"); try discriminate; reflexivity. }
  destruct S2 as (R2 & R5 & G5 & G2).
  assert (Ok2 : fieldOK KHook (get p2 h) = true).
  { rewrite G2. generalize (map (fun m => get m h) (elements (get C "mixins"))).
    intros vs. revert Ok1. generalize (get p1 h). induction vs as [| v vs IH];
      intros a Oka; cbn [fold_left]; [exact Oka |].
    apply IH, mergeHookValue_ok, Oka. }
  rewrite !fold_left_app. cbn [fold_left]. rewrite <- G1, <- G2, <- G5.
  eapply mergeFields_hook; eauto.
Qed.

Lemma hooks_parent_extends_mixins_child_witness :
  get (VObj VNull [("created", VArr [VFun 3 []; VFun 4 []; VFun 5 []; VFun 6 []]);
                   ("x", VNum 1);
                   ("extends", VObj VNull [("created", VFun 4 [])]);
                   ("mixins", VArr [VObj VNull [("created", VArr [VFun 5 []])];
                                    VObj VNull [("x", VNum 1)]])])
      "created"
  = VArr [VFun 3 []; VFun 4 []; VFun 5 []; VFun 6 []].
Proof.
  apply (hooks_parent_extends_mixins_child vueEnv
           (VObj VNull [("created", VArr [VFun 3 []])])
           (VObj VNull [("created", VFun 6 []);
                        ("extends", VObj VNull [("created", VFun 4 [])]);
                        ("mixins", VArr [VObj VNull [("created", VArr [VFun 5 []])];
                                         VObj VNull [("x", VNum 1)]])])
           VUndef
           (VObj VNull [("created", VArr [VFun 3 []; VFun 4 []; VFun 5 []; VFun 6 []]);
                        ("x", VNum 1);
                        ("extends", VObj VNull [("created", VFun 4 [])]);
                        ("mixins", VArr [VObj VNull [("created", VArr [VFun 5 []])];
                                         VObj VNull [("x", VNum 1)]])])
           (VObj VNull [("created", VFun 6 []);
                        ("extends", VObj VNull [("created", VFun 4 [])]);
                        ("mixins", VArr [VObj VNull [("created", VArr [VFun 5 []])];
                                         VObj VNull [("x", VNum 1)]])])
           [] "created" eq_refl eq_refl eq_refl eq_refl (fun _ => eq_refl) eq_refl eq_refl).
Defined.

(** ** Props given as a sequence, in the merged options *)

Lemma find_map_mem {A} (g : A -> string) name ks :
  mem name (map g ks)
  = match find (fun k => g k =? name) ks with Some _ => true | None => false end.
Proof.
  induction ks as [| k ks IH]; [reflexivity |].
  cbn [map find]. change (mem name (g k :: map g ks)) with ((name =? g k) || mem name (map g ks)).
  rewrite (String.eqb_sym name (g k)). destruct (g k =? name); [reflexivity | exact IH].
Qed.

Lemma stringsOf_strings names : stringsOf (map VStr names) = names.
Proof.
  induction names as [| s names IH]; [reflexivity |].
  cbn [map]. change (VStr s :: map VStr names) with ([VStr s] ++ map VStr names).
  rewrite stringsOf_app, IH. reflexivity.
Qed.

Lemma fold_assign_shape {A} (g : A -> string) (w : A -> value) ks : forall proto own,
  exists own',
    fold_left (fun r k => assign r (g k) (w k)) ks (VObj proto own) = VObj proto own'.
Proof.
  induction ks as [| k ks IH]; intros proto own; cbn [fold_left assign]; eauto.
Qed.

Lemma declared_props names :
  exists own,
    fold_left (fun r s => assign r (camelize s) (typeOnly VNull)) (rev names) emptyObject
    = VObj VNull own
    /\ (forall name, hasOwn (VObj VNull own) name = mem name (map camelize names))
    /\ (forall name, get (VObj VNull own) name
                     = if mem name (map camelize names) then typeOnly VNull else VUndef).
Proof.
  destruct (fold_assign_shape camelize (fun _ => typeOnly VNull) (rev names) VNull [])
    as (own & E).
  exists own. split; [exact E |]. rewrite <- E.
  assert (M : forall name, mem name (map camelize (rev names)) = mem name (map camelize names)).
  { intros name. rewrite map_rev. apply mem_rev. }
  split; intros name.
  - rewrite (hasOwn_fold_assign camelize (fun _ => typeOnly VNull)) by reflexivity.
    rewrite M. apply orb_false_r.
  - rewrite (get_fold_assign camelize (fun _ => typeOnly VNull)) by reflexivity.
    rewrite rev_involutive, (find_map_mem camelize name names).
    destruct (find (fun k => camelize k =? name) names); reflexivity.
Qed.

Lemma normalizeProps_names options vm names :
  isPlainObject options = true -> get options "props" = VArr (map VStr names) ->
  normalizeProps options vm
  = ret (assign options "props"
           (fold_left (fun r s => assign r (camelize s) (typeOnly VNull))
                      (rev names) emptyObject)).
Proof.
  intros Ho Hp. unfold normalizeProps.
  rewrite getp_ok, bind_ret, Hp by (apply plain_not_nullish, Ho).
  cbn [truthy negb isArray elements].
  erewrite bind_ok; [| apply propsArray_loop | apply assignM_plain, Ho].
  rewrite <- map_rev, stringsOf_strings.
  assert (N : nonStrings (map VStr (rev names)) = []).
  { generalize (rev names). intros ss. induction ss as [| s ss IH]; [reflexivity |].
    exact IH. }
  rewrite N. reflexivity.
Qed.

Lemma objectStrat_inv parentVal cown vm key v l :
  objectStrat parentVal (VObj VNull cown) vm key = (Ok v, l) ->
  v = if truthy parentVal
      then extend (extend emptyObject parentVal) (VObj VNull cown)
      else VObj VNull cown.
Proof.
  unfold objectStrat. cbn [truthy assertObjectType isPlainObject negb].
  rewrite bind_ret. destruct (truthy parentVal); cbn [negb]; intros E;
    inversion E; reflexivity.
Qed.

(** X17.  Props declared as a sequence of names reach the merged options
    in object form.  For a parent configuration whose [props] is absent or
    a plain object without prototype, and a child without [extends] and
    [mixins] whose [props] is a sequence of names, in the options
    [mergeOptions] returns [props] reads [{type: null}] under the
    camel-cased form of every listed name and reads as in the parent under
    every other name; the child's own [props] has been rewritten in place
    to the object form. *)
Theorem props_sequence_reaches_merged env parent child vm r child' log names :
  isRecord parent = true -> leafConfig child = true ->
  get child "props" = VArr (map VStr names) ->
  get parent "props" = VUndef \/ bare (get parent "props") = true ->
  mergeOptions env parent child vm = (Ok (r, child'), log) ->
  forall name,
    get (get r "props") name
    = (if mem name (map camelize names) then VObj VNull [("type", VNull)]
       else get (get parent "props") name)
    /\ get (get child' "props") name
       = (if mem name (map camelize names) then VObj VNull [("type", VNull)] else VUndef).
Proof.
  intros Rp L Hp Pp E.
  pose proof (leafConfig_inv _ L) as (Rx & _ & _).
  destruct (mergeOptions_leaf_steps _ _ _ _ _ _ _ L E)
    as (c1 & c2 & l1 & l2 & l3 & l4 & E1 & E2 & E3 & F).
  rewrite (normalizeProps_names child vm names (isRecord_plain _ Rx) Hp) in E1.
  inversion E1; subst c1 l1. clear E1.
  destruct (declared_props names) as (own & Eo & Ho & Go). rewrite Eo in *.
  assert (G' : get child' "props" = VObj VNull own).
  { rewrite (normalizeDirectives_get _ _ _ "props" E3),
            (normalizeInject_get _ _ _ _ "props" E2) by discriminate.
    apply get_assign, isRecord_plain, Rx. }
  assert (Rc : isRecord child' = true).
  { eapply normalizeDirectives_record; [exact E3 |].
    eapply normalizeInject_record; [exact E2 |]. apply isRecord_assign, Rx. }
  assert (I : In "props" (mergeFieldCalls parent child')).
  { apply mergeFieldCalls_plain; [apply isRecord_plain, Rp |]. right.
    apply record_get_forin; [exact Rc |]. rewrite G'. discriminate. }
  destruct (mergeFields_value _ _ _ _ _ _ _ F I) as (v & Ev & Gv).
  rewrite stratFor_kindOf in Ev. change (kindOf env "props") with KObject in Ev.
  rewrite G' in Ev. apply run_inv in Ev as (l & Ev). apply objectStrat_inv in Ev.
  intros name. rewrite Gv, G'. split; [| apply Go].
  rewrite Ev. destruct Pp as [U | B].
  - rewrite U. cbn [truthy]. rewrite Go. destruct (mem name (map camelize names)); reflexivity.
  - destruct (get parent "props") as [ | | | | | | pp pown | | | ]; try discriminate.
    destruct pp; try discriminate. cbn [truthy].
    rewrite !get_extend, !mem_ownKeys_plain by (reflexivity || apply extend_plain; reflexivity).
    rewrite Ho, Go. destruct (mem name (map camelize names)); [reflexivity |].
    destruct (hasOwn (VObj VNull pown) name) eqn:H; [reflexivity |].
    rewrite hasOwn_obj_assoc in H. cbn [emptyObject get assoc].
    destruct (assoc name pown); [discriminate | reflexivity].
Qed.

Lemma props_sequence_reaches_merged_witness :
  get (get (VObj VNull [("props", VObj VNull [("size", VObj VNull [("type", VNum 1)]);
                                              ("myProp", VObj VNull [("type", VNull)])])])
           "props") "myProp"
  = VObj VNull [("type", VNull)]
  /\ get (get (VObj VNull [("props", VObj VNull [("myProp", VObj VNull [("type", VNull)])])])
              "props") "myProp"
     = VObj VNull [("type", VNull)].
Proof.
  apply (props_sequence_reaches_merged vueEnv
           (VObj VNull [("props", VObj VNull [("size", VObj VNull [("type", VNum 1)])])])
           (VObj VNull [("props", VArr [VStr "my-prop"])])
           VUndef
           (VObj VNull [("props", VObj VNull [("size", VObj VNull [("type", VNum 1)]);
                                              ("myProp", VObj VNull [("type", VNull)])])])
           (VObj VNull [("props", VObj VNull [("myProp", VObj VNull [("type", VNull)])])])
           [] ["my-prop"] eq_refl eq_refl eq_refl (or_intror eq_refl) eq_refl "myProp").
Defined.

(** ** A child producer that yields nothing *)

Lemma mergeData_into_nothing to from :
  isNullish to = true ->
  mergeData to from
  = if truthy from
    then match ownKeys from with
         | [] => ret to
         | _ :: _ => throw TypeError
         end
    else ret to.
Proof.
  intros N. rewrite mergeData_eq. destruct (truthy from); [| reflexivity].
  cbn [negb]. destruct (ownKeys from) as [| key ks]; [reflexivity |].
  cbn [foldM]. unfold mergeDataStep, getp. rewrite N. reflexivity.
Qed.

(** X18.  The producer [mergedDataFn], returned when there is no
    instance, does not guard against a child that yields nothing: when the
    child's side evaluates to [undefined] or [null] and the parent's side to
    an object with at least one own enumerable key, calling it raises a
    [TypeError] (from reading a key of the child's result) after both sides
    have been evaluated; when the parent's side is falsy or has no own key,
    it returns the child's result.  The producer [mergedInstanceDataFn],
    returned with an instance, returns the parent's result in all these
    cases. *)
Theorem merged_producer_unguarded env c p cv l1 pv l2 :
  isNullish cv = true ->
  (forall this,
      produce env c this = (Ok cv, l1) -> produce env p this = (Ok pv, l2) ->
      truthy pv = true -> ownKeys pv <> [] ->
      call env (VMergedDataFn c p) this = (Throw TypeError, l1 ++ l2))
  /\ (forall this,
        produce env c this = (Ok cv, l1) -> produce env p this = (Ok pv, l2) ->
        truthy pv = false \/ ownKeys pv = [] ->
        call env (VMergedDataFn c p) this = (Ok cv, l1 ++ l2))
  /\ (forall vm this,
        produce env c vm = (Ok cv, l1) -> produce env p vm = (Ok pv, l2) ->
        call env (VMergedInstanceDataFn c p vm) this = (Ok pv, l1 ++ l2)).
Proof.
  intros N. split; [| split].
  - intros this Ec Ep T K. cbn [call]. fold (produce env c this) (produce env p this).
    rewrite Ec. cbn [bind]. rewrite Ep. cbn [bind].
    rewrite mergeData_into_nothing, T by exact N.
    destruct (ownKeys pv); [contradiction |]. unfold throw. rewrite app_nil_r.
    reflexivity.
  - intros this Ec Ep K. cbn [call]. fold (produce env c this) (produce env p this).
    rewrite Ec. cbn [bind]. rewrite Ep. cbn [bind].
    rewrite mergeData_into_nothing by exact N.
    destruct K as [T | K]; [rewrite T | rewrite K; destruct (truthy pv)];
      unfold ret; rewrite app_nil_r; reflexivity.
  - intros vm this Ec Ep. cbn [call]. fold (produce env c vm) (produce env p vm).
    rewrite Ec. cbn [bind]. rewrite Ep. cbn [bind].
    assert (T : truthy cv = false) by (destruct cv; discriminate || reflexivity).
    rewrite T. unfold ret. rewrite app_nil_r. reflexivity.
Qed.

Lemma merged_producer_unguarded_witness :
  call vueEnv (VMergedDataFn (VFun 0 []) (VFun 2 [])) VUndef = (Throw TypeError, [] ++ []).
Proof.
  apply (proj1 (merged_producer_unguarded vueEnv (VFun 0 []) (VFun 2 [])
                  VUndef [] (VObj VNull [("a", VNum 1)]) [] eq_refl) VUndef
           eq_refl eq_refl eq_refl).
  discriminate.
Defined.

(** ** Resolving in a merged registry *)

Lemma registry_resolves options type id warnMissing p cown :
  isNullish options = false ->
  get options type = extend (VObj p []) (VObj VNull cown) ->
  let local := VObj VNull cown in
  (hasOwn local id = true ->
   resolveAsset options type (VStr id) warnMissing = ret (get local id))
  /\ (hasOwn local id = false -> hasOwn local (camelize id) = false ->
      hasOwn local (capitalize (camelize id)) = false ->
      let res := orElse (get p id)
                   (orElse (get p (camelize id)) (get p (capitalize (camelize id)))) in
      resolveAsset options type (VStr id) warnMissing
      = (Ok res,
         if warnMissing && negb (truthy res)
         then [Warn (WFailedToResolve (dropLast type) id)] else [])).
Proof.
  intros Ho Gv. cbv zeta.
  assert (Hn : isNullish (get options type) = false)
    by (rewrite Gv; apply plain_not_nullish, extend_plain; reflexivity).
  split.
  - intros H. unfold resolveAsset. rewrite getp_ok, bind_ret by exact Ho.
    rewrite getp_ok by exact Hn.
    rewrite Gv, registry_hasOwn, H, registry_get, H. reflexivity.
  - intros H1 H2 H3.
    rewrite (resolveAsset_fallback options type id warnMissing);
      rewrite ?Gv, ?registry_hasOwn; try reflexivity; try assumption;
      try (rewrite <- Gv; exact Hn).
    rewrite !registry_get, H1, H2, H3. reflexivity.
Qed.

(** The registry the merged options hold for an asset category, for a child
    without ancestors: the parent's registry as prototype, the child's
    normalized entries as own properties. *)
Lemma merged_registry env parent child vm r child' log type :
  isRecord parent = true -> leafConfig child = true ->
  mergeOptions env parent child vm = (Ok (r, child'), log) ->
  kindOf env type = KAsset -> bare (get child type) = true ->
  exists cown,
    isNullish r = false
    /\ get r type
       = extend (VObj (orElse (get parent type) VNull) []) (VObj VNull cown)
    /\ (forall k, hasOwn (VObj VNull cown) k = hasOwn (get child type) k)
    /\ (forall k, get (VObj VNull cown) k = registryEntry type (get (get child type) k)).
Proof.
  intros Rp L E K B.
  pose proof (leafConfig_inv _ L) as (Rx & _ & _).
  destruct (mergeOptions_leaf_steps _ _ _ _ _ _ _ L E)
    as (c1 & c2 & l1 & l2 & l3 & l4 & E1 & E2 & E3 & F).
  assert (R2 : isRecord c2 = true).
  { eapply normalizeInject_record; [exact E2 |].
    eapply normalizeProps_record; [exact E1 | exact Rx]. }
  assert (Rc : isRecord child' = true)
    by (eapply normalizeDirectives_record; [exact E3 | exact R2]).
  assert (Np : type <> "props") by (intros ->; cbn in K; discriminate).
  assert (Ni : type <> "inject") by (intros ->; cbn in K; discriminate).
  assert (G2 : get c2 type = get child type).
  { rewrite (normalizeInject_get _ _ _ _ type E2),
            (normalizeProps_get _ _ _ _ type E1); [reflexivity | |]; assumption. }
  assert (Hr : isNullish r = false).
  { destruct (mergeFields_result _ _ _ _ _ _ F) as (own & ->). reflexivity. }
  assert (S : exists cown,
             get child' type = VObj VNull cown
             /\ (forall k, hasOwn (VObj VNull cown) k = hasOwn (get child type) k)
             /\ (forall k, get (VObj VNull cown) k
                           = registryEntry type (get (get child type) k))).
  { unfold registryEntry. destruct (String.eqb_spec type "directives") as [-> | Nd].
    - assert (Rd : isRecord (get c2 "directives") = true).
      { rewrite G2. destruct (get child "directives") as [ | | | | | | dp down | | | ];
          try discriminate. destruct dp; try discriminate. reflexivity. }
      destruct (normalizeDirectives_record_spec c2 R2 Rd)
        as (dirs' & E3' & Gd & R' & G & Bs).
      rewrite E3' in E3. inversion E3; subst child' l3. clear E3.
      rewrite G2 in G, Bs. destruct (Bs B) as (B' & O).
      destruct dirs' as [ | | | | | | dp down | | | ]; try discriminate.
      destruct dp; try discriminate.
      exists down. split; [exact Gd |]. split; [exact O | exact G].
    - rewrite (normalizeDirectives_get _ _ _ type E3), G2 by exact Nd.
      destruct (get child type) as [ | | | | | | cp cown | | | ]; try discriminate.
      destruct cp; try discriminate. exists cown. auto. }
  destruct S as (cown & Gc & O & G).
  assert (I : In type (mergeFieldCalls parent child')).
  { apply mergeFieldCalls_plain; [apply isRecord_plain, Rp |]. right.
    apply record_get_forin; [exact Rc |]. rewrite Gc. discriminate. }
  destruct (mergeFields_value _ _ _ _ _ _ _ F I) as (v & Ev & Gv).
  rewrite stratFor_kindOf, K, Gc in Ev. apply run_inv in Ev as (l & Ev).
  apply mergeAssets_inv in Ev as (_ & ->).
  exists cown. auto.
Qed.

(** X4.  Resolving in the options that [mergeOptions] returns for a
    parent configuration and a child without [extends] and [mixins], in any
    asset category for which the child holds a registry written as a plain
    object without prototype: a name the child registers is resolved to the
    child's entry, whatever the parent holds (to [{bind: f, update: f}] for
    a directive the child gave as the function [f], since the child's
    [directives] are normalized before they are merged); when the child
    registers the name under none of the three spellings, the result is the
    first truthy entry of the parent's registry under the exact, the
    camel-cased and the capitalized camel-cased name (its own entries and
    those it inherits), and a warning is issued on request when there is
    none. *)
Theorem merged_registry_resolves env parent child vm r child' log type id warnMissing :
  isRecord parent = true -> leafConfig child = true ->
  mergeOptions env parent child vm = (Ok (r, child'), log) ->
  kindOf env type = KAsset ->
  bare (get child type) = true ->
  let local := get child type in
  let inherited k := get (orElse (get parent type) VNull) k in
  let camelizedId := camelize id in
  let PascalCaseId := capitalize camelizedId in
  (hasOwn local id = true ->
   resolveAsset r type (VStr id) warnMissing
   = ret (registryEntry type (get local id)))
  /\ (hasOwn local id = false -> hasOwn local camelizedId = false ->
      hasOwn local PascalCaseId = false ->
      let res := orElse (inherited id)
                   (orElse (inherited camelizedId) (inherited PascalCaseId)) in
      resolveAsset r type (VStr id) warnMissing
      = (Ok res,
         if warnMissing && negb (truthy res)
         then [Warn (WFailedToResolve (dropLast type) id)] else []))
  /\ (type <> "directives" -> forall v, registryEntry type v = v)
  /\ (forall f, isFunction f = true ->
        registryEntry "directives" f = VObj VNull [("bind", f); ("update", f)]).
Proof.
  intros Rp L E K B. cbv zeta.
  destruct (merged_registry _ _ _ _ _ _ _ _ Rp L E K B) as (cown & Hr & Gv & O & G).
  destruct (registry_resolves r type id warnMissing _ cown Hr Gv) as (Own & Fall).
  split; [| split; [| split]].
  - intros H. rewrite <- O in H. rewrite (Own H), G. reflexivity.
  - intros H1 H2 H3. rewrite <- O in H1, H2, H3. exact (Fall H1 H2 H3).
  - intros N v. unfold registryEntry.
    destruct (String.eqb_spec type "directives"); [contradiction | reflexivity].
  - intros f Hf. unfold registryEntry, expandDirective. cbn. rewrite Hf. reflexivity.
Qed.

Lemma merged_registry_resolves_witness :
  resolveAsset
    (VObj VNull [("components",
                  VObj (VObj VNull [("my-comp", VNum 1)]) [("other", VNum 2)])])
    "components" (VStr "my-comp") true
  = (Ok (VNum 1), [])
  /\ resolveAsset
       (VObj VNull [("directives",
                     VObj (VObj VNull [("show", VNum 1)])
                       [("focus", VObj VNull [("bind", VFun 7 []); ("update", VFun 7 [])])])])
       "directives" (VStr "focus") true
     = ret (VObj VNull [("bind", VFun 7 []); ("update", VFun 7 [])]).
Proof.
  split.
  - apply (proj1 (proj2 (merged_registry_resolves vueEnv
             (VObj VNull [("components", VObj VNull [("my-comp", VNum 1)])])
             (VObj VNull [("components", VObj VNull [("other", VNum 2)])])
             VUndef
             (VObj VNull [("components",
                           VObj (VObj VNull [("my-comp", VNum 1)]) [("other", VNum 2)])])
             (VObj VNull [("components", VObj VNull [("other", VNum 2)])])
             [] "components" "my-comp" true
             eq_refl eq_refl eq_refl eq_refl eq_refl)));
      reflexivity.
  - apply (proj1 (merged_registry_resolves vueEnv
             (VObj VNull [("directives", VObj VNull [("show", VNum 1)])])
             (VObj VNull [("directives", VObj VNull [("focus", VFun 7 [])])])
             VUndef
             (VObj VNull [("directives",
                           VObj (VObj VNull [("show", VNum 1)])
                             [("focus", VObj VNull [("bind", VFun 7 []);
                                                    ("update", VFun 7 [])])])])
             (VObj VNull [("directives",
                           VObj VNull [("focus", VObj VNull [("bind", VFun 7 []);
                                                             ("update", VFun 7 [])])])])
             [] "directives" "focus" true
             eq_refl eq_refl eq_refl eq_refl eq_refl)).
    reflexivity.
Defined.
